(** * CHIRP audio trigger: circular sample buffer and MP4 container parser

    A shallow embedding of two parts of the CHIRP_Audio sketch:

    - [struct RingBuffer] of [config.h] (the per-stream sample queue), and
    - [class MP4Parser] with [generateAdtsHeader] of [mp4_parser.cpp]
      (box walk, index tables, frame extraction).

    Machine integers are carried in [Z]; every place where the C++ code
    computes in [uint32_t] or stores into a [uint8_t] has its wrap-around
    written out ([wrap32], [u8]). *)

From Stdlib Require Import ZArith Lia Bool.
From stdpp Require Import base option list.

Local Open Scope Z_scope.

(* ===================================================================== *)
(** * Machine arithmetic                                                  *)
(* ===================================================================== *)

(** [uint32_t] arithmetic: results are reduced modulo 2^32. *)
Definition wrap32 (z : Z) : Z := z mod 2 ^ 32.

(** Storing into a [uint8_t]. *)
Definition u8 (z : Z) : Z := z mod 256.

(** The word [(b0 << 24) | (b1 << 16) | (b2 << 8) | b3] as a [uint32_t]. *)
Definition be_word (b0 b1 b2 b3 : Z) : Z :=
  wrap32 (Z.lor (Z.lor (Z.lor (Z.shiftl b0 24) (Z.shiftl b1 16)) (Z.shiftl b2 8)) b3).

(** Conversion of a 32-bit unsigned value to [int] (two's complement). *)
Definition to_int (z : Z) : Z :=
  let w := wrap32 z in if w <? 2 ^ 31 then w else w - 2 ^ 32.

(* ===================================================================== *)
(** * config.h: struct RingBuffer                                         *)
(* ===================================================================== *)

Module RingBuffer.

(** The struct.  [buffer] is a pointer into PSRAM: [None] is the null
    pointer, [Some b] an array holding the samples [b].  The positions are
    [int]s; they are kept in [Z], which is exact as long as no [int]
    computation overflows (see [positions_fit_int] below). *)
Record t := mk {
  buffer   : option (list Z);
  readPos  : Z;
  writePos : Z
}.

Section Ring.

(** The two globals every ring shares ([extern int streamBufferSize],
    [extern int streamBufferMask]). *)
Variable streamBufferSize : Z.
Variable streamBufferMask : Z.

Definition availableForWrite (rb : t) : Z :=
  match buffer rb with
  | None => 0
  | Some _ =>
      let currentLevel :=
        Z.land (writePos rb - readPos rb + streamBufferSize) streamBufferMask in
      (streamBufferSize - 1) - currentLevel
  end.

Definition availableForRead (rb : t) : Z :=
  match buffer rb with
  | None => 0
  | Some _ =>
      Z.land (writePos rb - readPos rb + streamBufferSize) streamBufferMask
  end.

(** [buffer[writePos] = sample] is a list update; an index outside the
    array (undefined behaviour in C++) leaves the list as it is. *)
Definition push (sample : Z) (rb : t) : bool * t :=
  match buffer rb with
  | None => (false, rb)
  | Some b =>
      let nextWrite := Z.land (writePos rb + 1) streamBufferMask in
      if nextWrite =? readPos rb then (false, rb)
      else (true, {| buffer := Some (<[Z.to_nat (writePos rb) := sample]> b);
                     readPos := readPos rb;
                     writePos := nextWrite |})
  end.

(** [buffer[readPos]]: an index outside the array reads as 0 here. *)
Definition pop (rb : t) : Z * t :=
  match buffer rb with
  | None => (0, rb)
  | Some b =>
      let sample := default 0 (b !! Z.to_nat (readPos rb)) in
      (sample, {| buffer := Some b;
                  readPos := Z.land (readPos rb + 1) streamBufferMask;
                  writePos := writePos rb |})
  end.

Definition clear (rb : t) : t :=
  {| buffer := buffer rb; readPos := 0; writePos := 0 |}.

(** Sequences of producer and consumer calls. *)
Inductive op := Push (sample : Z) | Pop.

Definition step (o : op) (rb : t) : t :=
  match o with
  | Push s => snd (push s rb)
  | Pop => snd (pop rb)
  end.

Definition run (ops : list op) (rb : t) : t :=
  fold_left (fun acc o => step o acc) ops rb.

(** Pushing a list of samples in order, keeping every return value. *)
Fixpoint push_all (samples : list Z) (rb : t) : list bool * t :=
  match samples with
  | [] => ([], rb)
  | s :: rest =>
      let '(ok, rb1) := push s rb in
      let '(oks, rb2) := push_all rest rb1 in
      (ok :: oks, rb2)
  end.

(** A ring as the firmware sets it up: an allocated array of
    [streamBufferSize] samples and both positions inside it. *)
Definition wf (rb : t) : Prop :=
  (exists b, buffer rb = Some b /\ Z.of_nat (length b) = streamBufferSize) /\
  0 <= readPos rb < streamBufferSize /\
  0 <= writePos rb < streamBufferSize.

(** The samples waiting in the ring, oldest first: the array elements
    from [readPos] on, as many as [availableForRead] counts. *)
Definition contents (rb : t) : list Z :=
  match buffer rb with
  | None => []
  | Some b =>
      map (fun j : nat =>
             default 0 (b !! Z.to_nat (Z.land (readPos rb + Z.of_nat j) streamBufferMask)))
          (seq 0 (Z.to_nat (availableForRead rb)))
  end.

(** The buffer is full when the next push would be rejected. *)
Definition full (rb : t) : Prop :=
  Z.land (writePos rb + 1) streamBufferMask = readPos rb.

(** The capacity is a power of two that fits an [int], and the mask is
    the capacity minus one. *)
Definition capacity_ok : Prop :=
  (exists k, 0 <= k <= 30 /\ streamBufferSize = 2 ^ k) /\
  streamBufferMask = streamBufferSize - 1.

End Ring.

End RingBuffer.

(* ===================================================================== *)
(** * mp4_parser.cpp: class MP4Parser                                     *)
(* ===================================================================== *)

(** The parser object.  The two file handles ([flashFile], [sdFile]) are
    one modelled handle, the one [usingFlash] selects: [fdata] holds the
    bytes of the open file and [fpos] its position.  Members the code
    declares but never reads ([objectType], [stscCount], [stscIndex],
    [nextChunkRunStart], [stszSampleSize]) are left out. *)
Record MP4Parser := mkParser {
  usingFlash : bool;
  fdata : list Z;
  fpos : Z;
  stszOffset : Z;
  stcoOffset : Z;
  stscOffset : Z;
  mdatOffset : Z;
  sampleRate : Z;
  channels : Z;
  currentSample : Z;
  totalSamples : Z;
  currentChunk : Z;
  samplesInCurrentChunk : Z;
  samplesReadInChunk : Z;
  currentOffset : Z
}.

Definition set_usingFlash (v : bool) (p : MP4Parser) : MP4Parser :=
  mkParser v (fdata p) (fpos p) (stszOffset p) (stcoOffset p) (stscOffset p)
    (mdatOffset p) (sampleRate p) (channels p) (currentSample p) (totalSamples p)
    (currentChunk p) (samplesInCurrentChunk p) (samplesReadInChunk p) (currentOffset p).

Definition set_fdata (v : list Z) (p : MP4Parser) : MP4Parser :=
  mkParser (usingFlash p) v (fpos p) (stszOffset p) (stcoOffset p) (stscOffset p)
    (mdatOffset p) (sampleRate p) (channels p) (currentSample p) (totalSamples p)
    (currentChunk p) (samplesInCurrentChunk p) (samplesReadInChunk p) (currentOffset p).

Definition set_fpos (v : Z) (p : MP4Parser) : MP4Parser :=
  mkParser (usingFlash p) (fdata p) v (stszOffset p) (stcoOffset p) (stscOffset p)
    (mdatOffset p) (sampleRate p) (channels p) (currentSample p) (totalSamples p)
    (currentChunk p) (samplesInCurrentChunk p) (samplesReadInChunk p) (currentOffset p).

Definition set_stszOffset (v : Z) (p : MP4Parser) : MP4Parser :=
  mkParser (usingFlash p) (fdata p) (fpos p) v (stcoOffset p) (stscOffset p)
    (mdatOffset p) (sampleRate p) (channels p) (currentSample p) (totalSamples p)
    (currentChunk p) (samplesInCurrentChunk p) (samplesReadInChunk p) (currentOffset p).

Definition set_stcoOffset (v : Z) (p : MP4Parser) : MP4Parser :=
  mkParser (usingFlash p) (fdata p) (fpos p) (stszOffset p) v (stscOffset p)
    (mdatOffset p) (sampleRate p) (channels p) (currentSample p) (totalSamples p)
    (currentChunk p) (samplesInCurrentChunk p) (samplesReadInChunk p) (currentOffset p).

Definition set_stscOffset (v : Z) (p : MP4Parser) : MP4Parser :=
  mkParser (usingFlash p) (fdata p) (fpos p) (stszOffset p) (stcoOffset p) v
    (mdatOffset p) (sampleRate p) (channels p) (currentSample p) (totalSamples p)
    (currentChunk p) (samplesInCurrentChunk p) (samplesReadInChunk p) (currentOffset p).

Definition set_mdatOffset (v : Z) (p : MP4Parser) : MP4Parser :=
  mkParser (usingFlash p) (fdata p) (fpos p) (stszOffset p) (stcoOffset p) (stscOffset p)
    v (sampleRate p) (channels p) (currentSample p) (totalSamples p)
    (currentChunk p) (samplesInCurrentChunk p) (samplesReadInChunk p) (currentOffset p).

Definition set_sampleRate (v : Z) (p : MP4Parser) : MP4Parser :=
  mkParser (usingFlash p) (fdata p) (fpos p) (stszOffset p) (stcoOffset p) (stscOffset p)
    (mdatOffset p) v (channels p) (currentSample p) (totalSamples p)
    (currentChunk p) (samplesInCurrentChunk p) (samplesReadInChunk p) (currentOffset p).

Definition set_channels (v : Z) (p : MP4Parser) : MP4Parser :=
  mkParser (usingFlash p) (fdata p) (fpos p) (stszOffset p) (stcoOffset p) (stscOffset p)
    (mdatOffset p) (sampleRate p) v (currentSample p) (totalSamples p)
    (currentChunk p) (samplesInCurrentChunk p) (samplesReadInChunk p) (currentOffset p).

Definition set_currentSample (v : Z) (p : MP4Parser) : MP4Parser :=
  mkParser (usingFlash p) (fdata p) (fpos p) (stszOffset p) (stcoOffset p) (stscOffset p)
    (mdatOffset p) (sampleRate p) (channels p) v (totalSamples p)
    (currentChunk p) (samplesInCurrentChunk p) (samplesReadInChunk p) (currentOffset p).

Definition set_currentChunk (v : Z) (p : MP4Parser) : MP4Parser :=
  mkParser (usingFlash p) (fdata p) (fpos p) (stszOffset p) (stcoOffset p) (stscOffset p)
    (mdatOffset p) (sampleRate p) (channels p) (currentSample p) (totalSamples p)
    v (samplesInCurrentChunk p) (samplesReadInChunk p) (currentOffset p).

Definition set_samplesInCurrentChunk (v : Z) (p : MP4Parser) : MP4Parser :=
  mkParser (usingFlash p) (fdata p) (fpos p) (stszOffset p) (stcoOffset p) (stscOffset p)
    (mdatOffset p) (sampleRate p) (channels p) (currentSample p) (totalSamples p)
    (currentChunk p) v (samplesReadInChunk p) (currentOffset p).

Definition set_samplesReadInChunk (v : Z) (p : MP4Parser) : MP4Parser :=
  mkParser (usingFlash p) (fdata p) (fpos p) (stszOffset p) (stcoOffset p) (stscOffset p)
    (mdatOffset p) (sampleRate p) (channels p) (currentSample p) (totalSamples p)
    (currentChunk p) (samplesInCurrentChunk p) v (currentOffset p).

Definition set_currentOffset (v : Z) (p : MP4Parser) : MP4Parser :=
  mkParser (usingFlash p) (fdata p) (fpos p) (stszOffset p) (stcoOffset p) (stscOffset p)
    (mdatOffset p) (sampleRate p) (channels p) (currentSample p) (totalSamples p)
    (currentChunk p) (samplesInCurrentChunk p) (samplesReadInChunk p) v.

(** [MP4Parser::MP4Parser()].  The constructor leaves the chunk state
    uninitialised; [open] assigns it before [readNextFrame] can use it, and
    it is 0 here.  No file is open: the handle has no bytes. *)
Definition MP4Parser_new : MP4Parser :=
  mkParser false [] 0 0 0 0 0 44100 2 0 0 0 0 0 0.

(** The playback cursor of the parser. *)
Definition cursor (p : MP4Parser) : Z * Z * Z * Z * Z :=
  (currentSample p, currentChunk p, samplesReadInChunk p,
   samplesInCurrentChunk p, currentOffset p).

(** ** generateAdtsHeader *)

(** The threshold ladder of [generateAdtsHeader] ([int freqIdx = 4] and the
    chain of [else if]s). *)
Definition freqIdx_of (sampleRate : Z) : Z :=
  if 96000 <=? sampleRate then 0
  else if 88200 <=? sampleRate then 1
  else if 64000 <=? sampleRate then 2
  else if 48000 <=? sampleRate then 3
  else if 44100 <=? sampleRate then 4
  else if 32000 <=? sampleRate then 5
  else if 24000 <=? sampleRate then 6
  else if 22050 <=? sampleRate then 7
  else if 16000 <=? sampleRate then 8
  else if 12000 <=? sampleRate then 9
  else 4.

(** [header] is the caller's byte array; the seven assignments
    [header[i] = ...] are list updates, each value cut to a [uint8_t].
    [profile] is not used by the function body. *)
Definition generateAdtsHeader (header : list Z) (len profile sampleRate channels : Z)
  : list Z :=
  let freqIdx := freqIdx_of sampleRate in
  let h0 := <[0%nat := u8 0xFF]> header in
  let h1 := <[1%nat := u8 0xF1]> h0 in
  let h2 := <[2%nat := u8 (Z.lor (Z.lor (Z.shiftl 1 6) (Z.shiftl freqIdx 2))
                                 (Z.land (Z.shiftr channels 2) 0x01))]> h1 in
  let h3 := <[3%nat := u8 (Z.lor (Z.shiftl (Z.land channels 0x03) 6)
                                 (Z.shiftr len 11))]> h2 in
  let h4 := <[4%nat := u8 (Z.land (Z.shiftr len 3) 0xFF)]> h3 in
  let h5 := <[5%nat := u8 (Z.lor (Z.shiftl (Z.land len 0x07) 5) 0x1F)]> h4 in
  <[6%nat := u8 0xFC]> h5.

(** The sampling-frequency index field of a header: bits 2..5 of byte 2. *)
Definition header_freqIdx (header : list Z) : Z :=
  Z.land (Z.shiftr (default 0 (header !! 2%nat)) 2) 0xF.

(** Copying [src] into [dst] from index [at_] on ([read(buffer + 7, ...)]);
    bytes that would land behind the end of [dst] are dropped. *)
Fixpoint write_at (at_ : nat) (src dst : list Z) : list Z :=
  match src with
  | [] => dst
  | x :: rest => write_at (S at_) rest (<[at_ := x]> dst)
  end.

Section Parser.

(** A 4-byte read that the file cannot serve in full leaves the rest of
    the local array [buf] of [readUI32BE] as it was, which is
    uninitialised memory.  [stale off] stands for the byte found there
    when the byte at file offset [off] was not delivered; every result
    below holds for any choice of it. *)
Variable stale : Z -> Z.

(** ** File access helpers *)

Definition getPos (p : MP4Parser) : Z := wrap32 (fpos p).

(** [seek(uint32_t pos)]: both file libraries move the handle to [pos]
    when [pos] is at most the size of the file; a [pos] behind the end of
    the file is refused and the handle stays where it was.  The wrapper
    drops the library's status. *)
Definition seek (pos : Z) (p : MP4Parser) : MP4Parser :=
  if wrap32 pos <=? Z.of_nat (length (fdata p)) then set_fpos (wrap32 pos) p else p.

(** [read(buf, len)]: the handle delivers the bytes from its position on,
    as many as the file has, at most [len], and advances by that many.
    The count the library returns is dropped by the wrapper, as in the
    source; the delivered bytes are the result. *)
Definition read (len : Z) (p : MP4Parser) : list Z * MP4Parser :=
  let got := take (Z.to_nat len) (drop (Z.to_nat (fpos p)) (fdata p)) in
  (got, set_fpos (fpos p + Z.of_nat (length got)) p).

Definition readUI32BE (p : MP4Parser) : Z * MP4Parser :=
  let '(got, p') := read 4 p in
  let buf (i : nat) := u8 (default (stale (fpos p + Z.of_nat i)) (got !! i)) in
  (be_word (buf 0%nat) (buf 1%nat) (buf 2%nat) (buf 3%nat), p').

(** ** Loops

    A [while] of the source is run with a fuel argument: [None] means the
    fuel ran out before the loop ended.  The loop's local variables are
    threaded as [L]; the result counts how often the body was entered. *)

Definition M (A : Type) : Type := MP4Parser -> option (A * MP4Parser).

Definition ret {A} (a : A) : M A := fun p => Some (a, p).

Definition bind {A B} (m : M A) (k : A -> M B) : M B :=
  fun p => match m p with
           | None => None
           | Some (a, p') => k a p'
           end.

Definition lift {A} (f : MP4Parser -> A * MP4Parser) : M A := fun p => Some (f p).
Definition gets {A} (f : MP4Parser -> A) : M A := fun p => Some (f p, p).
Definition exec (f : MP4Parser -> MP4Parser) : M unit := fun p => Some (tt, f p).

Notation "x <- m ;; k" := (bind m (fun x => k))
  (at level 100, m at next level, right associativity).
Notation "m ;;; k" := (bind m (fun _ => k))
  (at level 100, right associativity).

(** How a loop body ends: fall through to the next test of the condition,
    or leave the loop ([break], or [return] from inside it). *)
Inductive flow := Next | Stop.

Fixpoint while {L : Type} (fuel : nat) (cond : L -> MP4Parser -> bool)
    (body : L -> M (flow * L)) (l : L) (p : MP4Parser)
  : option ((nat * L) * MP4Parser) :=
  match fuel with
  | O => None
  | S fuel' =>
      if cond l p then
        match body l p with
        | None => None
        | Some ((Stop, l'), p') => Some ((1%nat, l'), p')
        | Some ((Next, l'), p') =>
            match while fuel' cond body l' p' with
            | None => None
            | Some ((n, lf), pf) => Some ((S n, lf), pf)
            end
        end
      else Some ((O, l), p)
  end.

(** ** parseStsd *)

Definition parseStsd (atomSize : Z) (p : MP4Parser) : bool * MP4Parser :=
  let p := seek (getPos p + 8) p in
  let '(size, p) := readUI32BE p in
  let '(format, p) := readUI32BE p in
  if format =? 0x6D703461 then
    let p := seek (getPos p + 8) p in
    let p := seek (getPos p + 8) p in
    let '(w, p) := readUI32BE p in
    let chans := Z.shiftr w 16 mod 2 ^ 16 in
    let p := set_channels (u8 chans) p in
    let p := seek (getPos p + 4) p in
    let '(r, p) := readUI32BE p in
    let p := set_sampleRate (Z.shiftr r 16) p in
    (true, p)
  else (false, p).

(** ** parseTrak: the four nested loops, innermost first *)

(** Children of 'stbl'. *)
Definition stbl_cond (stblEnd : Z) (c4 : Z) (p : MP4Parser) : bool :=
  (getPos p <? stblEnd) && (c4 <? 100).

Definition stbl_body (c4 : Z) : M (flow * Z) :=
  let c4 := wrap32 (c4 + 1) in
  s4 <- lift readUI32BE ;;
  t4 <- lift readUI32BE ;;
  if s4 <? 8 then ret (Stop, c4)
  else
    nextStblChild <- gets (fun p => wrap32 (getPos p + s4 - 8)) ;;
    (if t4 =? 0x7374737A then
       exec (fun p => set_stszOffset (wrap32 (getPos p - 8)) p)
     else if t4 =? 0x7374636F then
       exec (fun p => set_stcoOffset (wrap32 (getPos p - 8)) p)
     else if t4 =? 0x73747363 then
       exec (fun p => set_stscOffset (wrap32 (getPos p - 8)) p)
     else if t4 =? 0x73747364 then
       exec (fun p => snd (parseStsd (wrap32 (s4 - 8)) p))
     else ret tt) ;;;
    exec (seek nextStblChild) ;;;
    ret (Next, c4).

Definition stbl_loop (fuel : nat) (stblEnd : Z) : M (nat * Z) :=
  while fuel (stbl_cond stblEnd) stbl_body 0.

(** Children of 'minf'. *)
Definition minf_cond (minfEnd : Z) (c3 : Z) (p : MP4Parser) : bool :=
  (getPos p <? minfEnd) && (c3 <? 100).

Definition minf_body (fuel : nat) (c3 : Z) : M (flow * Z) :=
  let c3 := wrap32 (c3 + 1) in
  s3 <- lift readUI32BE ;;
  t3 <- lift readUI32BE ;;
  if s3 <? 8 then ret (Stop, c3)
  else
    nextMinfChild <- gets (fun p => wrap32 (getPos p + s3 - 8)) ;;
    (if t3 =? 0x7374626C then
       stblEnd <- gets (fun p => wrap32 (getPos p + s3 - 8)) ;;
       stbl_loop fuel stblEnd ;;; ret tt
     else ret tt) ;;;
    exec (seek nextMinfChild) ;;;
    ret (Next, c3).

Definition minf_loop (fuel : nat) (minfEnd : Z) : M (nat * Z) :=
  while fuel (minf_cond minfEnd) (minf_body fuel) 0.

(** Children of 'mdia'; the locals are [c2] and [isAudio]. *)
Definition mdia_cond (mdiaEnd : Z) (l : Z * bool) (p : MP4Parser) : bool :=
  (getPos p <? mdiaEnd) && (fst l <? 100).

Definition mdia_body (fuel : nat) (l : Z * bool) : M (flow * (Z * bool)) :=
  let c2 := wrap32 (fst l + 1) in
  let isAudio := snd l in
  s2 <- lift readUI32BE ;;
  t2 <- lift readUI32BE ;;
  if s2 <? 8 then ret (Stop, (c2, isAudio))
  else
    nextMdiaChild <- gets (fun p => wrap32 (getPos p + s2 - 8)) ;;
    isAudio <-
      (if t2 =? 0x68646C72 then
         exec (fun p => seek (getPos p + 8) p) ;;;
         subtype <- lift readUI32BE ;;
         ret (if subtype =? 0x736F756E then true else isAudio)
       else if t2 =? 0x6D696E66 then
         minfEnd <- gets (fun p => wrap32 (getPos p + s2 - 8)) ;;
         minf_loop fuel minfEnd ;;; ret isAudio
       else ret isAudio) ;;
    exec (seek nextMdiaChild) ;;;
    ret (Next, (c2, isAudio)).

Definition mdia_loop (fuel : nat) (mdiaEnd : Z) (isAudio : bool) : M (nat * (Z * bool)) :=
  while fuel (mdia_cond mdiaEnd) (mdia_body fuel) (0, isAudio).

(** Children of 'trak'; the locals are [count] and [isAudio]. *)
Definition trak_cond (endPos : Z) (l : Z * bool) (p : MP4Parser) : bool :=
  (getPos p <? endPos) && (fst l <? 500).

Definition trak_body (fuel : nat) (l : Z * bool) : M (flow * (Z * bool)) :=
  let count := wrap32 (fst l + 1) in
  let isAudio := snd l in
  size <- lift readUI32BE ;;
  type <- lift readUI32BE ;;
  if size <? 8 then ret (Stop, (count, isAudio))
  else
    nextAtomPos <- gets (fun p => wrap32 (getPos p + size - 8)) ;;
    isAudio <-
      (if type =? 0x6D646961 then
         mdiaEnd <- gets (fun p => wrap32 (getPos p + size - 8)) ;;
         r <- mdia_loop fuel mdiaEnd isAudio ;;
         ret (snd (snd r))
       else ret isAudio) ;;
    exec (seek nextAtomPos) ;;;
    ret (Next, (count, isAudio)).

Definition trak_loop (fuel : nat) (endPos : Z) : M (nat * (Z * bool)) :=
  while fuel (trak_cond endPos) (trak_body fuel) (0, false).

Definition parseTrak (fuel : nat) (atomSize : Z) : M bool :=
  startPos <- gets getPos ;;
  let endPos := wrap32 (startPos + atomSize) in
  exec (fun p => set_stscOffset 0 (set_stcoOffset 0 (set_stszOffset 0 p))) ;;;
  r <- trak_loop fuel endPos ;;
  let isAudio := snd (snd r) in
  gets (fun p => isAudio && negb (stszOffset p =? 0) && negb (stcoOffset p =? 0)
                 && negb (stscOffset p =? 0)).

(** ** parseMoov: the locals are [count] and the value a [return] inside
    the loop hands back. *)
Definition moov_cond (endPos : Z) (l : Z * bool) (p : MP4Parser) : bool :=
  (getPos p <? endPos) && (fst l <? 500).

Definition moov_body (fuel : nat) (l : Z * bool) : M (flow * (Z * bool)) :=
  let count := wrap32 (fst l + 1) in
  size <- lift readUI32BE ;;
  type <- lift readUI32BE ;;
  if size <? 8 then ret (Stop, (count, false))
  else
    nextAtomPos <- gets (fun p => wrap32 (getPos p + size - 8)) ;;
    found <- (if type =? 0x7472616B then parseTrak fuel (wrap32 (size - 8))
              else ret false) ;;
    if found : bool then ret (Stop, (count, true))
    else
      exec (seek nextAtomPos) ;;;
      ret (Next, (count, false)).

Definition moov_loop (fuel : nat) (endPos : Z) : M (nat * (Z * bool)) :=
  while fuel (moov_cond endPos) (moov_body fuel) (0, false).

Definition parseMoov (fuel : nat) (atomSize : Z) : M bool :=
  startPos <- gets getPos ;;
  let endPos := wrap32 (startPos + atomSize) in
  r <- moov_loop fuel endPos ;;
  ret (snd (snd r)).

(** ** open *)

(** Locals of the top-level scan: [pos], [moovFound], [atomCount]. *)
Definition scan_cond (fileSize : Z) (l : Z * bool * Z) (p : MP4Parser) : bool :=
  let '(pos, _, atomCount) := l in
  (pos <? fileSize) && (atomCount <? 1000).

Definition scan_body (fuel : nat) (fileSize : Z) (l : Z * bool * Z)
  : M (flow * (Z * bool * Z)) :=
  let '(pos, moovFound, atomCount) := l in
  exec (seek pos) ;;;
  atomSize <- lift readUI32BE ;;
  atomType <- lift readUI32BE ;;
  let atomCount := wrap32 (atomCount + 1) in
  if atomSize =? 0 then ret (Stop, (pos, moovFound, atomCount))
  else
    atomSize <-
      (if atomSize =? 1 then
         exec (seek (pos + 8)) ;;;
         high <- lift readUI32BE ;;
         low <- lift readUI32BE ;;
         ret low
       else ret atomSize) ;;
    if atomSize <? 8 then ret (Stop, (pos, moovFound, atomCount))
    else
      moovFound <-
        (if atomType =? 0x6D6F6F76 then
           parseMoov fuel (wrap32 (atomSize - 8)) ;;; ret true
         else if atomType =? 0x6D646174 then
           exec (set_mdatOffset (wrap32 (pos + 8))) ;;; ret moovFound
         else ret moovFound) ;;
      let pos := wrap32 (pos + atomSize) in
      if fileSize <? pos then ret (Stop, (pos, moovFound, atomCount))
      else ret (Next, (pos, moovFound, atomCount)).

Definition scan_atoms (fuel : nat) (fileSize : Z) : M (nat * (Z * bool * Z)) :=
  while fuel (scan_cond fileSize) (scan_body fuel fileSize) (0, false, 0).

(** [found] is what opening [filename] on the selected device gave: the
    bytes of the file, or [None] when the handle is invalid. *)
Definition open (fuel : nat) (found : option (list Z)) (isFlash : bool) : M bool :=
  exec (set_usingFlash isFlash) ;;;
  match found with
  | None => exec (fun p => set_fpos 0 (set_fdata [] p)) ;;; ret false
  | Some bytes =>
      exec (fun p => set_fpos 0 (set_fdata bytes p)) ;;;
      exec (fun p => set_mdatOffset 0 (set_stscOffset 0 (set_stcoOffset 0
                       (set_stszOffset 0 p)))) ;;;
      exec (fun p => set_samplesReadInChunk 0 (set_currentChunk 1
                       (set_currentSample 0 p))) ;;;
      let fileSize := wrap32 (Z.of_nat (length bytes)) in
      r <- scan_atoms fuel fileSize ;;
      let moovFound := snd (fst (snd r)) in
      ok <- gets (fun p => moovFound && negb (stszOffset p =? 0)
                           && negb (stcoOffset p =? 0) && negb (stscOffset p =? 0)) ;;
      if ok : bool then
        exec (fun p => seek (stscOffset p + 12) p) ;;;
        exec (fun p => seek (stscOffset p + 16) p) ;;;
        exec (set_currentChunk 1) ;;;
        firstChunk <- lift readUI32BE ;;
        samples <- lift readUI32BE ;;
        exec (set_samplesInCurrentChunk samples) ;;;
        exec (fun p => seek (stcoOffset p + 16) p) ;;;
        offset <- lift readUI32BE ;;
        exec (set_currentOffset offset) ;;;
        ret true
      else ret false
  end.

(** ** readNextFrame *)

(** The [for] loop over the entries of the sample-to-chunk table, [n]
    entries still to visit. *)
Fixpoint stsc_scan (n : nat) (p : MP4Parser) : MP4Parser :=
  match n with
  | O => p
  | S n' =>
      let '(firstChunk, p) := readUI32BE p in
      let '(samplesPer, p) := readUI32BE p in
      let '(_, p) := readUI32BE p in
      if currentChunk p <? firstChunk then p
      else stsc_scan n' (set_samplesInCurrentChunk samplesPer p)
  end.

(** The body of [if (samplesReadInChunk >= samplesInCurrentChunk)]. *)
Definition next_chunk (p : MP4Parser) : MP4Parser :=
  let p := set_currentChunk (wrap32 (currentChunk p + 1)) p in
  let p := set_samplesReadInChunk 0 p in
  let p := seek (stcoOffset p + 16 + wrap32 ((currentChunk p - 1) * 4)) p in
  let '(offset, p) := readUI32BE p in
  let p := set_currentOffset offset p in
  let p := seek (stscOffset p + 12) p in
  let '(entryCount, p) := readUI32BE p in
  stsc_scan (Z.to_nat entryCount) p.

(** Step 3 of [readNextFrame] ("Read Frame"): seek to the frame, write the
    header into bytes 0..6 of the caller's array, read the payload behind
    it, advance the cursor and return the byte count. *)
Definition read_frame (buffer : list Z) (frameSize : Z) (p : MP4Parser)
  : Z * list Z * MP4Parser :=
  let p := seek (currentOffset p) p in
  let buffer := generateAdtsHeader buffer (to_int (frameSize + 7)) 2
                  (to_int (sampleRate p)) (channels p) in
  let '(payload, p) := read frameSize p in
  let buffer := write_at 7 payload buffer in
  let p := set_currentOffset (wrap32 (currentOffset p + frameSize)) p in
  let p := set_currentSample (wrap32 (currentSample p + 1)) p in
  let p := set_samplesReadInChunk (wrap32 (samplesReadInChunk p + 1)) p in
  (wrap32 (frameSize + 7), buffer, p).

(** [buffer] is the caller's array and [bufferSize] the size the caller
    announces (a [size_t], 32 bits wide on this target).  The result is
    the returned byte count, the array afterwards and the parser
    afterwards. *)
Definition readNextFrame (buffer : list Z) (bufferSize : Z) (p : MP4Parser)
  : Z * list Z * MP4Parser :=
  if stszOffset p =? 0 then (0, buffer, p)
  else
    let p := seek (stszOffset p + 12) p in
    let '(defaultSize, p) := readUI32BE p in
    let '(count, p) := readUI32BE p in
    if count <=? currentSample p then (0, buffer, p)
    else
      let '(frameSize, p) :=
        if defaultSize =? 0 then
          readUI32BE (seek (stszOffset p + 20 + wrap32 (currentSample p * 4)) p)
        else (defaultSize, p) in
      if bufferSize <? wrap32 (frameSize + 7) then (0, buffer, p)
      else
        let p := if samplesInCurrentChunk p <=? samplesReadInChunk p
                 then next_chunk p else p in
        read_frame buffer frameSize p.

End Parser.

(* ===================================================================== *)
(** * What a call reads, and the tables as the specification words them  *)
(* ===================================================================== *)

Section Observations.

Variable stale : Z -> Z.

(** The 32-bit word the parser gets when it seeks to [off] and reads: the
    word at [off] when the seek is accepted, the one at the handle's
    position when it is refused. *)
Definition peek32 (p : MP4Parser) (off : Z) : Z :=
  fst (readUI32BE stale (seek off p)).

(** The two header words of the sample-size table as [readNextFrame]
    reads them: one seek, two reads in a row. *)
Definition stsz_defaultSize (p : MP4Parser) : Z :=
  fst (readUI32BE stale (seek (stszOffset p + 12) p)).

Definition stsz_count (p : MP4Parser) : Z :=
  fst (readUI32BE stale (snd (readUI32BE stale (seek (stszOffset p + 12) p)))).

(** The size stage of [readNextFrame]: the two header words are read,
    and with a shared size of 0 the entry of the current sample is
    fetched from where the handle then stands.  The result is the frame
    size and the parser as it is when the size check is made. *)
Definition size_stage (p : MP4Parser) : Z * MP4Parser :=
  let p1 := seek (stszOffset p + 12) p in
  let p3 := snd (readUI32BE stale (snd (readUI32BE stale p1))) in
  if stsz_defaultSize p =? 0
  then readUI32BE stale (seek (stszOffset p + 20 + wrap32 (currentSample p * 4)) p3)
  else (stsz_defaultSize p, p3).

(** The size of the frame the next call is about, and the parser once
    the size is known. *)
Definition next_frameSize (p : MP4Parser) : Z := fst (size_stage p).

Definition after_size (p : MP4Parser) : MP4Parser := snd (size_stage p).

(** The call gets past its three early [return 0]s. *)
Definition guards_pass (bufferSize : Z) (p : MP4Parser) : bool :=
  negb (stszOffset p =? 0) && (currentSample p <? stsz_count p)
  && (wrap32 (next_frameSize p + 7) <=? bufferSize).

(** The runs (first chunk, samples per chunk) that [n] rounds of the [for]
    loop of [readNextFrame] read, starting from the handle's position. *)
Fixpoint stsc_entries (n : nat) (p : MP4Parser) : list (Z * Z) :=
  match n with
  | O => []
  | S n' =>
      let '(firstChunk, p) := readUI32BE stale p in
      let '(samplesPer, p) := readUI32BE stale p in
      let '(_, p) := readUI32BE stale p in
      (firstChunk, samplesPer) :: stsc_entries n' p
  end.

(** The sample-to-chunk table of the open file: the entry count at
    [stscOffset + 12], then that many runs. *)
Definition stsc_table (p : MP4Parser) : list (Z * Z) :=
  let '(entryCount, q) := readUI32BE stale (seek (stscOffset p + 12) p) in
  stsc_entries (Z.to_nat entryCount) q.

End Observations.

(** The specification's choice of run: the last one whose first chunk is
    at most [chunk]; its samples-per-chunk. *)
Definition last_run_le (runs : list (Z * Z)) (chunk : Z) : option Z :=
  last (map snd (filter (fun e => fst e <= chunk) runs)).

(** The runs the early [break] of the scan lets through: those before the
    first run that starts behind [chunk]. *)
Fixpoint runs_before_break (runs : list (Z * Z)) (chunk : Z) : list (Z * Z) :=
  match runs with
  | [] => []
  | e :: rest => if chunk <? fst e then [] else e :: runs_before_break rest chunk
  end.

(** A run-length table lists its runs by ascending first chunk. *)
Definition ascending (runs : list (Z * Z)) : Prop :=
  forall i j a b, (i < j)%nat -> runs !! i = Some a -> runs !! j = Some b ->
                  fst a <= fst b.

(** The big-endian word stored in the file at [off], when the file has
    all four bytes. *)
Definition file_u32 (bytes : list Z) (off : Z) : option Z :=
  match take 4 (drop (Z.to_nat off) bytes) with
  | [b0; b1; b2; b3] =>
      if 0 <=? off then Some (be_word (u8 b0) (u8 b1) (u8 b2) (u8 b3)) else None
  | _ => None
  end.

(** [n] calls of [readNextFrame] in a row with the same array and size;
    the parser after the last of them. *)
Fixpoint after_frames (stale : Z -> Z) (n : nat) (buffer : list Z) (bufferSize : Z)
    (p : MP4Parser) : MP4Parser :=
  match n with
  | O => p
  | S n' => snd (readNextFrame stale buffer bufferSize
                   (after_frames stale n' buffer bufferSize p))
  end.

(* ===================================================================== *)
(** * Sample inputs                                                       *)
(* ===================================================================== *)

(** A four-sample ring, as [clear()] leaves it. *)
Definition ring4 : RingBuffer.t :=
  RingBuffer.clear (RingBuffer.mk (Some [0; 0; 0; 0]) 0 0).

Definition be32 (v : Z) : list Z :=
  [Z.shiftr v 24 mod 256; Z.shiftr v 16 mod 256; Z.shiftr v 8 mod 256; v mod 256].

(** A box: 4-byte size, 4-byte type, payload. *)
Definition box (type : Z) (payload : list Z) : list Z :=
  be32 (8 + Z.of_nat (length payload)) ++ be32 type ++ payload.

(** Sample description: one 'mp4a' entry, 2 channels, 44100 Hz (16.16). *)
Definition sample_stsd : list Z :=
  box 0x73747364
    (be32 0 ++ be32 1 ++ be32 36 ++ be32 0x6D703461 ++
     [0; 0; 0; 0; 0; 0; 0; 1] ++ [0; 0; 0; 0; 0; 0; 0; 0] ++
     [0; 2; 0; 16] ++ [0; 0; 0; 0] ++ [0xAC; 0x44; 0; 0]).

(** Sample table: shared frame size 10, 6 samples; chunk offsets [offsets];
    one run (first chunk 1, 2 samples per chunk). *)
Definition sample_stbl (offsets : list Z) : list Z :=
  box 0x7374626C
    (sample_stsd ++
     box 0x7374737A (be32 0 ++ be32 10 ++ be32 6) ++
     box 0x7374636F (be32 0 ++ be32 (Z.of_nat (length offsets)) ++ concat (map be32 offsets)) ++
     box 0x73747363 (be32 0 ++ be32 1 ++ be32 1 ++ be32 2 ++ be32 1)).

Definition sample_hdlr (subtype : Z) : list Z :=
  box 0x68646C72 (be32 0 ++ be32 0 ++ be32 subtype ++ replicate 13 0).

(** 'ftyp', 'mdat' with 60 payload bytes (100, 101, ...) from offset 24,
    and 'moov' with a single track of handler type [subtype]. *)
Definition sample_file (subtype : Z) (offsets : list Z) : list Z :=
  box 0x66747970 (replicate 8 0) ++
  box 0x6D646174 (map Z.of_nat (seq 100 60)) ++
  box 0x6D6F6F76
    (box 0x7472616B
       (box 0x6D646961
          (sample_hdlr subtype ++ box 0x6D696E66 (sample_stbl offsets)))).

(** One audio track ('soun'), three chunks of two 10-byte frames. *)
Definition audio_file : list Z := sample_file 0x736F756E [24; 44; 64].

(** The same container with a video handler ('vide') as its only track. *)
Definition video_file : list Z := sample_file 0x76696465 [24; 44; 64].

(** An audio file whose first chunk starts 5 bytes before the end of the
    file (the file has 285 bytes): its frames are cut short. *)
Definition truncated_file : list Z := sample_file 0x736F756E [280; 300; 320].

(** A sample table like [sample_stbl] whose sample-to-chunk table lists
    the runs [runs] (first chunk, samples per chunk). *)
Definition sample_stbl_runs (offsets : list Z) (runs : list (Z * Z)) : list Z :=
  box 0x7374626C
    (sample_stsd ++
     box 0x7374737A (be32 0 ++ be32 10 ++ be32 6) ++
     box 0x7374636F (be32 0 ++ be32 (Z.of_nat (length offsets)) ++ concat (map be32 offsets)) ++
     box 0x73747363
       (be32 0 ++ be32 (Z.of_nat (length runs)) ++
        concat (map (fun e => be32 (fst e) ++ be32 (snd e) ++ be32 1) runs))).

(** An audio file whose sample-to-chunk table is not in ascending order
    of first chunk: the runs (1, 2), (5, 3), (2, 7). *)
Definition unsorted_file : list Z :=
  box 0x66747970 (replicate 8 0) ++
  box 0x6D646174 (map Z.of_nat (seq 100 60)) ++
  box 0x6D6F6F76
    (box 0x7472616B
       (box 0x6D646961
          (sample_hdlr 0x736F756E ++
           box 0x6D696E66 (sample_stbl_runs [24; 44; 64] [(1, 2); (5, 3); (2, 7)])))).

(** Bytes a short read leaves undelivered read as 0 in the sample runs. *)
Definition no_stale : Z -> Z := fun _ => 0.

(** The parser after a successful [open] of a sample file. *)
Definition opened (bytes : list Z) : MP4Parser :=
  match open no_stale 1001 (Some bytes) false MP4Parser_new with
  | Some (_, p) => p
  | None => MP4Parser_new
  end.

(* ===================================================================== *)
(** * Predicates used in the statements below                            *)
(* ===================================================================== *)

(** A computation that never runs out of fuel. *)
Definition total {A} (m : M A) : Prop := forall p, exists r, m p = Some r.

(** ... and whose result satisfies [Q]. *)
Definition yields {A} (m : M A) (Q : A -> Prop) : Prop :=
  forall p, exists a p', m p = Some (a, p') /\ Q a.

(** Whatever a computation returns satisfies [Q]. *)
Definition ensures {A} (m : M A) (Q : A -> Prop) : Prop :=
  forall p a p', m p = Some (a, p') -> Q a.

(** The byte offset the container assigns to sample [i]. *)
Definition frame_offset (offsets : list Z) (S K i : Z) : Z :=
  default 0 (offsets !! Z.to_nat (i / K)) + (i mod K) * S.

(** A track with uniform tables: shared sample size [S], [N]
    samples, one run of [K] samples per chunk from chunk 1 on, chunk
    offsets [offsets], every frame inside the file. *)
Definition uniform_track (d : list Z) (p : MP4Parser) (S N K : Z) (offsets : list Z)
  : Prop :=
  Z.of_nat (length d) < 2 ^ 32 /\
  file_u32 d (stszOffset p + 12) = Some S /\
  file_u32 d (stszOffset p + 16) = Some N /\
  file_u32 d (stscOffset p + 12) = Some 1 /\
  file_u32 d (stscOffset p + 16) = Some 1 /\
  file_u32 d (stscOffset p + 20) = Some K /\
  (forall j O, offsets !! j = Some O ->
               file_u32 d (stcoOffset p + 16 + 4 * Z.of_nat j) = Some O) /\
  1 <= S /\ 1 <= K /\ N <= K * Z.of_nat (length offsets) /\
  (forall i, 0 <= i < N -> frame_offset offsets S K i + S <= Z.of_nat (length d)).

(** [q] reads the same file through the same three tables as [p]. *)
Definition on_track (d : list Z) (p q : MP4Parser) : Prop :=
  fdata q = d /\ stszOffset q = stszOffset p /\
  stcoOffset q = stcoOffset p /\ stscOffset q = stscOffset p.

(** The cursor before the call for sample [i]: [c] whole chunks are
    behind it and [r] samples of the current one. *)
Definition at_sample (d : list Z) (p : MP4Parser) (S K : Z) (offsets : list Z)
    (i : Z) (q : MP4Parser) : Prop :=
  on_track d p q /\ currentSample q = i /\ samplesInCurrentChunk q = K /\
  exists c r, i = c * K + r /\ 0 <= c /\ 0 <= r <= K /\ (r = 0 -> c = 0) /\
    currentChunk q = c + 1 /\ samplesReadInChunk q = r /\
    (forall O, offsets !! Z.to_nat c = Some O -> currentOffset q = O + r * S).

(** A computation keeps [I]. *)
Definition preserves (I : MP4Parser -> Prop) {A} (m : M A) : Prop :=
  forall p a p', I p -> m p = Some (a, p') -> I p'.

(** What the box walk leaves alone: the file and the sample counters. *)
Definition walk_keeps (d : list Z) (q : MP4Parser) : Prop :=
  fdata q = d /\ currentSample q = 0 /\ samplesReadInChunk q = 0.


(* ===================================================================== *)
(** * config.h: a consumer draining the ring                             *)
(* ===================================================================== *)

(** [n] consumer calls in a row: the samples they return, in order, and
    the ring afterwards. *)
Fixpoint pop_n (mask : Z) (n : nat) (rb : RingBuffer.t) : list Z * RingBuffer.t :=
  match n with
  | O => ([], rb)
  | S n' =>
      let '(x, rb1) := RingBuffer.pop mask rb in
      let '(xs, rb2) := pop_n mask n' rb1 in
      (x :: xs, rb2)
  end.

(* ===================================================================== *)
(** * mp4_parser.cpp: reading a synthesized header back                   *)
(* ===================================================================== *)

(** The fields of the seven bytes as an ADTS decoder takes them apart:
    the 2-bit profile (bits 6..7 of byte 2), the 3-bit channel
    configuration (bit 0 of byte 2, bits 6..7 of byte 3) and the 13-bit
    frame length (bits 0..1 of byte 3, byte 4, bits 5..7 of byte 5). *)
Definition header_byte (header : list Z) (i : nat) : Z := default 0 (header !! i).

Definition header_profile (header : list Z) : Z :=
  Z.shiftr (header_byte header 2) 6.

Definition header_channels (header : list Z) : Z :=
  Z.lor (Z.shiftl (Z.land (header_byte header 2) 0x01) 2)
        (Z.shiftr (header_byte header 3) 6).

Definition header_frameLength (header : list Z) : Z :=
  Z.lor (Z.lor (Z.shiftl (Z.land (header_byte header 3) 0x03) 11)
               (Z.shiftl (header_byte header 4) 3))
        (Z.shiftr (header_byte header 5) 5).

(** A parser on a 64-byte file whose sample-size table, at offset 4,
    stores the shared size 2^32 - 1 for its one sample; the cursor
    stands on that sample, inside a chunk that starts at offset 24. *)
Definition oversized_track : MP4Parser :=
  set_currentOffset 24
    (set_samplesInCurrentChunk 1
       (set_stszOffset 4
          (set_fdata (replicate 16 0 ++ [255; 255; 255; 255] ++ [0; 0; 0; 1]
                      ++ replicate 40 7)
             MP4Parser_new))).

(* ===================================================================== *)
(** * serial_commands.cpp: argument parsing                               *)
(* ===================================================================== *)

(** A [char*] into the NUL-terminated command line is the list of the
    characters from the pointer up to the terminator, as character codes.
    The handlers get [cmdBuffer + k], so the pointer is never null and the
    [!ptr] tests of the helpers are never taken. *)

(** [*ptr]: the character under the pointer, the terminator at the end. *)
Definition deref (ptr : list Z) : Z := hd 0 ptr.

(** [strchr(s, c)] for [c <> 0]: the string from the first [c] on. *)
Fixpoint strchr (s : list Z) (c : Z) : option (list Z) :=
  match s with
  | [] => None
  | x :: rest => if x =? c then Some s else strchr rest c
  end.

(** [ptr = comma + 1], or [ptr = ptr + strlen(ptr)]. *)
Definition skipToNextArg (ptr : list Z) : bool * list Z :=
  match strchr ptr 44 (* ',' *) with
  | Some comma => (true, drop 1 comma)
  | None => (false, drop (length ptr) ptr)
  end.

(** The characters that end a line or a command for the parsers:
    ['\0'], ['\r'] and ['\n']. *)
Definition at_end (ptr : list Z) : bool :=
  (deref ptr =? 0) || (deref ptr =? 13) || (deref ptr =? 10).

(** A non-empty argument: no comma inside, and not starting with a
    character that ends the line. *)
Definition is_field (f : list Z) : Prop :=
  f <> [] /\ Forall (fun c => c <> 44) f /\ at_end f = false.

Section Commands.

(** [atoi] of the C library. *)
Variable atoi : list Z -> Z.

Definition parseArgInt (ptr : list Z) (defaultValue : Z) : Z * list Z :=
  if at_end ptr then (defaultValue, ptr)
  else if deref ptr =? 44 (* ',' *) then (defaultValue, ptr)
  else
    let val := atoi ptr in
    let '(_, ptr) := skipToNextArg ptr in
    (val, ptr).

Definition parseArgChar (ptr : list Z) (defaultValue : Z) : Z * list Z :=
  if at_end ptr || (deref ptr =? 44) then (defaultValue, ptr)
  else
    let c := deref ptr in
    let '(_, ptr) := skipToNextArg ptr in
    (c, ptr).

(** [handleChirp]: the four arguments handed to
    [playChirp(int, int, int, uint8_t)]. *)
Definition handleChirp (args : list Z) : Z * Z * Z * Z :=
  let ptr := args in
  let '(start, ptr) := parseArgInt ptr 0 in
  let '(end_, ptr) := parseArgInt ptr 0 in
  let '(ms, ptr) := parseArgInt ptr 0 in
  let '(vol, ptr) := parseArgInt ptr 128 in
  (start, end_, ms, u8 vol).

(** [handlePlay] up to [int volume = parseArgInt(ptr, -1)]: [None] is the
    early return with "ERR:PARAM", otherwise index, bank, page and
    volume. *)
Definition handlePlay_args (args : list Z) : option (Z * Z * Z * Z) :=
  let ptr := args in
  if at_end ptr then None
  else
    let '(index, ptr) := parseArgInt ptr 0 in
    let '(bank, ptr) := parseArgInt ptr 1 in
    let '(page, ptr) :=
      if negb (at_end ptr) then
        if deref ptr =? 44 (* ',' *) then (65 (* 'A' *), drop 1 ptr)
        else
          let c := deref ptr in
          let c := if (97 <=? c) && (c <=? 122) then c - 32 else c in
          let page := if ((65 <=? c) && (c <=? 90)) || (c =? 48) then c else 65 in
          (page, snd (skipToNextArg ptr))
      else (65, ptr) in
    let '(volume, ptr) := parseArgInt ptr (-1) in
    Some (index, bank, page, volume).

End Commands.

(** ** getNextAvailableStream *)

(** The [for] loop over the streams, [todo] rounds to go from index [i];
    [active] holds the [active] flags of the array [streams]. *)
Fixpoint stream_scan (active : list bool) (i : Z) (todo : nat) : Z :=
  match todo with
  | O => 0
  | S todo' =>
      if negb (default true (active !! Z.to_nat i)) then i
      else stream_scan active (i + 1) todo'
  end.

(** [streams] is [None] for the null pointer. *)
Definition getNextAvailableStream (streams : option (list bool)) (maxStreams : Z) : Z :=
  match streams with
  | Some active => stream_scan active 0 (Z.to_nat maxStreams)
  | None => 0
  end.

(** ** handlePlay: the variant to play *)

(** [rnd] is what [random(sound.variantCount)] returned; [%] on [int] is
    [Z.rem]. *)
Definition handlePlay_variant (variantCount lastVariantPlayed rnd : Z) : Z :=
  if variantCount =? 1 then 0
  else
    let variantIdx := rnd in
    if variantIdx =? lastVariantPlayed
    then Z.rem (variantIdx + 1) variantCount
    else variantIdx.

(** A sound played once per draw; [sound.lastVariantPlayed = variantIdx]
    after each. *)
Fixpoint variants_played (variantCount lastVariantPlayed : Z) (draws : list Z) : list Z :=
  match draws with
  | [] => []
  | rnd :: rest =>
      let variantIdx := handlePlay_variant variantCount lastVariantPlayed rnd in
      variantIdx :: variants_played variantCount variantIdx rest
  end.

(** ** processSerialCommands: assembling a line *)

(** The characters of the C string stored in an array: those before the
    first NUL. *)
Fixpoint cstr (a : list Z) : list Z :=
  match a with
  | [] => []
  | c :: rest => if c =? 0 then [] else c :: cstr rest
  end.

(** The static pair [cmdBuffer], [cmdPos] of one port. *)
Record CmdLine := mkCmdLine { cmdBuffer : list Z; cmdPos : Z }.

Section SerialLoop.

(** [checkAndHandleMp3Command(serial, c)] lives in a part of the sketch
    outside these files.  It gets the first byte and the stream, so it can
    take further pending bytes; it answers whether it handled the byte,
    and what is still pending. *)
Variable checkAndHandleMp3Command : Z -> list Z -> bool * list Z.

(** One call, with [pending] the bytes the port has for it.  The result
    is the static pair afterwards and the command lines handed to the
    dispatch chain, oldest first.  [None]: out of fuel. *)
Fixpoint processSerialCommands (fuel : nat) (pending : list Z) (st : CmdLine)
    (lines : list (list Z)) : option (CmdLine * list (list Z)) :=
  match fuel with
  | O => None
  | S fuel' =>
      match pending with
      | [] => Some (st, lines)
      | c :: pending =>
          let '(handled, pending) :=
            if cmdPos st =? 0 then checkAndHandleMp3Command c pending
            else (false, pending) in
          if handled then processSerialCommands fuel' pending st lines
          else if (c =? 10) || (c =? 13) then
            if 0 <? cmdPos st then
              let buf := <[Z.to_nat (cmdPos st) := 0]> (cmdBuffer st) in
              processSerialCommands fuel' pending (mkCmdLine buf 0) (lines ++ [cstr buf])
            else processSerialCommands fuel' pending st lines
          else if cmdPos st <? 128 - 1 then
            processSerialCommands fuel' pending
              (mkCmdLine (<[Z.to_nat (cmdPos st) := c]> (cmdBuffer st)) (cmdPos st + 1))
              lines
          else processSerialCommands fuel' pending st lines
      end
  end.

(** The compatibility layer takes bytes from the port, it does not add
    any. *)
Definition only_consumes : Prop :=
  forall c pending,
    (length (snd (checkAndHandleMp3Command c pending)) <= length pending)%nat.

End SerialLoop.

(** A stand-in for [atoi] on unsigned decimal numbers, for the examples
    below: the value of the leading digits. *)
Fixpoint digits_value (acc : Z) (s : list Z) : Z :=
  match s with
  | c :: rest =>
      if (48 <=? c) && (c <=? 57) then digits_value (acc * 10 + (c - 48)) rest else acc
  | [] => acc
  end.

Definition sample_atoi (s : list Z) : Z := digits_value 0 s.

(* ===================================================================== *)
(** * file_management.cpp                                                 *)
(* ===================================================================== *)

(** [s[i]] on a C string: the terminator behind its last character. *)
Definition char_at (s : list Z) (i : nat) : Z := default 0 (s !! i).

(** What [openNext] on the root directory hands out: whether the entry is
    a directory, the name [getName] gives, and, for a directory, what
    listing it gives in turn (whether an entry is a directory, and its
    name; nothing when it cannot be opened). *)
Record DirEntry := mkDirEntry {
  isDirectory : bool;
  entryName : list Z;
  entryFiles : list (bool * list Z)
}.

(** ** scanValidBank1Pages *)

(** The pattern "1[A-Z]_". *)
Definition bank1_page_dir (dirName : list Z) : bool :=
  (3 <=? Z.of_nat (length dirName)) && (char_at dirName 0 =? 49 (* '1' *))
  && (65 <=? char_at dirName 1) && (char_at dirName 1 <=? 90)
  && (char_at dirName 2 =? 95 (* '_' *)).

(** One round of the directory loop on [validBank1Pages] and
    [validBank1PageCount]. *)
Definition page_scan_entry (st : list Z * Z) (e : DirEntry) : list Z * Z :=
  let '(validBank1Pages, validBank1PageCount) := st in
  if isDirectory e && bank1_page_dir (entryName e) then
    let page := char_at (entryName e) 1 in
    match strchr (cstr validBank1Pages) page with
    | Some _ => st
    | None =>
        let pages := <[Z.to_nat validBank1PageCount := page]> validBank1Pages in
        let count := validBank1PageCount + 1 in
        (<[Z.to_nat count := 0]> pages, count)
    end
  else st.

(** The inner [for] of the bubble sort, [todo] rounds to go from [j]. *)
Fixpoint bubble_pass (a : list Z) (j : nat) (todo : nat) : list Z :=
  match todo with
  | O => a
  | S todo' =>
      let a :=
        if char_at a (S j) <? char_at a j
        then <[S j := char_at a j]> (<[j := char_at a (S j)]> a)
        else a in
      bubble_pass a (S j) todo'
  end.

(** The outer [for], [todo] rounds to go from [i]. *)
Fixpoint bubble_sort_from (a : list Z) (count : Z) (i : nat) (todo : nat) : list Z :=
  match todo with
  | O => a
  | S todo' =>
      bubble_sort_from (bubble_pass a 0 (Z.to_nat (count - Z.of_nat i - 1)))
        count (S i) todo'
  end.

Definition bubble_sort (a : list Z) (count : Z) : list Z :=
  bubble_sort_from a count 0 (Z.to_nat (count - 1)).

(** [root] is [None] when the root directory cannot be opened; [pages0]
    is the array [validBank1Pages] as the call finds it.  The result is
    the array and [validBank1PageCount]. *)
Definition scanValidBank1Pages (root : option (list DirEntry)) (pages0 : list Z)
  : list Z * Z :=
  let pages := <[0%nat := 0]> pages0 in
  match root with
  | None => (pages, 0)
  | Some entries =>
      let '(pages, count) := fold_left page_scan_entry entries (pages, 0) in
      let pages := bubble_sort pages count in
      if count =? 0
      then (<[1%nat := 0]> (<[0%nat := 65]> pages), 1)
      else (pages, count)
  end.

(** One pass of the bubble sort as a function on lists: [x] is carried
    towards the end, past the elements smaller than it. *)
Fixpoint carry (x : Z) (l : list Z) : list Z :=
  match l with
  | [] => [x]
  | y :: r => if y <? x then y :: carry x r else x :: carry y r
  end.

Fixpoint nondecreasing (l : list Z) : Prop :=
  match l with
  | [] => True
  | x :: r => Forall (fun y => x <= y) r /\ nondecreasing r
  end.

(** The directories of a listing that name a page of bank 1, and the
    state of the directory loop after the entries [seen]. *)
Definition names_page (e : DirEntry) (c : Z) : Prop :=
  isDirectory e = true /\ bank1_page_dir (entryName e) = true /\
  char_at (entryName e) 1 = c.

Definition page_inv (seen : list DirEntry) (st : list Z * Z) : Prop :=
  length (fst st) = 27%nat /\
  exists ps rest,
    fst st = ps ++ 0 :: rest /\ Z.of_nat (length ps) = snd st /\ NoDup ps /\
    forall c, c ∈ ps <-> exists e, e ∈ seen /\ names_page e c.

(** ** scanSDBanks, findSDBank, getSDFile *)

Definition MAX_SD_BANKS : Z := 20.
Definition MAX_FILES_PER_BANK : Z := 100.

(** [files] holds the [fileCount] names stored so far. *)
Record SDBank := mkSDBank {
  bankNum : Z;
  page : Z;
  dirName : list Z;
  files : list (list Z);
  fileCount : Z
}.

Definition tolower (c : Z) : Z := if (65 <=? c) && (c <=? 90) then c + 32 else c.

(** [strcasecmp(a, b) == 0]. *)
Fixpoint strcasecmp_eq (a b : list Z) : bool :=
  match a, b with
  | [], [] => true
  | x :: a', y :: b' => (tolower x =? tolower y) && strcasecmp_eq a' b'
  | _, _ => false
  end.

(** [strrchr(s, c)] for [c <> 0]: the string from the last [c] on. *)
Fixpoint strrchr (s : list Z) (c : Z) : option (list Z) :=
  match s with
  | [] => None
  | x :: rest =>
      match strrchr rest c with
      | Some t => Some t
      | None => if x =? c then Some s else None
      end
  end.

(** The extension test of [scanSDBanks]: ".wav", ".mp3", ".aac", ".m4a". *)
Definition sd_audio_ext (filename : list Z) : bool :=
  match strrchr filename 46 (* '.' *) with
  | Some ext =>
      strcasecmp_eq ext [46; 119; 97; 118] || strcasecmp_eq ext [46; 109; 112; 51]
      || strcasecmp_eq ext [46; 97; 97; 99] || strcasecmp_eq ext [46; 109; 52; 97]
  | None => false
  end.

(** One round of the file loop of a bank directory on the bank's
    [files]. *)
Definition bank_file_entry (fs : list (list Z)) (f : bool * list Z) : list (list Z) :=
  let '(isDir, filename) := f in
  if negb isDir && (Z.of_nat (length fs) <? MAX_FILES_PER_BANK) then
    if sd_audio_ext filename then fs ++ [take 63 filename] else fs
  else fs.

(** One round of the root loop on the filled part of [sdBanks]. *)
Definition bank_scan_entry (sdBanks : list SDBank) (e : DirEntry) : list SDBank :=
  let dirName := entryName e in
  if isDirectory e && (2 <=? Z.of_nat (length dirName))
     && (50 <=? char_at dirName 0) && (char_at dirName 0 <=? 54) then
    let bankNum := u8 (char_at dirName 0 - 48) in
    let paged := (3 <=? Z.of_nat (length dirName))
                 && (65 <=? char_at dirName 1) && (char_at dirName 1 <=? 90)
                 && (char_at dirName 2 =? 95) in
    if negb paged && negb (char_at dirName 1 =? 95) then sdBanks
    else
      let page := if paged then char_at dirName 1 else 0 in
      if Z.of_nat (length sdBanks) <? MAX_SD_BANKS then
        let fs := fold_left bank_file_entry (entryFiles e) [] in
        sdBanks ++ [mkSDBank bankNum page (take 31 dirName) fs (Z.of_nat (length fs))]
      else sdBanks
  else sdBanks.

Definition scanSDBanks (root : option (list DirEntry)) : list SDBank :=
  match root with
  | None => []
  | Some entries => fold_left bank_scan_entry entries []
  end.

Fixpoint findSDBank (sdBanks : list SDBank) (bank page_ : Z) : option SDBank :=
  match sdBanks with
  | [] => None
  | b :: rest =>
      if (bankNum b =? bank) && (page b =? page_) then Some b
      else findSDBank rest bank page_
  end.

Definition getSDFile (sdBanks : list SDBank) (bank page_ index : Z)
  : option (list Z) :=
  match findSDBank sdBanks bank page_ with
  | None => None
  | Some sdBank =>
      if (index <? 1) || (fileCount sdBank <? index) then None
      else files sdBank !! Z.to_nat (index - 1)
  end.

(** A stored file name comes from a plain file of the directory listing
    [all] that has one of the four extensions. *)
Definition from_listing (all : list (bool * list Z)) (f : list Z) : Prop :=
  exists filename,
    (false, filename) ∈ all /\ sd_audio_ext filename = true /\ f = take 63 filename.

(** A bank entry as [scanSDBanks] builds it from the root listing. *)
Definition bank_from (entries : list DirEntry) (b : SDBank) : Prop :=
  2 <= bankNum b <= 6 /\ (page b = 0 \/ 65 <= page b <= 90) /\
  fileCount b = Z.of_nat (length (files b)) /\ fileCount b <= 100 /\
  exists e, e ∈ entries /\ isDirectory e = true /\
            char_at (entryName e) 0 = bankNum b + 48 /\
            Forall (from_listing (entryFiles e)) (files b).

(** ** syncBank1ToFlash: copying one file *)

Section Copy.

(** The devices: call number [k] of [sdFile.read] delivers at most
    [sd_limit k] bytes, or fails when that is negative; call number [k]
    of [flashFile.write] takes at most [flash_limit k] bytes. *)
Variables sd_limit flash_limit : nat -> Z.

(** The [while (remaining > 0 && copySuccess)] loop.  [data] and [pos]
    are the file on the card and its handle, [flash] is what has been
    written.  The result is [copySuccess] and the flash file. *)
Fixpoint copy_loop (fuel : nat) (k : nat) (data : list Z) (pos : Z) (remaining : Z)
    (flash : list Z) : option (bool * list Z) :=
  match fuel with
  | O => None
  | S fuel' =>
      if 0 <? remaining then
        let toRead := if 512 <? remaining then 512 else remaining in
        let chunk :=
          if sd_limit k <? 0 then []
          else take (Z.to_nat (Z.min toRead (sd_limit k))) (drop (Z.to_nat pos) data) in
        let bytesRead := if sd_limit k <? 0 then -1 else Z.of_nat (length chunk) in
        if bytesRead <=? 0 then Some (false, flash)
        else
          let bytesWritten := Z.max 0 (Z.min bytesRead (flash_limit k)) in
          let flash := flash ++ take (Z.to_nat bytesWritten) chunk in
          if negb (bytesWritten =? bytesRead) then Some (false, flash)
          else copy_loop fuel' (S k) data (pos + bytesRead)
                 (wrap32 (remaining - bytesRead)) flash
      else Some (true, flash)
  end.

(** [sdFile.rewind()], a fresh flash file, [remaining = sdSize]. *)
Definition copy_file (fuel : nat) (data : list Z) : option (bool * list Z) :=
  copy_loop fuel 0 data 0 (wrap32 (Z.of_nat (length data))) [].

End Copy.

(** ** playVoiceNumber, playBaudFeedback *)

(** The numbers whose files "%04d.wav" are requested. *)
Definition playVoiceNumber (number : Z) : list Z :=
  if number <? 0 then []
  else [if 100 <? number then 100 else number].

Definition playBaudFeedback (rate : Z) : list Z :=
  let hundreds := Z.quot rate 100 in
  if 100 <? hundreds then
    let p1 := Z.quot hundreds 100 in
    let p2 := Z.rem hundreds 100 in
    playVoiceNumber p1 ++ playVoiceNumber p2
  else playVoiceNumber hundreds.
(* ===================================================================== *)
(** * Facts about the ring buffer                                         *)
(* ===================================================================== *)

Section RingFacts.

Import RingBuffer.

Variables (N mask : Z).
Hypothesis Hcap : capacity_ok N mask.

Local Abbreviation availableForRead := (availableForRead N mask).
Local Abbreviation availableForWrite := (availableForWrite N mask).
Local Abbreviation push := (push mask).
Local Abbreviation pop := (pop mask).
Local Abbreviation run := (run mask).
Local Abbreviation push_all := (push_all mask).
Local Abbreviation wf := (wf N).
Local Abbreviation full := (full mask).
Local Abbreviation contents := (contents N mask).

Lemma capacity_pos : 1 <= N.
Proof using Hcap.
  destruct Hcap as [(k & Hk & ->) _].
  assert (0 < 2 ^ k) by (apply Z.pow_pos_nonneg; lia). lia.
Qed.

(** Masking with [streamBufferMask] is reduction modulo the capacity. *)
Lemma land_mask (x : Z) : Z.land x mask = x mod N.
Proof using Hcap.
  destruct Hcap as [(k & Hk & HN) Hm].
  rewrite Hm, HN, Z.sub_1_r, <- Z.ones_equiv.
  apply Z.land_ones. lia.
Qed.

Lemma mod_once (x : Z) :
  0 <= x < 2 * N -> x mod N = if x <? N then x else x - N.
Proof using Hcap.
  intros Hx. pose proof capacity_pos as HN.
  destruct (Z.ltb_spec x N).
  - apply Z.mod_small. lia.
  - symmetry. apply Z.mod_unique with (q := 1); lia.
Qed.

Lemma level_cases (rb : t) :
  0 <= readPos rb < N -> 0 <= writePos rb < N ->
  Z.land (writePos rb - readPos rb + N) mask =
    if readPos rb <=? writePos rb then writePos rb - readPos rb
    else writePos rb - readPos rb + N.
Proof using Hcap.
  intros Hr Hw. rewrite land_mask, mod_once by lia.
  destruct (Z.ltb_spec (writePos rb - readPos rb + N) N),
           (Z.leb_spec (readPos rb) (writePos rb)); lia.
Qed.

Lemma next_cases (x : Z) :
  0 <= x < N -> Z.land (x + 1) mask = if x + 1 <? N then x + 1 else 0.
Proof using Hcap.
  intros Hx. rewrite land_mask, mod_once by lia.
  destruct (Z.ltb_spec (x + 1) N); lia.
Qed.

(** Every [int] the four operations compute stays inside the range of a
    32-bit [int], so carrying the positions in [Z] loses nothing. *)
Lemma positions_fit_int (rb : t) :
  wf rb ->
  0 <= writePos rb + 1 < 2 ^ 31 /\ 0 <= readPos rb + 1 < 2 ^ 31 /\
  0 <= writePos rb - readPos rb + N < 2 ^ 31.
Proof using Hcap.
  intros (_ & Hr & Hw).
  destruct Hcap as [(k & Hk & HN) _].
  assert (N <= 2 ^ 30) by (rewrite HN; apply Z.pow_le_mono_r; lia).
  lia.
Qed.

Lemma next_range (x : Z) : 0 <= x < N -> 0 <= Z.land (x + 1) mask < N.
Proof using Hcap.
  intros Hx. rewrite next_cases by lia. destruct (Z.ltb_spec (x + 1) N); lia.
Qed.

Lemma wf_push (s : Z) (rb : t) : wf rb -> wf (snd (push s rb)).
Proof using Hcap.
  intros Hwf. pose proof Hwf as ((b & Hb & Hlen) & Hr & Hw).
  unfold RingBuffer.push. rewrite Hb.
  destruct (Z.eqb_spec (Z.land (writePos rb + 1) mask) (readPos rb)); simpl.
  - exact Hwf.
  - split; [| split]; simpl.
    + eexists. split; [reflexivity |]. now rewrite length_insert.
    + exact Hr.
    + now apply next_range.
Qed.

Lemma wf_pop (rb : t) : wf rb -> wf (snd (pop rb)).
Proof using Hcap.
  intros ((b & Hb & Hlen) & Hr & Hw).
  unfold RingBuffer.pop. rewrite Hb. simpl.
  split; [| split]; simpl.
  - eexists. split; [reflexivity | assumption].
  - now apply next_range.
  - exact Hw.
Qed.

Lemma wf_run (ops : list op) (rb : t) : wf rb -> wf (run ops rb).
Proof using Hcap.
  revert rb. induction ops as [| o ops IH]; intros rb Hwf; simpl.
  - exact Hwf.
  - apply IH. destruct o; simpl; [apply wf_push | apply wf_pop]; exact Hwf.
Qed.

(** A push that is accepted stores the sample and raises the level by one. *)
Lemma push_accepted (s : Z) (rb : t) :
  wf rb -> availableForRead rb < N - 1 ->
  exists rb', push s rb = (true, rb') /\ wf rb' /\
    readPos rb' = readPos rb /\
    availableForRead rb' = availableForRead rb + 1.
Proof using Hcap.
  intros Hwf Hlvl. pose proof (wf_push s rb Hwf) as Hwf'.
  destruct Hwf as ((b & Hb & Hlen) & Hr & Hw).
  revert Hlvl Hwf'. unfold RingBuffer.availableForRead, RingBuffer.push.
  rewrite Hb, level_cases by lia.
  intros Hlvl Hwf'.
  pose proof (next_cases (writePos rb) Hw) as Hn.
  pose proof (next_range (writePos rb) Hw) as Hnr.
  destruct (Z.eqb_spec (Z.land (writePos rb + 1) mask) (readPos rb)) as [E | E].
  - exfalso. destruct (Z.ltb_spec (writePos rb + 1) N),
                      (Z.leb_spec (readPos rb) (writePos rb)); lia.
  - eexists. split; [reflexivity |]. split; [exact Hwf' |]. split; [reflexivity |].
    cbn [buffer readPos writePos].
    set (w' := Z.land (writePos rb + 1) mask) in *.
    rewrite land_mask, mod_once by lia.
    destruct (Z.ltb_spec (writePos rb + 1) N),
             (Z.leb_spec (readPos rb) (writePos rb)),
             (Z.ltb_spec (w' - readPos rb + N) N); lia.
Qed.

Lemma full_iff_level (rb : t) :
  wf rb -> full rb <-> availableForRead rb = N - 1.
Proof using Hcap.
  intros ((b & Hb & Hlen) & Hr & Hw).
  unfold RingBuffer.full, RingBuffer.availableForRead.
  rewrite Hb, level_cases, next_cases by lia.
  destruct (Z.ltb_spec (writePos rb + 1) N),
           (Z.leb_spec (readPos rb) (writePos rb)); lia.
Qed.

Lemma push_all_accepted (samples : list Z) (rb : t) :
  wf rb -> availableForRead rb + Z.of_nat (length samples) <= N - 1 ->
  exists rb', push_all samples rb = (replicate (length samples) true, rb') /\
    wf rb' /\
    availableForRead rb' = availableForRead rb + Z.of_nat (length samples).
Proof using Hcap.
  revert rb. induction samples as [| s rest IH]; intros rb Hwf Hroom.
  - exists rb. simpl. split; [reflexivity |]. split; [exact Hwf | lia].
  - simpl in Hroom.
    destruct (push_accepted s rb Hwf) as (rb1 & Hp & Hwf1 & _ & Hl1); [lia |].
    destruct (IH rb1 Hwf1) as (rb2 & Hall & Hwf2 & Hl2); [lia |].
    exists rb2. cbn [RingBuffer.push_all length replicate].
    rewrite Hp, Hall. split; [reflexivity |]. split; [exact Hwf2 | lia].
Qed.

Lemma empty_iff_level (rb : t) :
  wf rb -> availableForRead rb = 0 <-> readPos rb = writePos rb.
Proof using Hcap.
  intros ((b & Hb & Hlen) & Hr & Hw).
  unfold RingBuffer.availableForRead. rewrite Hb, level_cases by lia.
  destruct (Z.leb_spec (readPos rb) (writePos rb)); lia.
Qed.

(** [clear()] empties the ring whatever it held. *)
Lemma clear_empties (rb : t) :
  buffer rb <> None ->
  availableForRead (clear rb) = 0 /\ availableForWrite (clear rb) = N - 1.
Proof using Hcap.
  intros Hb. pose proof capacity_pos as HN.
  unfold RingBuffer.availableForRead, RingBuffer.availableForWrite, clear.
  cbn [buffer readPos writePos]. destruct (buffer rb); [| congruence].
  rewrite land_mask. replace (0 - 0 + N) with (0 + 1 * N) by lia.
  rewrite Z.mod_add, Z.mod_0_l by lia. lia.
Qed.

(** C5: for a ring of capacity [N] (a power of two) with an allocated
    array, after every sequence of [push] and [pop] calls
    [availableForRead() + availableForWrite() = N - 1]. *)
Theorem ring_available_sum (ops : list op) (rb : t) :
  wf rb ->
  availableForRead (run ops rb) + availableForWrite (run ops rb) = N - 1.
Proof using Hcap.
  intros Hwf.
  destruct (wf_run ops rb Hwf) as ((b & Hb & _) & _ & _).
  unfold RingBuffer.availableForRead, RingBuffer.availableForWrite.
  rewrite Hb. lia.
Qed.

(** C6: on a full ring [push] returns false and changes nothing (the
    state is returned as it was: array, [readPos], [writePos], and so
    [availableForRead()]); and [N - 1] pushes into an empty ring are all
    accepted and leave it full, so the next push is such a rejected one. *)
Theorem ring_push_on_full (rb : t) (samples : list Z) (s : Z) :
  wf rb ->
  (full rb -> push s rb = (false, rb)) /\
  (availableForRead rb = 0 -> Z.of_nat (length samples) = N - 1 ->
   exists rb',
     push_all samples rb = (replicate (length samples) true, rb') /\
     full rb' /\
     push s rb' = (false, rb') /\
     availableForRead (snd (push s rb')) = availableForRead rb').
Proof using Hcap.
  intros Hwf.
  assert (Hrej : forall q, wf q -> full q -> push s q = (false, q)).
  { intros q ((b & Hb & _) & _ & _) Hfull.
    unfold RingBuffer.push, RingBuffer.full in *. rewrite Hb, Hfull.
    now rewrite Z.eqb_refl. }
  split; [now apply Hrej |].
  intros Hempty Hlen.
  destruct (push_all_accepted samples rb Hwf) as (rb' & Hall & Hwf' & Hlvl); [lia |].
  exists rb'. split; [exact Hall |].
  assert (Hfull : full rb') by (apply full_iff_level; [exact Hwf' | lia]).
  split; [exact Hfull |].
  rewrite (Hrej rb' Hwf' Hfull). split; reflexivity.
Qed.

Lemma slot_cases (r j : Z) :
  0 <= r < N -> 0 <= j < N ->
  Z.land (r + j) mask = if r + j <? N then r + j else r + j - N.
Proof using Hcap.
  intros Hr Hj. rewrite land_mask. apply mod_once. lia.
Qed.

(** An accepted push, spelled out. *)
Lemma push_true_inv (v : Z) (rb rb' : t) :
  wf rb -> push v rb = (true, rb') ->
  exists b, buffer rb = Some b /\
    rb' = {| buffer := Some (<[Z.to_nat (writePos rb) := v]> b);
             readPos := readPos rb;
             writePos := Z.land (writePos rb + 1) mask |} /\
    availableForRead rb < N - 1 /\
    availableForRead rb' = availableForRead rb + 1.
Proof using Hcap.
  intros Hwf Hpush. pose proof Hwf as ((b & Hb & Hlen) & Hr & Hw).
  exists b. split; [exact Hb |].
  assert (Hlvl : availableForRead rb < N - 1).
  { destruct (Z.lt_ge_cases (availableForRead rb) (N - 1)) as [H | H]; [exact H |].
    exfalso.
    assert (Hfull : full rb).
    { apply (full_iff_level rb Hwf).
      unfold RingBuffer.availableForRead in *. rewrite Hb in *.
      rewrite (level_cases rb Hr Hw) in *.
      destruct (Z.leb_spec (readPos rb) (writePos rb)); lia. }
    unfold RingBuffer.push, full in *. rewrite Hb, Hfull, Z.eqb_refl in Hpush.
    discriminate. }
  destruct (push_accepted v rb Hwf Hlvl) as (rb2 & Hp2 & _ & _ & Hl2).
  rewrite Hpush in Hp2. injection Hp2 as <-.
  split; [| split; [exact Hlvl | exact Hl2]].
  unfold RingBuffer.push in Hpush. rewrite Hb in Hpush.
  destruct (_ =? _); [discriminate |]. now injection Hpush as <-.
Qed.

(** An accepted push appends the sample to the queue. *)
Lemma contents_push (v : Z) (rb rb' : t) :
  wf rb -> push v rb = (true, rb') -> contents rb' = contents rb ++ [v].
Proof using Hcap.
  intros Hwf Hpush. pose proof Hwf as ((b & Hb & Hlen) & Hr & Hw).
  destruct (push_true_inv v rb rb' Hwf Hpush) as (b0 & Hb0 & Hrb' & Hlvl & Hlvl').
  rewrite Hb in Hb0. injection Hb0 as <-.
  subst rb'. unfold RingBuffer.contents.
  rewrite Hlvl', Hb. cbn [buffer readPos].
  assert (Hl0 : 0 <= availableForRead rb).
  { unfold RingBuffer.availableForRead. rewrite Hb, (level_cases rb Hr Hw).
    destruct (Z.leb_spec (readPos rb) (writePos rb)); lia. }
  replace (Z.to_nat (availableForRead rb + 1)) with (Z.to_nat (availableForRead rb) + 1)%nat
    by lia.
  rewrite seq_app, map_app. cbn [seq map Nat.add]. f_equal.
  - apply map_ext_in. intros j Hj. apply in_seq in Hj.
    rewrite list_lookup_insert_ne; [reflexivity |].
    assert (Hjl : 0 <= Z.of_nat j < availableForRead rb) by lia.
    revert Hjl. unfold RingBuffer.availableForRead.
    rewrite Hb, (level_cases rb Hr Hw). intros Hjl.
    destruct (Z.leb_spec (readPos rb) (writePos rb));
      (rewrite slot_cases by lia);
      destruct (Z.ltb_spec (readPos rb + Z.of_nat j) N); lia.
  - f_equal.
    replace (Z.land (readPos rb + Z.of_nat (Z.to_nat (availableForRead rb))) mask)
      with (writePos rb).
    + rewrite list_lookup_insert_eq by lia. reflexivity.
    + replace (Z.of_nat (Z.to_nat (availableForRead rb))) with (availableForRead rb)
        by lia.
      revert Hlvl Hl0. unfold RingBuffer.availableForRead.
      rewrite Hb, (level_cases rb Hr Hw). intros Hlvl Hl0.
      destruct (Z.leb_spec (readPos rb) (writePos rb));
        (rewrite slot_cases by lia);
        match goal with |- context [?a <? N] => destruct (Z.ltb_spec a N) end; lia.
Qed.

(** A pop from a ring that holds samples hands out the oldest one and
    leaves the rest. *)
Lemma contents_pop (rb : t) :
  wf rb -> 0 < availableForRead rb ->
  contents rb = fst (pop rb) :: contents (snd (pop rb)).
Proof using Hcap.
  intros Hwf Hlvl. pose proof Hwf as ((b & Hb & Hlen) & Hr & Hw).
  pose proof (next_range (readPos rb) Hr) as Hr'.
  pose proof (next_cases (readPos rb) Hr) as Hrc.
  unfold RingBuffer.contents, RingBuffer.pop.
  fold (availableForRead rb). rewrite Hb. cbn [fst snd buffer readPos].
  set (rb' := {| buffer := Some b; readPos := Z.land (readPos rb + 1) mask;
                 writePos := writePos rb |}).
  assert (Hl' : availableForRead rb' = availableForRead rb - 1).
  { revert Hlvl. unfold RingBuffer.availableForRead. rewrite Hb. subst rb'.
    cbn [buffer readPos writePos].
    rewrite (level_cases rb Hr Hw).
    set (r' := Z.land (readPos rb + 1) mask) in *. intros Hlvl.
    rewrite land_mask, mod_once by lia.
    destruct (Z.ltb_spec (readPos rb + 1) N),
             (Z.leb_spec (readPos rb) (writePos rb)),
             (Z.ltb_spec (writePos rb - r' + N) N); lia. }
  rewrite Hl'.
  replace (Z.to_nat (availableForRead rb)) with (S (Z.to_nat (availableForRead rb - 1)))
    by lia.
  cbn [seq map]. f_equal.
  - replace (readPos rb + Z.of_nat 0) with (readPos rb) by lia.
    rewrite land_mask, Z.mod_small by lia. reflexivity.
  - rewrite <- seq_shift, map_map. apply map_ext_in. intros j Hj. apply in_seq in Hj.
    do 3 f_equal.
    assert (Hjl : 0 <= Z.of_nat j < N).
    { revert Hlvl Hj. unfold RingBuffer.availableForRead.
      rewrite Hb, (level_cases rb Hr Hw).
      destruct (Z.leb_spec (readPos rb) (writePos rb)); lia. }
    subst rb'. cbn [readPos].
    set (r' := Z.land (readPos rb + 1) mask) in *.
    rewrite !land_mask.
    destruct (Z.ltb_spec (readPos rb + 1) N).
    + replace r' with (readPos rb + 1) by lia. f_equal. lia.
    + replace r' with 0 by lia. assert (readPos rb = N - 1) by lia.
      replace (readPos rb + Z.of_nat (S j)) with (Z.of_nat j + 1 * N) by lia.
      rewrite Z.mod_add by lia. reflexivity.
Qed.

(** C7 (amended): after any sequence of [push]/[pop] calls, a [pop] that
    directly follows an accepted [push] returns the oldest sample of the
    queue, the pushed sample being its newest (FIFO order); so it returns
    the sample just pushed when the ring was empty before the push. *)
Theorem ring_pop_after_push (ops : list op) (rb0 rb' : t) (v : Z) :
  wf rb0 ->
  push v (run ops rb0) = (true, rb') ->
  head (contents (run ops rb0) ++ [v]) = Some (fst (pop rb')) /\
  (availableForRead (run ops rb0) = 0 -> fst (pop rb') = v).
Proof using Hcap.
  intros Hwf0 Hpush.
  pose proof (wf_run ops rb0 Hwf0) as Hwf.
  set (rb := run ops rb0) in *.
  pose proof (contents_push v rb rb' Hwf Hpush) as Hc.
  destruct (push_true_inv v rb rb' Hwf Hpush) as (b & Hb & _ & _ & Hlvl').
  assert (Hwf' : wf rb').
  { replace rb' with (snd (push v rb)) by now rewrite Hpush. now apply wf_push. }
  assert (Hl0 : 0 <= availableForRead rb).
  { destruct Hwf as (_ & Hr & Hw). unfold RingBuffer.availableForRead.
    rewrite Hb, (level_cases rb Hr Hw).
    destruct (Z.leb_spec (readPos rb) (writePos rb)); lia. }
  pose proof (contents_pop rb' Hwf' ltac:(lia)) as Hp.
  assert (Hhead : head (contents rb ++ [v]) = Some (fst (pop rb'))).
  { rewrite <- Hc, Hp. reflexivity. }
  split; [exact Hhead |].
  intros Hempty. unfold RingBuffer.contents in Hhead.
  fold (availableForRead rb) in Hhead. rewrite Hb, Hempty in Hhead.
  change (Z.to_nat 0) with 0%nat in Hhead. cbn in Hhead. congruence.
Qed.

(** C10: [pop] has no emptiness check.  On an allocated ring it returns
    the array element at [readPos] and advances [readPos] by one modulo
    the capacity, whatever the level; popping an empty ring therefore
    hands out whatever the array holds there and leaves
    [availableForRead() = N - 1]. *)
Theorem ring_pop_unchecked (rb : t) :
  wf rb ->
  (exists b, buffer rb = Some b /\
     pop rb = (default 0 (b !! Z.to_nat (readPos rb)),
               {| buffer := Some b;
                  readPos := (readPos rb + 1) mod N;
                  writePos := writePos rb |})) /\
  (availableForRead rb = 0 -> availableForRead (snd (pop rb)) = N - 1).
Proof using Hcap.
  intros Hwf. pose proof Hwf as ((b & Hb & Hlen) & Hr & Hw).
  assert (Hpop : pop rb = (default 0 (b !! Z.to_nat (readPos rb)),
               {| buffer := Some b;
                  readPos := (readPos rb + 1) mod N;
                  writePos := writePos rb |})).
  { unfold RingBuffer.pop. now rewrite Hb, land_mask. }
  split; [exists b; split; [exact Hb | exact Hpop] |].
  intros Hempty. apply (empty_iff_level rb Hwf) in Hempty.
  rewrite Hpop. unfold RingBuffer.availableForRead. cbn [snd buffer readPos writePos].
  rewrite <- land_mask.
  pose proof (next_cases (readPos rb) Hr) as Hn.
  pose proof (next_range (readPos rb) Hr) as Hnr.
  set (r' := Z.land (readPos rb + 1) mask) in *.
  rewrite land_mask, mod_once by lia.
  destruct (Z.ltb_spec (readPos rb + 1) N),
           (Z.ltb_spec (writePos rb - r' + N) N); lia.
Qed.

End RingFacts.

Lemma ring4_capacity : RingBuffer.capacity_ok 4 3.
Proof. split; [exists 2; lia | reflexivity]. Qed.

Lemma ring4_wf : RingBuffer.wf 4 ring4.
Proof.
  split; [| simpl; lia].
  exists [0; 0; 0; 0]. split; reflexivity.
Qed.

Lemma ring_available_sum_witness :
  RingBuffer.availableForRead 4 3
    (RingBuffer.run 3 [RingBuffer.Push 5; RingBuffer.Push 6; RingBuffer.Pop] ring4) +
  RingBuffer.availableForWrite 4 3
    (RingBuffer.run 3 [RingBuffer.Push 5; RingBuffer.Push 6; RingBuffer.Pop] ring4) = 4 - 1.
Proof.
  apply (ring_available_sum 4 3 ring4_capacity
           [RingBuffer.Push 5; RingBuffer.Push 6; RingBuffer.Pop] ring4 ring4_wf).
Defined.

Lemma ring_push_on_full_witness :
  exists rb',
    RingBuffer.push_all 3 [1; 2; 3] ring4 = ([true; true; true], rb') /\
    RingBuffer.full 3 rb' /\
    RingBuffer.push 3 4 rb' = (false, rb') /\
    RingBuffer.availableForRead 4 3 (snd (RingBuffer.push 3 4 rb')) =
    RingBuffer.availableForRead 4 3 rb'.
Proof.
  apply (proj2 (ring_push_on_full 4 3 ring4_capacity ring4 [1; 2; 3] 4 ring4_wf));
    reflexivity.
Defined.

(** C7 as stated fails: with one sample already queued, the [pop] after an
    accepted [push 2] returns the older sample 1. *)
Lemma ring_pop_after_push_counterexample :
  exists rb',
    RingBuffer.push 3 2 (RingBuffer.run 3 [RingBuffer.Push 1] ring4) = (true, rb') /\
    fst (RingBuffer.pop 3 rb') = 1 /\
    fst (RingBuffer.pop 3 rb') <> 2.
Proof.
  eexists. split; [reflexivity |]. split; [reflexivity | discriminate].
Qed.

Lemma ring_pop_after_push_witness :
  fst (RingBuffer.pop 3
         (snd (RingBuffer.push 3 7
                 (RingBuffer.run 3 [RingBuffer.Push 1; RingBuffer.Pop] ring4)))) = 7.
Proof.
  apply (proj2 (ring_pop_after_push 4 3 ring4_capacity
                  [RingBuffer.Push 1; RingBuffer.Pop] ring4 _ 7 ring4_wf eq_refl)).
  reflexivity.
Defined.

Lemma ring_pop_unchecked_witness :
  RingBuffer.availableForRead 4 3 ring4 = 0 /\
  RingBuffer.availableForRead 4 3 (snd (RingBuffer.pop 3 ring4)) = 4 - 1.
Proof.
  split; [reflexivity |].
  apply (proj2 (ring_pop_unchecked 4 3 ring4_capacity ring4 ring4_wf)). reflexivity.
Defined.

(* ===================================================================== *)
(** * Facts about the header                                              *)
(* ===================================================================== *)

Lemma wrap32_range (z : Z) : 0 <= wrap32 z < 2 ^ 32.
Proof. unfold wrap32. apply Z.mod_pos_bound. lia. Qed.

Lemma wrap32_small (z : Z) : 0 <= z < 2 ^ 32 -> wrap32 z = z.
Proof. intros H. unfold wrap32. now apply Z.mod_small. Qed.

Lemma land_1_cases (z : Z) : Z.land z 1 = 0 \/ Z.land z 1 = 1.
Proof.
  change 1 with (Z.ones 1) at 1 2. rewrite Z.land_ones by lia.
  pose proof (Z.mod_pos_bound z (2 ^ 1)) as H. lia.
Qed.

Lemma freqIdx_of_range (r : Z) : 0 <= freqIdx_of r <= 9.
Proof. unfold freqIdx_of. repeat (destruct (_ <=? _); [lia |]). lia. Qed.

(** Byte 2 of the synthesized header carries the ladder's index. *)
Lemma header_freqIdx_generate (header : list Z) (len profile rate chans : Z) :
  (7 <= length header)%nat ->
  header_freqIdx (generateAdtsHeader header len profile rate chans) = freqIdx_of rate.
Proof.
  intros Hlen. unfold header_freqIdx, generateAdtsHeader.
  rewrite !list_lookup_insert_ne by lia.
  rewrite list_lookup_insert_eq by (rewrite !length_insert; lia).
  cbn [default].
  pose proof (freqIdx_of_range rate) as Hf.
  destruct (land_1_cases (Z.shiftr chans 2)) as [-> | ->];
    assert (Hc : freqIdx_of rate = 0 \/ freqIdx_of rate = 1 \/ freqIdx_of rate = 2 \/
                 freqIdx_of rate = 3 \/ freqIdx_of rate = 4 \/ freqIdx_of rate = 5 \/
                 freqIdx_of rate = 6 \/ freqIdx_of rate = 7 \/ freqIdx_of rate = 8 \/
                 freqIdx_of rate = 9) by lia;
    repeat (destruct Hc as [-> | Hc]; [reflexivity |]); rewrite Hc; reflexivity.
Qed.

(** C3 (amended): the index written into the synthesized header is the
    one the ladder of [generateAdtsHeader] gives: each threshold selects
    its own index (44100 gives 4, 22050 gives 7, ...), and a rate below the
    lowest threshold 12000, such as 8000, keeps the initial value 4. *)
Theorem adts_freq_index (header : list Z) (len profile chans rate : Z) :
  (7 <= length header)%nat ->
  let idx r := header_freqIdx (generateAdtsHeader header len profile r chans) in
  idx 96000 = 0 /\ idx 88200 = 1 /\ idx 64000 = 2 /\ idx 48000 = 3 /\
  idx 44100 = 4 /\ idx 32000 = 5 /\ idx 24000 = 6 /\ idx 22050 = 7 /\
  idx 16000 = 8 /\ idx 12000 = 9 /\ idx 8000 = 4 /\
  (rate < 12000 -> idx rate = 4).
Proof.
  intros Hlen idx. unfold idx.
  rewrite !header_freqIdx_generate by exact Hlen.
  repeat (split; [reflexivity |]).
  intros Hr. unfold freqIdx_of.
  repeat match goal with
         | |- context [?t <=? rate] => destruct (Z.leb_spec t rate); [lia |]
         end.
  reflexivity.
Qed.

Lemma adts_freq_index_witness :
  header_freqIdx (generateAdtsHeader (replicate 7 0) 17 2 44100 2) = 4 /\
  header_freqIdx (generateAdtsHeader (replicate 7 0) 17 2 11025 2) = 4.
Proof.
  pose proof (adts_freq_index (replicate 7 0) 17 2 2 11025) as H.
  cbv zeta in H.
  destruct H as (_ & _ & _ & _ & H44 & _ & _ & _ & _ & _ & _ & Hlow);
    [simpl; lia |].
  split; [exact H44 | apply Hlow; lia].
Defined.

(** C3 as stated fails at 8000 Hz: the header carries index 4, not 9. *)
Lemma adts_freq_index_counterexample :
  header_freqIdx (generateAdtsHeader (replicate 7 0) 17 2 8000 2) = 4 /\
  header_freqIdx (generateAdtsHeader (replicate 7 0) 17 2 8000 2) <> 9.
Proof. split; [reflexivity | discriminate]. Qed.


(* ===================================================================== *)
(** * Facts about the file helpers                                        *)
(* ===================================================================== *)

(** A seek inside the file moves the handle, one behind its end does
    nothing. *)
Lemma seek_in (pos : Z) (p : MP4Parser) :
  wrap32 pos <= Z.of_nat (length (fdata p)) -> seek pos p = set_fpos (wrap32 pos) p.
Proof.
  intros H. unfold seek.
  now destruct (Z.leb_spec (wrap32 pos) (Z.of_nat (length (fdata p)))); [| lia].
Qed.

Lemma seek_out (pos : Z) (p : MP4Parser) :
  Z.of_nat (length (fdata p)) < wrap32 pos -> seek pos p = p.
Proof.
  intros H. unfold seek.
  now destruct (Z.leb_spec (wrap32 pos) (Z.of_nat (length (fdata p)))); [lia |].
Qed.

Lemma set_fpos_fpos (p : MP4Parser) : set_fpos (fpos p) p = p.
Proof. now destruct p. Qed.

Lemma set_fpos_set_fpos (x y : Z) (p : MP4Parser) : set_fpos x (set_fpos y p) = set_fpos x p.
Proof. now destruct p. Qed.

(** Either way only the position of the handle can change. *)
Lemma seek_moves (pos : Z) (p : MP4Parser) : seek pos p = set_fpos (fpos (seek pos p)) p.
Proof. unfold seek. destruct (_ <=? _); [reflexivity | now rewrite set_fpos_fpos]. Qed.

(** Steps that move only the handle compose. *)
Lemma moves_trans (p q r : MP4Parser) :
  q = set_fpos (fpos q) p -> r = set_fpos (fpos r) q -> r = set_fpos (fpos r) p.
Proof.
  intros Hq Hr. transitivity (set_fpos (fpos r) q); [exact Hr |].
  generalize (fpos r). intros x. rewrite Hq. apply set_fpos_set_fpos.
Qed.


Lemma fdata_seek pos p : fdata (seek pos p) = fdata p.
Proof. unfold seek. now destruct (_ <=? _). Qed.
Lemma stszOffset_seek pos p : stszOffset (seek pos p) = stszOffset p.
Proof. unfold seek. now destruct (_ <=? _). Qed.
Lemma stcoOffset_seek pos p : stcoOffset (seek pos p) = stcoOffset p.
Proof. unfold seek. now destruct (_ <=? _). Qed.
Lemma stscOffset_seek pos p : stscOffset (seek pos p) = stscOffset p.
Proof. unfold seek. now destruct (_ <=? _). Qed.
Lemma sampleRate_seek pos p : sampleRate (seek pos p) = sampleRate p.
Proof. unfold seek. now destruct (_ <=? _). Qed.
Lemma channels_seek pos p : channels (seek pos p) = channels p.
Proof. unfold seek. now destruct (_ <=? _). Qed.
Lemma currentSample_seek pos p : currentSample (seek pos p) = currentSample p.
Proof. unfold seek. now destruct (_ <=? _). Qed.
Lemma currentChunk_seek pos p : currentChunk (seek pos p) = currentChunk p.
Proof. unfold seek. now destruct (_ <=? _). Qed.
Lemma samplesInCurrentChunk_seek pos p :
  samplesInCurrentChunk (seek pos p) = samplesInCurrentChunk p.
Proof. unfold seek. now destruct (_ <=? _). Qed.
Lemma samplesReadInChunk_seek pos p :
  samplesReadInChunk (seek pos p) = samplesReadInChunk p.
Proof. unfold seek. now destruct (_ <=? _). Qed.
Lemma currentOffset_seek pos p : currentOffset (seek pos p) = currentOffset p.
Proof. unfold seek. now destruct (_ <=? _). Qed.

(* ===================================================================== *)
(** * Reads inside the file                                               *)
(* ===================================================================== *)

Lemma be_word_range b0 b1 b2 b3 : 0 <= be_word b0 b1 b2 b3 < 2 ^ 32.
Proof. apply wrap32_range. Qed.

Lemma file_u32_bound d off v :
  file_u32 d off = Some v ->
  0 <= off /\ off + 4 <= Z.of_nat (length d) /\ 0 <= v < 2 ^ 32.
Proof.
  unfold file_u32. intros H.
  destruct (take 4 (drop (Z.to_nat off) d)) as [| b0 [| b1 [| b2 [| b3 [| ? ?]]]]] eqn:E;
    try discriminate.
  destruct (Z.leb_spec 0 off); [| discriminate].
  injection H as <-.
  split; [assumption |]. split; [| apply be_word_range].
  apply (f_equal length) in E. rewrite length_take, length_drop in E.
  cbn [length] in E. lia.
Qed.

Lemma file_u32_some (d : list Z) (off : Z) :
  0 <= off -> off + 4 <= Z.of_nat (length d) -> exists v, file_u32 d off = Some v.
Proof.
  intros H0 H1. unfold file_u32.
  assert (Hl : length (take 4 (drop (Z.to_nat off) d)) = 4%nat)
    by (rewrite length_take, length_drop; lia).
  destruct (take 4 (drop (Z.to_nat off) d)) as [| b0 [| b1 [| b2 [| b3 [| ? ?]]]]];
    try discriminate.
  destruct (Z.leb_spec 0 off); [eexists; reflexivity | lia].
Qed.

Section ReadFacts.

Variable stale : Z -> Z.
Local Abbreviation readUI32BE := (readUI32BE stale).
Local Abbreviation peek32 := (peek32 stale).

(** Inside the file a read returns the stored word and advances by 4. *)
Lemma readUI32BE_file p v :
  file_u32 (fdata p) (fpos p) = Some v ->
  readUI32BE p = (v, set_fpos (fpos p + 4) p).
Proof.
  unfold file_u32, readUI32BE, read. intros H.
  change (Z.to_nat 4) with 4%nat.
  destruct (take 4 (drop (Z.to_nat (fpos p)) (fdata p)))
    as [| b0 [| b1 [| b2 [| b3 [| ? ?]]]]] eqn:E; try discriminate.
  destruct (0 <=? fpos p); [| discriminate].
  injection H as <-. reflexivity.
Qed.

(** A seek to a word of the file is accepted, and the read that follows
    returns that word. *)
Lemma seek_read p off v :
  file_u32 (fdata p) (wrap32 off) = Some v ->
  readUI32BE (seek off p) = (v, set_fpos (wrap32 off + 4) p).
Proof.
  intros H. destruct (file_u32_bound _ _ _ H) as (H0 & H1 & _).
  rewrite seek_in by lia.
  rewrite (readUI32BE_file (set_fpos (wrap32 off) p) v) by exact H.
  cbn [fpos set_fpos]. now rewrite set_fpos_set_fpos.
Qed.

Lemma peek32_in p off v :
  file_u32 (fdata p) (wrap32 off) = Some v -> peek32 p off = v.
Proof. intros H. unfold peek32. now rewrite (seek_read p off v H). Qed.

Lemma peek32_file p off v :
  Z.of_nat (length (fdata p)) < 2 ^ 32 ->
  file_u32 (fdata p) off = Some v -> peek32 p off = v.
Proof.
  intros Hlen H. destruct (file_u32_bound _ _ _ H) as (H0 & H1 & _).
  apply peek32_in. rewrite wrap32_small by lia. exact H.
Qed.

(** What a read returns, and where it leaves the handle, depends on the
    file and the position only. *)
Lemma readUI32BE_ext p q :
  fdata p = fdata q -> fpos p = fpos q ->
  fst (readUI32BE p) = fst (readUI32BE q) /\
  fdata (snd (readUI32BE p)) = fdata (snd (readUI32BE q)) /\
  fpos (snd (readUI32BE p)) = fpos (snd (readUI32BE q)).
Proof.
  intros Hd Hp. unfold readUI32BE, read. cbn. rewrite Hd, Hp.
  repeat split.
Qed.

(** The same holds for a seek, accepted or not. *)
Lemma seek_ext off p q :
  fdata p = fdata q -> fpos p = fpos q ->
  fdata (seek off p) = fdata (seek off q) /\ fpos (seek off p) = fpos (seek off q).
Proof.
  intros Hd Hp. unfold seek. rewrite Hd.
  destruct (_ <=? _); cbn [fdata fpos set_fpos]; now split.
Qed.

Lemma peek32_ext off p q :
  fdata p = fdata q -> fpos p = fpos q -> peek32 p off = peek32 q off.
Proof.
  intros Hd Hp. unfold peek32.
  destruct (seek_ext off p q Hd Hp) as (Hd1 & Hp1).
  apply (readUI32BE_ext _ _ Hd1 Hp1).
Qed.

(** An accepted seek forgets where the handle was. *)
Lemma seek_in_ext off p q :
  wrap32 off <= Z.of_nat (length (fdata p)) -> fdata q = fdata p ->
  fdata (seek off q) = fdata (seek off p) /\ fpos (seek off q) = fpos (seek off p).
Proof.
  intros Hin Hd. rewrite (seek_in off p) by exact Hin.
  rewrite (seek_in off q) by (now rewrite Hd). cbn [fdata fpos set_fpos]. now split.
Qed.

End ReadFacts.
(* ===================================================================== *)
(** * Facts about readNextFrame                                           *)
(* ===================================================================== *)

Section FrameFacts.

Variable stale : Z -> Z.

Local Abbreviation readUI32BE := (readUI32BE stale).
Local Abbreviation readNextFrame := (readNextFrame stale).
Local Abbreviation next_chunk := (next_chunk stale).
Local Abbreviation stsc_scan := (stsc_scan stale).
Local Abbreviation peek32 := (peek32 stale).
Local Abbreviation stsz_defaultSize := (stsz_defaultSize stale).
Local Abbreviation stsz_count := (stsz_count stale).
Local Abbreviation size_stage := (size_stage stale).
Local Abbreviation next_frameSize := (next_frameSize stale).
Local Abbreviation after_size := (after_size stale).
Local Abbreviation guards_pass := (guards_pass stale).

Lemma readUI32BE_split p : readUI32BE p = (fst (readUI32BE p), snd (readUI32BE p)).
Proof. apply surjective_pairing. Qed.

(** A read moves the handle and nothing else. *)
Lemma readUI32BE_moves p : snd (readUI32BE p) = set_fpos (fpos (snd (readUI32BE p))) p.
Proof. reflexivity. Qed.

(** So does the size stage. *)
Lemma after_size_moves p : after_size p = set_fpos (fpos (after_size p)) p.
Proof.
  unfold after_size, size_stage.
  set (p1 := seek (stszOffset p + 12) p).
  assert (H1 : p1 = set_fpos (fpos p1) p) by apply seek_moves.
  set (p3 := snd (readUI32BE (snd (readUI32BE p1)))).
  assert (H3 : p3 = set_fpos (fpos p3) p).
  { apply (moves_trans p p1 p3 H1).
    apply (moves_trans p1 (snd (readUI32BE p1)) p3); apply readUI32BE_moves. }
  destruct (_ =? 0); cbn [snd]; [| exact H3].
  set (pe := seek _ p3).
  assert (He : pe = set_fpos (fpos pe) p)
    by (apply (moves_trans p p3 pe H3); apply seek_moves).
  apply (moves_trans p pe _ He). apply readUI32BE_moves.
Qed.

Lemma next_frameSize_range p : 0 <= next_frameSize p < 2 ^ 32.
Proof.
  unfold next_frameSize, size_stage, stsz_defaultSize.
  destruct (_ =? 0); apply wrap32_range.
Qed.

(** The four ways through [readNextFrame]. *)
Lemma readNextFrame_cases buffer bufferSize p :
  (stszOffset p = 0 /\ readNextFrame buffer bufferSize p = (0, buffer, p)) \/
  (stszOffset p <> 0 /\ stsz_count p <= currentSample p /\
   exists x, readNextFrame buffer bufferSize p = (0, buffer, set_fpos x p)) \/
  (stszOffset p <> 0 /\ currentSample p < stsz_count p /\
   bufferSize < wrap32 (next_frameSize p + 7) /\
   exists x, readNextFrame buffer bufferSize p = (0, buffer, set_fpos x p)) \/
  (guards_pass bufferSize p = true /\
   readNextFrame buffer bufferSize p =
     read_frame buffer (next_frameSize p)
       (if samplesInCurrentChunk p <=? samplesReadInChunk p
        then next_chunk (after_size p) else after_size p)).
Proof.
  unfold readNextFrame, guards_pass.
  destruct (Z.eqb_spec (stszOffset p) 0) as [Hz | Hz]; [left; split; [exact Hz | reflexivity] |].
  right.
  pose proof (after_size_moves p) as Hafter.
  unfold next_frameSize, after_size, size_stage, stsz_count,
    stsz_defaultSize in *.
  set (p1 := seek (stszOffset p + 12) p) in *.
  assert (H1 : p1 = set_fpos (fpos p1) p) by apply seek_moves.
  rewrite (readUI32BE_split p1).
  rewrite (readUI32BE_split (snd (readUI32BE p1))).
  set (d := fst (readUI32BE p1)) in *.
  set (p2 := snd (readUI32BE p1)) in *.
  set (c := fst (readUI32BE p2)) in *.
  set (p3 := snd (readUI32BE p2)) in *.
  assert (H3 : p3 = set_fpos (fpos p3) p).
  { apply (moves_trans p p1 p3 H1).
    apply (moves_trans p1 p2 p3); apply readUI32BE_moves. }
  assert (Hcs : currentSample p3 = currentSample p) by (rewrite H3; reflexivity).
  assert (Hso : stszOffset p3 = stszOffset p) by (rewrite H3; reflexivity).
  rewrite Hcs, Hso.
  destruct (Z.leb_spec c (currentSample p)) as [Hc | Hc].
  { left. split; [exact Hz |]. split; [exact Hc |].
    exists (fpos p3). exact (f_equal (fun q => (0, buffer, q)) H3). }
  right.
  set (st := if d =? 0
             then readUI32BE (seek (stszOffset p + 20 + wrap32 (currentSample p * 4)) p3)
             else (d, p3)) in *.
  rewrite (surjective_pairing st).
  assert (Hin : samplesInCurrentChunk (snd st) = samplesInCurrentChunk p)
    by (rewrite Hafter; reflexivity).
  assert (Hrd : samplesReadInChunk (snd st) = samplesReadInChunk p)
    by (rewrite Hafter; reflexivity).
  rewrite Hin, Hrd.
  destruct (Z.ltb_spec bufferSize (wrap32 (fst st + 7))) as [Hb | Hb].
  - left. split; [exact Hz |]. split; [exact Hc |]. split; [exact Hb |].
    exists (fpos (snd st)). exact (f_equal (fun q => (0, buffer, q)) Hafter).
  - right. split; [| reflexivity].
    rewrite !andb_true_iff. repeat split;
      first [now apply negb_true_iff, Z.eqb_neq | now apply Z.ltb_lt | now apply Z.leb_le].
Qed.

Lemma read_frame_fields buffer fs p :
  let p' := snd (read_frame buffer fs p) in
  fst (fst (read_frame buffer fs p)) = wrap32 (fs + 7) /\
  currentChunk p' = currentChunk p /\
  samplesInCurrentChunk p' = samplesInCurrentChunk p /\
  samplesReadInChunk p' = wrap32 (samplesReadInChunk p + 1) /\
  currentOffset p' = wrap32 (currentOffset p + fs) /\
  currentSample p' = wrap32 (currentSample p + 1).
Proof. unfold read_frame, seek. destruct (_ <=? _); repeat split. Qed.

(** C8 (amended): as long as the 32-bit sum [frameSize + 7] does not wrap,
    [readNextFrame] returns 0 exactly when the parser has no sample-size
    table ([stszOffset = 0]), when the current sample number has reached
    the table's stored sample count, or when [frameSize + 7] exceeds
    [bufferSize]; a call that returns 0 leaves the caller's array and the
    playback cursor as they were; and every other call returns
    [frameSize + 7], whatever the reads delivered: no read is checked. *)
Theorem readNextFrame_returns_zero buffer bufferSize p :
  next_frameSize p + 7 < 2 ^ 32 ->
  let r := readNextFrame buffer bufferSize p in
  (fst (fst r) = 0 <->
     stszOffset p = 0 \/ stsz_count p <= currentSample p \/
     bufferSize < next_frameSize p + 7) /\
  (fst (fst r) = 0 -> snd (fst r) = buffer /\ cursor (snd r) = cursor p) /\
  (fst (fst r) <> 0 -> fst (fst r) = next_frameSize p + 7).
Proof.
  intros Hfs r.
  assert (Hnn : 0 <= next_frameSize p) by apply next_frameSize_range.
  assert (Hw : wrap32 (next_frameSize p + 7) = next_frameSize p + 7)
    by (apply wrap32_small; lia).
  subst r.
  destruct (readNextFrame_cases buffer bufferSize p)
    as [(Hz & ->) | [(Hz & Hc & x & ->) | [(Hz & Hc & Hb & x & ->) | (Hg & ->)]]];
    cbn [fst snd].
  - split; [tauto |]. split; [auto | congruence].
  - split; [tauto |]. split; [intros _; split; reflexivity | congruence].
  - rewrite Hw in Hb. split; [tauto |].
    split; [intros _; split; reflexivity | congruence].
  - unfold guards_pass in Hg.
    rewrite !andb_true_iff, negb_true_iff in Hg. destruct Hg as ((Hz & Hc) & Hb).
    apply Z.eqb_neq in Hz. apply Z.ltb_lt in Hc. apply Z.leb_le in Hb.
    rewrite Hw in Hb.
    destruct (read_frame_fields buffer (next_frameSize p)
                (if samplesInCurrentChunk p <=? samplesReadInChunk p
                 then next_chunk (after_size p) else after_size p)) as (Hret & _).
    rewrite Hret, Hw.
    split; [split; [lia | lia] |]. split; [lia | reflexivity].
Qed.

End FrameFacts.

Lemma opened_audio_frame_fits :
  next_frameSize no_stale (opened audio_file) + 7 < 2 ^ 32.
Proof. vm_compute. reflexivity. Qed.

Lemma readNextFrame_returns_zero_witness :
  fst (fst (readNextFrame no_stale (replicate 17 0) 16 (opened audio_file))) = 0 /\
  cursor (snd (readNextFrame no_stale (replicate 17 0) 16 (opened audio_file))) =
  cursor (opened audio_file).
Proof.
  destruct (readNextFrame_returns_zero no_stale (replicate 17 0) 16 (opened audio_file)
              opened_audio_frame_fits) as (Hiff & Hzero & _).
  assert (H0 : fst (fst (readNextFrame no_stale (replicate 17 0) 16
                           (opened audio_file))) = 0).
  { apply Hiff. right. right. vm_compute. reflexivity. }
  split; [exact H0 | apply Hzero, H0].
Defined.

(** C8 as stated fails on a failed read: the first frame of
    [truncated_file] starts 5 bytes before the end of the file, the read of
    the 10-byte frame delivers 5 bytes only, and the call still returns 17. *)
Lemma readNextFrame_read_error_counterexample :
  length (fst (read 10 (seek (currentOffset (opened truncated_file))
                          (opened truncated_file)))) = 5%nat /\
  fst (fst (readNextFrame no_stale (replicate 17 0) 17 (opened truncated_file))) = 17 /\
  fst (fst (readNextFrame no_stale (replicate 17 0) 17 (opened truncated_file))) <> 0.
Proof. vm_compute. repeat split; discriminate. Qed.
(* ===================================================================== *)
(** * Facts about the chunk boundary                                      *)
(* ===================================================================== *)

Lemma last_cons_default {A} (x : A) (l : list A) :
  last (x :: l) = Some (default x (last l)).
Proof.
  revert x. induction l as [| y l IH]; intros x; [reflexivity |].
  change (last (x :: y :: l)) with (last (y :: l)). rewrite IH. reflexivity.
Qed.

Lemma ascending_tail e runs : ascending (e :: runs) -> ascending runs.
Proof.
  intros H i j a b Hij Hi Hj. apply (H (S i) (S j) a b); [lia | exact Hi | exact Hj].
Qed.

Lemma ascending_head e runs b :
  ascending (e :: runs) -> b ∈ runs -> fst e <= fst b.
Proof.
  intros H Hin. apply list_elem_of_lookup in Hin as [j Hj].
  apply (H O (S j) e b); [lia | reflexivity | exact Hj].
Qed.

Lemma filter_none (chunk : Z) (runs : list (Z * Z)) :
  (forall b, b ∈ runs -> chunk < fst b) ->
  filter (fun e => fst e <= chunk) runs = [].
Proof.
  induction runs as [| e rest IH]; intros H; [reflexivity |].
  rewrite filter_cons_False.
  - apply IH. intros b Hb. apply H. now right.
  - pose proof (H e ltac:(left)). lia.
Qed.

(** On a table in ascending order the scan with its early [break] sees
    exactly the runs that start at or before [chunk]. *)
Lemma runs_before_break_filter runs chunk :
  ascending runs ->
  runs_before_break runs chunk = filter (fun e => fst e <= chunk) runs.
Proof.
  induction runs as [| e rest IH]; intros Hasc; [reflexivity |].
  cbn [runs_before_break].
  destruct (Z.ltb_spec chunk (fst e)) as [Hlt | Hge].
  - symmetry. apply filter_none. intros b Hb.
    apply elem_of_cons in Hb as [-> | Hb]; [exact Hlt |].
    pose proof (ascending_head e rest b Hasc Hb). lia.
  - rewrite filter_cons_True by exact Hge. f_equal.
    apply IH. eapply ascending_tail, Hasc.
Qed.

Section ChunkFacts.

Variable stale : Z -> Z.

Local Abbreviation readUI32BE := (readUI32BE stale).
Local Abbreviation readNextFrame := (readNextFrame stale).
Local Abbreviation next_chunk := (next_chunk stale).
Local Abbreviation stsc_scan := (stsc_scan stale).
Local Abbreviation stsc_entries := (stsc_entries stale).
Local Abbreviation stsc_table := (stsc_table stale).
Local Abbreviation peek32 := (peek32 stale).
Local Abbreviation next_frameSize := (next_frameSize stale).
Local Abbreviation after_size := (after_size stale).
Local Abbreviation guards_pass := (guards_pass stale).

(** The runs read depend on the file and the position only. *)
Lemma stsc_entries_ext n p q :
  fdata p = fdata q -> fpos p = fpos q -> stsc_entries n p = stsc_entries n q.
Proof.
  revert p q. induction n as [| n IH]; intros p q Hd Hp; [reflexivity |].
  cbn [stsc_entries].
  destruct (readUI32BE_ext stale p q Hd Hp) as (Hv1 & Hd1 & Hp1).
  rewrite (readUI32BE_split stale p), (readUI32BE_split stale q).
  destruct (readUI32BE_ext stale _ _ Hd1 Hp1) as (Hv2 & Hd2 & Hp2).
  rewrite (readUI32BE_split stale (snd (readUI32BE p))),
          (readUI32BE_split stale (snd (readUI32BE q))).
  destruct (readUI32BE_ext stale _ _ Hd2 Hp2) as (Hv3 & Hd3 & Hp3).
  rewrite (readUI32BE_split stale (snd (readUI32BE (snd (readUI32BE p))))),
          (readUI32BE_split stale (snd (readUI32BE (snd (readUI32BE q))))).
  rewrite Hv1, Hv2. f_equal. apply IH; assumption.
Qed.

(** The scan changes the handle's position and [samplesInCurrentChunk]
    only, and it keeps the samples-per-chunk of the last run it passed. *)
Lemma stsc_scan_spec n p :
  let q := stsc_scan n p in
  q = set_samplesInCurrentChunk (samplesInCurrentChunk q) (set_fpos (fpos q) p) /\
  samplesInCurrentChunk q =
    default (samplesInCurrentChunk p)
      (last (map snd (runs_before_break (stsc_entries n p) (currentChunk p)))).
Proof.
  revert p. induction n as [| n IH]; intros p.
  - split; [destruct p; reflexivity | reflexivity].
  - cbn [stsc_scan stsc_entries].
    rewrite (readUI32BE_split stale p).
    set (p1 := snd (readUI32BE p)).
    rewrite (readUI32BE_split stale p1).
    set (p2 := snd (readUI32BE p1)).
    rewrite (readUI32BE_split stale p2).
    set (p3 := snd (readUI32BE p2)).
    cbn [runs_before_break fst snd].
    change (currentChunk p3) with (currentChunk p).
    destruct (currentChunk p <? fst (readUI32BE p)).
    + split; [destruct p; reflexivity | reflexivity].
    + destruct (IH (set_samplesInCurrentChunk (fst (readUI32BE p1)) p3)) as [Hq Hs].
      split.
      * rewrite Hq at 1. destruct p; reflexivity.
      * rewrite Hs. cbn [map]. rewrite last_cons_default. cbn [default snd].
        rewrite (stsc_entries_ext n
                   (set_samplesInCurrentChunk (fst (readUI32BE p1)) p3) p3)
          by reflexivity.
        reflexivity.
Qed.

Lemma stsc_table_eq p :
  stsc_table p =
  stsc_entries (Z.to_nat (fst (readUI32BE (seek (stscOffset p + 12) p))))
    (snd (readUI32BE (seek (stscOffset p + 12) p))).
Proof.
  unfold stsc_table.
  rewrite (readUI32BE_split stale (seek (stscOffset p + 12) p)) at 1. reflexivity.
Qed.

(** The table read depends on the file, the table's offset and, when the
    seek to it is refused, on the position of the handle. *)
Lemma stsc_table_ext p q :
  fdata p = fdata q -> fpos p = fpos q -> stscOffset p = stscOffset q ->
  stsc_table p = stsc_table q.
Proof.
  intros Hd Hp Ho. rewrite !stsc_table_eq, Ho.
  destruct (seek_ext (stscOffset q + 12) p q Hd Hp) as (Hd1 & Hp1).
  destruct (readUI32BE_ext stale _ _ Hd1 Hp1) as (Hv & Hd2 & Hp2).
  rewrite Hv. now apply stsc_entries_ext.
Qed.

Lemma stsc_table_in_file p q :
  wrap32 (stscOffset p + 12) <= Z.of_nat (length (fdata p)) ->
  fdata q = fdata p -> stscOffset q = stscOffset p ->
  stsc_table q = stsc_table p.
Proof.
  intros Hin Hd Ho. rewrite !stsc_table_eq, Ho.
  destruct (seek_in_ext (stscOffset p + 12) p q Hin Hd) as (Hd1 & Hp1).
  destruct (readUI32BE_ext stale _ _ Hd1 Hp1) as (Hv & Hd2 & Hp2).
  rewrite Hv. now apply stsc_entries_ext.
Qed.

(** A seek does not look at the cursor. *)
Lemma seek_set_currentChunk off v p :
  seek off (set_currentChunk v p) = set_currentChunk v (seek off p).
Proof. unfold seek. cbn [fdata set_currentChunk]. now destruct (_ <=? _). Qed.

Lemma seek_set_samplesReadInChunk off v p :
  seek off (set_samplesReadInChunk v p) = set_samplesReadInChunk v (seek off p).
Proof. unfold seek. cbn [fdata set_samplesReadInChunk]. now destruct (_ <=? _). Qed.

Lemma seek_set_currentOffset off v p :
  seek off (set_currentOffset v p) = set_currentOffset v (seek off p).
Proof. unfold seek. cbn [fdata set_currentOffset]. now destruct (_ <=? _). Qed.

(** The boundary block as one update of the parser: [fetched] is the
    parser when the chunk's offset has been read. *)
Lemma next_chunk_spec p :
  let chunk := wrap32 (currentChunk p + 1) in
  let entry := stcoOffset p + 16 + wrap32 ((chunk - 1) * 4) in
  let fetched := snd (readUI32BE (seek entry p)) in
  let q := next_chunk p in
  q = set_samplesInCurrentChunk
        (default (samplesInCurrentChunk p)
           (last (map snd (runs_before_break (stsc_table fetched) chunk))))
        (set_fpos (fpos q)
           (set_currentOffset (peek32 p entry)
              (set_samplesReadInChunk 0 (set_currentChunk chunk p)))).
Proof.
  intros chunk entry fetched q. subst q. unfold next_chunk.
  set (p1 := set_samplesReadInChunk 0 (set_currentChunk (wrap32 (currentChunk p + 1)) p)).
  change (stcoOffset p1 + 16 + wrap32 ((currentChunk p1 - 1) * 4)) with entry.
  assert (E2 : seek entry p1 =
               set_samplesReadInChunk 0 (set_currentChunk chunk (seek entry p))).
  { subst p1. now rewrite seek_set_samplesReadInChunk, seek_set_currentChunk. }
  rewrite E2. clear E2.
  set (s := seek entry p) in *.
  rewrite (readUI32BE_split stale (set_samplesReadInChunk 0 (set_currentChunk chunk s))).
  set (p3 := set_currentOffset _ _).
  assert (E4 : seek (stscOffset p3 + 12) p3 =
               set_currentOffset (peek32 p entry)
                 (set_samplesReadInChunk 0 (set_currentChunk chunk
                    (seek (stscOffset fetched + 12) fetched)))).
  { subst p3. rewrite seek_set_currentOffset.
    change (set_currentOffset (peek32 p entry)
              (seek (stscOffset fetched + 12)
                 (set_samplesReadInChunk 0 (set_currentChunk chunk fetched))) =
            set_currentOffset (peek32 p entry)
              (set_samplesReadInChunk 0
                 (set_currentChunk chunk (seek (stscOffset fetched + 12) fetched)))).
    now rewrite seek_set_samplesReadInChunk, seek_set_currentChunk. }
  rewrite E4. clear E4.
  set (s4 := seek (stscOffset fetched + 12) fetched).
  rewrite (readUI32BE_split stale (set_currentOffset _ _)).
  match goal with |- stsc_scan ?n ?st = _ =>
    destruct (stsc_scan_spec n st) as [Hq Hs]; rewrite Hq at 1; rewrite Hs end.
  rewrite (stsc_table_eq fetched). fold s4.
  match goal with |- context [stsc_entries ?n ?st] =>
    rewrite (stsc_entries_ext n st (snd (readUI32BE s4))) by reflexivity end.
  pose proof (seek_moves entry p) as Hs1. fold s in Hs1.
  assert (Hf : fetched = set_fpos (fpos fetched) p).
  { apply (moves_trans p s fetched Hs1). apply readUI32BE_moves. }
  assert (H4 : snd (readUI32BE s4) = set_fpos (fpos (snd (readUI32BE s4))) p).
  { apply (moves_trans p fetched _ Hf).
    apply (moves_trans fetched s4 _ (seek_moves _ _)). apply readUI32BE_moves. }
  change (snd (readUI32BE (set_currentOffset (peek32 p entry)
            (set_samplesReadInChunk 0 (set_currentChunk chunk s4)))))
    with (set_currentOffset (peek32 p entry)
            (set_samplesReadInChunk 0 (set_currentChunk chunk (snd (readUI32BE s4))))).
  rewrite H4. destruct p; reflexivity.
Qed.

(** The size stage leaves everything but the handle's position. *)
Lemma after_size_fields p :
  let q := after_size p in
  fdata q = fdata p /\ stszOffset q = stszOffset p /\ stcoOffset q = stcoOffset p /\
  stscOffset q = stscOffset p /\ sampleRate q = sampleRate p /\
  channels q = channels p /\ currentSample q = currentSample p /\
  currentChunk q = currentChunk p /\
  samplesInCurrentChunk q = samplesInCurrentChunk p /\
  samplesReadInChunk q = samplesReadInChunk p /\ currentOffset q = currentOffset p.
Proof.
  intros q. subst q. rewrite (after_size_moves stale p). repeat split.
Qed.

(** A call that gets past its guards reads a frame, behind the boundary
    block when the chunk is used up. *)
Lemma readNextFrame_passed buffer bufferSize p :
  guards_pass bufferSize p = true ->
  readNextFrame buffer bufferSize p =
    read_frame buffer (next_frameSize p)
      (if samplesInCurrentChunk p <=? samplesReadInChunk p
       then next_chunk (after_size p) else after_size p).
Proof.
  intros Hg.
  destruct (readNextFrame_cases stale buffer bufferSize p)
    as [(Hz & _) | [(_ & Hcnt & _) | [(_ & _ & Hb & _) | (_ & ->)]]].
  - unfold guards_pass in Hg. apply Z.eqb_eq in Hz. now rewrite Hz in Hg.
  - unfold guards_pass in Hg.
    rewrite !andb_true_iff in Hg. destruct Hg as ((_ & Hlt) & _).
    apply Z.ltb_lt in Hlt. lia.
  - unfold guards_pass in Hg.
    rewrite !andb_true_iff in Hg. destruct Hg as (_ & Hle).
    apply Z.leb_le in Hle. lia.
  - reflexivity.
Qed.

(** C4 (amended): in every call of [readNextFrame] that gets past its
    guards with the in-chunk counter at (or beyond) the chunk's
    samples-per-chunk, the boundary block moves the cursor to the next chunk
    number and sets the in-chunk counter to zero; it seeks to entry number
    chunk - 1 of the chunk-offset table (4-byte entries from 16 bytes past
    the table's box header) and takes the word it reads as the chunk's byte
    offset, which is the stored entry whenever the entry lies inside the
    file; it then re-scans the sample-to-chunk table from its first entry
    (the table as read at [stscOffset + 12] when that position lies inside
    the file) and keeps the samples-per-chunk of the last run it passes
    before the first run that starts behind the chunk, or the previous
    value when there is none.  On a table whose runs are in ascending order
    of first chunk that is the last run whose first chunk is at most the
    chunk number.  The frame is then read from there, so the call ends with
    the in-chunk counter at 1.  ([sized] is the parser when the frame size
    has been read, [fetched] the parser when the chunk offset has been read:
    they differ from [p] in the position of the handle only.) *)
Theorem chunk_boundary_crossing buffer bufferSize p :
  guards_pass bufferSize p = true ->
  samplesInCurrentChunk p <= samplesReadInChunk p ->
  let chunk := wrap32 (currentChunk p + 1) in
  let entry := stcoOffset p + 16 + wrap32 ((chunk - 1) * 4) in
  let sized := after_size p in
  let fetched := snd (readUI32BE (seek entry sized)) in
  let mid := next_chunk sized in
  let p' := snd (readNextFrame buffer bufferSize p) in
  currentChunk mid = chunk /\
  samplesReadInChunk mid = 0 /\
  currentOffset mid = peek32 sized entry /\
  (forall O, file_u32 (fdata p) (wrap32 entry) = Some O -> currentOffset mid = O) /\
  samplesInCurrentChunk mid =
    default (samplesInCurrentChunk p)
      (last (map snd (runs_before_break (stsc_table fetched) chunk))) /\
  (wrap32 (stscOffset p + 12) <= Z.of_nat (length (fdata p)) ->
   stsc_table fetched = stsc_table p) /\
  (ascending (stsc_table fetched) ->
   forall k, last_run_le (stsc_table fetched) chunk = Some k ->
             samplesInCurrentChunk mid = k) /\
  readNextFrame buffer bufferSize p = read_frame buffer (next_frameSize p) mid /\
  currentChunk p' = chunk /\
  samplesInCurrentChunk p' = samplesInCurrentChunk mid /\
  samplesReadInChunk p' = 1 /\
  currentOffset p' = wrap32 (currentOffset mid + next_frameSize p).
Proof.
  intros Hg Hfull chunk entry sized fetched mid p'.
  destruct (after_size_fields p)
    as (Fd & _ & Fco & Fsc & _ & _ & _ & Fcc & Fin & _ & _).
  fold sized in Fd, Fco, Fsc, Fcc, Fin.
  pose proof (next_chunk_spec sized) as Hmid. cbv zeta in Hmid.
  rewrite Fcc, Fco, Fin in Hmid. fold chunk entry fetched mid in Hmid.
  assert (Hc : currentChunk mid = chunk) by (rewrite Hmid; reflexivity).
  assert (Hr : samplesReadInChunk mid = 0) by (rewrite Hmid; reflexivity).
  assert (Ho : currentOffset mid = peek32 sized entry) by (rewrite Hmid; reflexivity).
  assert (Hs : samplesInCurrentChunk mid =
               default (samplesInCurrentChunk p)
                 (last (map snd (runs_before_break (stsc_table fetched) chunk))))
    by (rewrite Hmid; reflexivity).
  assert (Hcall : readNextFrame buffer bufferSize p =
                  read_frame buffer (next_frameSize p) mid).
  { rewrite (readNextFrame_passed buffer bufferSize p Hg).
    destruct (Z.leb_spec (samplesInCurrentChunk p) (samplesReadInChunk p));
      [reflexivity | lia]. }
  destruct (read_frame_fields buffer (next_frameSize p) mid)
    as (_ & Rc & Ri & Rr & Ro & _).
  cbv zeta in Rc, Ri, Rr, Ro. rewrite <- Hcall in Rc, Ri, Rr, Ro. fold p' in Rc, Ri, Rr, Ro.
  refine (conj Hc (conj Hr (conj Ho (conj _ (conj Hs (conj _ (conj _ (conj Hcall
            (conj _ (conj Ri (conj _ Ro))))))))))).
  - intros O HO. rewrite Ho. apply peek32_in. now rewrite Fd.
  - intros Hin. apply stsc_table_in_file; [exact Hin | | ].
    + subst fetched. cbn [snd readUI32BE read fdata set_fpos].
      now rewrite fdata_seek.
    + subst fetched. cbn [snd readUI32BE read stscOffset set_fpos].
      now rewrite stscOffset_seek.
  - intros Hasc k Hk. rewrite Hs, runs_before_break_filter by exact Hasc.
    unfold last_run_le in Hk. now rewrite Hk.
  - now rewrite Rc.
  - rewrite Rr, Hr. reflexivity.
Qed.

End ChunkFacts.

(** The sample parser after two frames: chunk 1 is used up. *)
Lemma chunk_boundary_crossing_witness :
  let p := after_frames no_stale 2 (replicate 17 0) 17 (opened audio_file) in
  currentChunk (snd (readNextFrame no_stale (replicate 17 0) 17 p)) =
    wrap32 (currentChunk p + 1) /\
  currentOffset (next_chunk no_stale (after_size no_stale p)) = 44 /\
  samplesInCurrentChunk (next_chunk no_stale (after_size no_stale p)) = 2.
Proof.
  intros p.
  assert (Hg : guards_pass no_stale 17 p = true) by (vm_compute; reflexivity).
  assert (Hfull : samplesInCurrentChunk p <= samplesReadInChunk p)
    by (apply Z.leb_le; vm_compute; reflexivity).
  destruct (chunk_boundary_crossing no_stale (replicate 17 0) 17 p Hg Hfull)
    as (_ & _ & _ & Hoff & _ & _ & Hrun & _ & Hchunk & _).
  split; [exact Hchunk |].
  split; [apply Hoff; vm_compute; reflexivity |].
  apply Hrun.
  - match goal with |- ascending ?t =>
      assert (Ht : t = [(1, 2)]) by (vm_compute; reflexivity); rewrite Ht end.
    intros i j a b Hij Hi Hj.
    destruct j as [| j]; [lia |]. simpl in Hj. discriminate.
  - vm_compute. reflexivity.
Defined.

(** C4 as stated fails on a table that is not in ascending order.  The
    sample-to-chunk table of [unsorted_file] lists the runs (1, 2), (5, 3),
    (2, 7).  After two frames chunk 1 is used up and the call crosses to
    chunk 2: the last run whose first chunk is at most 2 is (2, 7), but the
    scan stops at (5, 3) and the call keeps 2 samples per chunk.  The same
    happens two frames later at chunk 3. *)
Lemma chunk_boundary_crossing_counterexample :
  let p := after_frames no_stale 2 (replicate 17 0) 17 (opened unsorted_file) in
  let q := after_frames no_stale 4 (replicate 17 0) 17 (opened unsorted_file) in
  guards_pass no_stale 17 p = true /\
  samplesInCurrentChunk p = 2 /\ samplesReadInChunk p = 2 /\ currentChunk p = 1 /\
  stsc_table no_stale p = [(1, 2); (5, 3); (2, 7)] /\
  last_run_le (stsc_table no_stale p) 2 = Some 7 /\
  fst (fst (readNextFrame no_stale (replicate 17 0) 17 p)) = 17 /\
  currentChunk (snd (readNextFrame no_stale (replicate 17 0) 17 p)) = 2 /\
  samplesInCurrentChunk (snd (readNextFrame no_stale (replicate 17 0) 17 p)) = 2 /\
  guards_pass no_stale 17 q = true /\
  samplesInCurrentChunk q = 2 /\ samplesReadInChunk q = 2 /\ currentChunk q = 2 /\
  last_run_le (stsc_table no_stale q) 3 = Some 7 /\
  currentChunk (snd (readNextFrame no_stale (replicate 17 0) 17 q)) = 3 /\
  samplesInCurrentChunk (snd (readNextFrame no_stale (replicate 17 0) 17 q)) = 2.
Proof. vm_compute. repeat split; reflexivity. Qed.
(* ===================================================================== *)
(** * Facts about the box walk of open                                   *)
(* ===================================================================== *)

(** ** Running the monad *)

Lemma bind_ret {A B} (a : A) (k : A -> M B) p : bind (ret a) k p = k a p.
Proof. reflexivity. Qed.

Lemma bind_lift {A B} (f : MP4Parser -> A * MP4Parser) (k : A -> M B) p :
  bind (lift f) k p = k (fst (f p)) (snd (f p)).
Proof. unfold bind, lift. destruct (f p); reflexivity. Qed.

Lemma bind_gets {A B} (f : MP4Parser -> A) (k : A -> M B) p :
  bind (gets f) k p = k (f p) p.
Proof. reflexivity. Qed.

Lemma bind_exec {B} (f : MP4Parser -> MP4Parser) (k : unit -> M B) p :
  bind (exec f) k p = k tt (f p).
Proof. reflexivity. Qed.

Lemma total_ret {A} (a : A) : total (ret a).
Proof. intros p. eexists. reflexivity. Qed.

Lemma total_lift {A} (f : MP4Parser -> A * MP4Parser) : total (lift f).
Proof. intros p. eexists. reflexivity. Qed.

Lemma total_gets {A} (f : MP4Parser -> A) : total (gets f).
Proof. intros p. eexists. reflexivity. Qed.

Lemma total_exec (f : MP4Parser -> MP4Parser) : total (exec f).
Proof. intros p. eexists. reflexivity. Qed.

Lemma total_bind {A B} (m : M A) (k : A -> M B) :
  total m -> (forall a, total (k a)) -> total (bind m k).
Proof.
  intros Hm Hk p. destruct (Hm p) as [[a p'] E].
  unfold bind. rewrite E. apply Hk.
Qed.

Lemma yields_ret {A} (a : A) (Q : A -> Prop) : Q a -> yields (ret a) Q.
Proof. intros H p. exists a, p. split; [reflexivity | exact H]. Qed.

Lemma yields_bind {A B} (m : M A) (k : A -> M B) (Q : B -> Prop) :
  total m -> (forall a, yields (k a) Q) -> yields (bind m k) Q.
Proof.
  intros Hm Hk p. destruct (Hm p) as [[a p'] E].
  unfold bind. rewrite E. apply Hk.
Qed.

Lemma ensures_ret {A} (a : A) (Q : A -> Prop) : Q a -> ensures (ret a) Q.
Proof. intros H p b p' E. injection E as <- _. exact H. Qed.

Lemma ensures_bind {A B} (m : M A) (k : A -> M B) (Q : B -> Prop) :
  (forall a, ensures (k a) Q) -> ensures (bind m k) Q.
Proof.
  intros Hk p b p' E. unfold bind in E.
  destruct (m p) as [[a q] |]; [| discriminate]. eapply Hk, E.
Qed.

Create HintDb totality.

Ltac total_step :=
  first [ apply total_ret | apply total_lift | apply total_gets | apply total_exec
        | apply total_bind; [| intros ?]
        | match goal with |- total (if ?b then _ else _) => destruct b end
        | solve [eauto with totality] ].

Ltac yields_step :=
  first [ apply yields_ret; reflexivity
        | apply yields_bind; [| intros ?]
        | match goal with |- yields (if ?b then _ else _) _ => destruct b end ].

(** ** Loops with a counter *)

Section WhileFacts.

Context {L : Type}.
Variables (cond : L -> MP4Parser -> bool) (body : L -> M (flow * L)).
Variables (count : L -> Z) (ceiling : Z).

Hypothesis cond_bound : forall l p, cond l p = true -> count l < ceiling.
Hypothesis body_counts :
  forall l, 0 <= count l < ceiling ->
            yields (body l) (fun r => count (snd r) = count l + 1).

(** A loop whose test bounds its counter by [ceiling] and whose body
    raises the counter by one ends within [ceiling - count] rounds. *)
Lemma while_bounded (fuel : nat) (l : L) (p : MP4Parser) :
  0 <= count l <= ceiling ->
  (Z.to_nat (ceiling - count l) < fuel)%nat ->
  exists n l' p', while fuel cond body l p = Some ((n, l'), p') /\
                  Z.of_nat n <= ceiling - count l.
Proof using cond_bound body_counts.
  revert l p. induction fuel as [| fuel IH]; intros l p Hc Hf; [lia |].
  cbn [while]. destruct (cond l p) eqn:Ec.
  - pose proof (cond_bound l p Ec) as Hlt.
    destruct (body_counts l ltac:(lia) p) as ([fl l'] & p' & Eb & Hcount).
    rewrite Eb. cbn [snd] in Hcount. destruct fl.
    + destruct (IH l' p') as (n & lf & pf & Ew & Hn); [lia | lia |].
      rewrite Ew. exists (S n), lf, pf. split; [reflexivity | lia].
    + exists 1%nat, l', p'. split; [reflexivity | lia].
  - exists O, l, p. split; [reflexivity | lia].
Qed.

End WhileFacts.

Section BoxWalkFacts.

Variable stale : Z -> Z.

Local Abbreviation readUI32BE := (readUI32BE stale).
Local Abbreviation stbl_body := (stbl_body stale).
Local Abbreviation stbl_loop := (stbl_loop stale).
Local Abbreviation minf_body := (minf_body stale).
Local Abbreviation minf_loop := (minf_loop stale).
Local Abbreviation mdia_body := (mdia_body stale).
Local Abbreviation mdia_loop := (mdia_loop stale).
Local Abbreviation trak_body := (trak_body stale).
Local Abbreviation trak_loop := (trak_loop stale).
Local Abbreviation parseTrak := (parseTrak stale).
Local Abbreviation moov_body := (moov_body stale).
Local Abbreviation moov_loop := (moov_loop stale).
Local Abbreviation parseMoov := (parseMoov stale).
Local Abbreviation scan_body := (scan_body stale).
Local Abbreviation scan_atoms := (scan_atoms stale).
Local Abbreviation open := (open stale).

Lemma stbl_body_counts c4 :
  yields (stbl_body c4) (fun r => snd r = wrap32 (c4 + 1)).
Proof. unfold stbl_body. cbv zeta. repeat yields_step; repeat total_step. Qed.

Lemma stbl_loop_bounded fuel stblEnd p :
  (100 < fuel)%nat ->
  exists n c p', stbl_loop fuel stblEnd p = Some ((n, c), p') /\ (n <= 100)%nat.
Proof.
  intros Hf.
  destruct (while_bounded (stbl_cond stblEnd) stbl_body (fun c => c) 100) with
    (fuel := fuel) (l := 0) (p := p) as (n & c & p' & E & Hn).
  - intros l q H. unfold stbl_cond in H. apply andb_true_iff in H as [_ H].
    now apply Z.ltb_lt.
  - intros l Hl q. destruct (stbl_body_counts l q) as (r & q' & E & Hr).
    exists r, q'. split; [exact E |]. rewrite Hr. apply wrap32_small. lia.
  - lia.
  - simpl. lia.
  - exists n, c, p'. split; [exact E | lia].
Qed.

Lemma stbl_loop_total fuel stblEnd : (100 < fuel)%nat -> total (stbl_loop fuel stblEnd).
Proof.
  intros Hf p. destruct (stbl_loop_bounded fuel stblEnd p Hf) as (n & c & p' & E & _).
  eauto.
Qed.


Local Hint Extern 1 (_ < _)%nat => lia : totality.
Local Hint Resolve stbl_loop_total : totality.

Lemma minf_body_counts fuel c3 :
  (100 < fuel)%nat ->
  yields (minf_body fuel c3) (fun r => snd r = wrap32 (c3 + 1)).
Proof.
  intros Hf. unfold minf_body. cbv zeta.
  repeat yields_step; repeat total_step.
Qed.

Lemma minf_loop_bounded fuel minfEnd p :
  (100 < fuel)%nat ->
  exists n c p', minf_loop fuel minfEnd p = Some ((n, c), p') /\ (n <= 100)%nat.
Proof.
  intros Hf.
  destruct (while_bounded (minf_cond minfEnd) (minf_body fuel) (fun c => c) 100) with
    (fuel := fuel) (l := 0) (p := p) as (n & c & p' & E & Hn).
  - intros l q H. unfold minf_cond in H. apply andb_true_iff in H as [_ H].
    now apply Z.ltb_lt.
  - intros l Hl q. destruct (minf_body_counts fuel l Hf q) as (r & q' & E & Hr).
    exists r, q'. split; [exact E |]. rewrite Hr. apply wrap32_small. lia.
  - lia.
  - simpl. lia.
  - exists n, c, p'. split; [exact E | lia].
Qed.

Lemma minf_loop_total fuel minfEnd : (100 < fuel)%nat -> total (minf_loop fuel minfEnd).
Proof.
  intros Hf p. destruct (minf_loop_bounded fuel minfEnd p Hf) as (n & c & p' & E & _).
  eauto.
Qed.

Local Hint Resolve minf_loop_total : totality.

Lemma mdia_body_counts fuel l :
  (100 < fuel)%nat ->
  yields (mdia_body fuel l) (fun r => fst (snd r) = wrap32 (fst l + 1)).
Proof.
  intros Hf. unfold mdia_body. cbv zeta.
  repeat yields_step; repeat total_step.
Qed.

Lemma mdia_loop_bounded fuel mdiaEnd isAudio p :
  (100 < fuel)%nat ->
  exists n l p', mdia_loop fuel mdiaEnd isAudio p = Some ((n, l), p') /\ (n <= 100)%nat.
Proof.
  intros Hf.
  destruct (while_bounded (mdia_cond mdiaEnd) (mdia_body fuel) fst 100) with
    (fuel := fuel) (l := (0, isAudio)) (p := p) as (n & c & p' & E & Hn).
  - intros l q H. unfold mdia_cond in H. apply andb_true_iff in H as [_ H].
    now apply Z.ltb_lt.
  - intros l Hl q. destruct (mdia_body_counts fuel l Hf q) as (r & q' & E & Hr).
    exists r, q'. split; [exact E |]. rewrite Hr. apply wrap32_small. lia.
  - simpl. lia.
  - simpl. lia.
  - exists n, c, p'. split; [exact E | simpl in Hn; lia].
Qed.

Lemma mdia_loop_total fuel mdiaEnd isAudio :
  (100 < fuel)%nat -> total (mdia_loop fuel mdiaEnd isAudio).
Proof.
  intros Hf p.
  destruct (mdia_loop_bounded fuel mdiaEnd isAudio p Hf) as (n & c & p' & E & _).
  eauto.
Qed.

Local Hint Resolve mdia_loop_total : totality.

Lemma trak_body_counts fuel l :
  (100 < fuel)%nat ->
  yields (trak_body fuel l) (fun r => fst (snd r) = wrap32 (fst l + 1)).
Proof.
  intros Hf. unfold trak_body. cbv zeta.
  repeat yields_step; repeat total_step.
Qed.

Lemma trak_loop_bounded fuel endPos p :
  (500 < fuel)%nat ->
  exists n l p', trak_loop fuel endPos p = Some ((n, l), p') /\ (n <= 500)%nat.
Proof.
  intros Hf.
  destruct (while_bounded (trak_cond endPos) (trak_body fuel) fst 500) with
    (fuel := fuel) (l := (0, false)) (p := p) as (n & c & p' & E & Hn).
  - intros l q H. unfold trak_cond in H. apply andb_true_iff in H as [_ H].
    now apply Z.ltb_lt.
  - intros l Hl q.
    destruct (trak_body_counts fuel l ltac:(lia) q) as (r & q' & E & Hr).
    exists r, q'. split; [exact E |]. rewrite Hr. apply wrap32_small. lia.
  - simpl. lia.
  - simpl. lia.
  - exists n, c, p'. split; [exact E | simpl in Hn; lia].
Qed.

Lemma trak_loop_total fuel endPos : (500 < fuel)%nat -> total (trak_loop fuel endPos).
Proof.
  intros Hf p. destruct (trak_loop_bounded fuel endPos p Hf) as (n & c & p' & E & _).
  eauto.
Qed.

Local Hint Resolve trak_loop_total : totality.

Lemma parseTrak_total fuel atomSize : (500 < fuel)%nat -> total (parseTrak fuel atomSize).
Proof.
  intros Hf. unfold parseTrak. cbv zeta. repeat total_step.
Qed.

Local Hint Resolve parseTrak_total : totality.

Lemma moov_body_counts fuel l :
  (500 < fuel)%nat ->
  yields (moov_body fuel l) (fun r => fst (snd r) = wrap32 (fst l + 1)).
Proof.
  intros Hf. unfold moov_body. cbv zeta.
  repeat yields_step; repeat total_step.
Qed.

Lemma moov_loop_bounded fuel endPos p :
  (500 < fuel)%nat ->
  exists n l p', moov_loop fuel endPos p = Some ((n, l), p') /\ (n <= 500)%nat.
Proof.
  intros Hf.
  destruct (while_bounded (moov_cond endPos) (moov_body fuel) fst 500) with
    (fuel := fuel) (l := (0, false)) (p := p) as (n & c & p' & E & Hn).
  - intros l q H. unfold moov_cond in H. apply andb_true_iff in H as [_ H].
    now apply Z.ltb_lt.
  - intros l Hl q. destruct (moov_body_counts fuel l Hf q) as (r & q' & E & Hr).
    exists r, q'. split; [exact E |]. rewrite Hr. apply wrap32_small. lia.
  - simpl. lia.
  - simpl. lia.
  - exists n, c, p'. split; [exact E | simpl in Hn; lia].
Qed.

Lemma moov_loop_total fuel endPos : (500 < fuel)%nat -> total (moov_loop fuel endPos).
Proof.
  intros Hf p. destruct (moov_loop_bounded fuel endPos p Hf) as (n & c & p' & E & _).
  eauto.
Qed.

Local Hint Resolve moov_loop_total : totality.

Lemma parseMoov_total fuel atomSize : (500 < fuel)%nat -> total (parseMoov fuel atomSize).
Proof.
  intros Hf. unfold parseMoov. cbv zeta. repeat total_step.
Qed.

Local Hint Resolve parseMoov_total : totality.

Lemma scan_body_counts fuel fileSize l :
  (500 < fuel)%nat ->
  yields (scan_body fuel fileSize l) (fun r => snd (snd r) = wrap32 (snd l + 1)).
Proof.
  intros Hf. destruct l as [[pos moovFound] atomCount].
  unfold scan_body. cbv zeta.
  repeat yields_step; repeat total_step.
Qed.

Lemma scan_atoms_bounded fuel fileSize p :
  (1000 < fuel)%nat ->
  exists n l p', scan_atoms fuel fileSize p = Some ((n, l), p') /\ (n <= 1000)%nat.
Proof.
  intros Hf.
  destruct (while_bounded (scan_cond fileSize) (scan_body fuel fileSize) snd 1000) with
    (fuel := fuel) (l := (0, false, 0)) (p := p) as (n & c & p' & E & Hn).
  - intros [[pos mf] ac] q H. unfold scan_cond in H. apply andb_true_iff in H as [_ H].
    now apply Z.ltb_lt.
  - intros l Hl q.
    destruct (scan_body_counts fuel fileSize l ltac:(lia) q) as (r & q' & E & Hr).
    exists r, q'. split; [exact E |]. rewrite Hr. apply wrap32_small. lia.
  - simpl. lia.
  - simpl. lia.
  - exists n, c, p'. split; [exact E | simpl in Hn; lia].
Qed.

Lemma scan_atoms_total fuel fileSize : (1000 < fuel)%nat -> total (scan_atoms fuel fileSize).
Proof.
  intros Hf p. destruct (scan_atoms_bounded fuel fileSize p Hf) as (n & c & p' & E & _).
  eauto.
Qed.

Local Hint Resolve scan_atoms_total : totality.

Lemma open_total fuel found isFlash : (1000 < fuel)%nat -> total (open fuel found isFlash).
Proof.
  intros Hf. unfold open. cbv zeta.
  destruct found; repeat total_step.
Qed.


(** *** A box size below 8 leaves the loop *)

Lemma stbl_body_abort c p :
  fst (readUI32BE p) < 8 ->
  exists p', stbl_body c p = Some ((Stop, wrap32 (c + 1)), p').
Proof.
  intros Hs. unfold stbl_body. cbv zeta. rewrite !bind_lift.
  destruct (Z.ltb_spec (fst (readUI32BE p)) 8); [| lia]. eexists. reflexivity.
Qed.

Lemma minf_body_abort fuel c p :
  fst (readUI32BE p) < 8 ->
  exists p', minf_body fuel c p = Some ((Stop, wrap32 (c + 1)), p').
Proof.
  intros Hs. unfold minf_body. cbv zeta. rewrite !bind_lift.
  destruct (Z.ltb_spec (fst (readUI32BE p)) 8); [| lia]. eexists. reflexivity.
Qed.

Lemma mdia_body_abort fuel l p :
  fst (readUI32BE p) < 8 ->
  exists p', mdia_body fuel l p = Some ((Stop, (wrap32 (fst l + 1), snd l)), p').
Proof.
  intros Hs. unfold mdia_body. cbv zeta. rewrite !bind_lift.
  destruct (Z.ltb_spec (fst (readUI32BE p)) 8); [| lia]. eexists. reflexivity.
Qed.

Lemma trak_body_abort fuel l p :
  fst (readUI32BE p) < 8 ->
  exists p', trak_body fuel l p = Some ((Stop, (wrap32 (fst l + 1), snd l)), p').
Proof.
  intros Hs. unfold trak_body. cbv zeta. rewrite !bind_lift.
  destruct (Z.ltb_spec (fst (readUI32BE p)) 8); [| lia]. eexists. reflexivity.
Qed.

Lemma moov_body_abort fuel l p :
  fst (readUI32BE p) < 8 ->
  exists p', moov_body fuel l p = Some ((Stop, (wrap32 (fst l + 1), false)), p').
Proof.
  intros Hs. unfold moov_body. cbv zeta. rewrite !bind_lift.
  destruct (Z.ltb_spec (fst (readUI32BE p)) 8); [| lia]. eexists. reflexivity.
Qed.

Lemma scan_body_abort fuel fileSize pos moovFound atomCount p :
  peek32 stale p pos = 0 \/ 2 <= peek32 stale p pos < 8 ->
  exists p', scan_body fuel fileSize (pos, moovFound, atomCount) p =
             Some ((Stop, (pos, moovFound, wrap32 (atomCount + 1))), p').
Proof.
  intros Hs. unfold scan_body, peek32 in *. cbv zeta.
  rewrite bind_exec, !bind_lift.
  set (size := fst (readUI32BE (seek pos p))) in *.
  destruct (Z.eqb_spec size 0) as [E0 | E0]; [eexists; reflexivity |].
  destruct (Z.eqb_spec size 1) as [E1 | E1]; [lia |].
  rewrite bind_ret.
  destruct (Z.ltb_spec size 8); [| lia]. eexists. reflexivity.
Qed.

(** A round of the top-level scan that falls through to the next test
    has not moved [pos] past the end of the file. *)
Lemma scan_body_next fuel fileSize l :
  ensures (scan_body fuel fileSize l)
    (fun r => fst r = Next -> fst (fst (snd r)) <= fileSize).
Proof.
  destruct l as [[pos moovFound] atomCount].
  unfold scan_body. cbv zeta.
  repeat first
    [ apply ensures_bind; intros ?
    | apply ensures_ret; cbn [fst snd]; first [discriminate | intros _; assumption]
    | match goal with
      | |- ensures (if ?a <? ?b then _ else _) _ => destruct (Z.ltb_spec a b)
      | |- ensures (if ?b then _ else _) _ => destruct b
      end ].
Qed.

Lemma scan_cond_end fileSize l p :
  fileSize <= fst (fst l) -> scan_cond fileSize l p = false.
Proof.
  destruct l as [[pos mf] ac]. cbn [fst]. intros H. unfold scan_cond.
  destruct (Z.ltb_spec pos fileSize); [lia | reflexivity].
Qed.

(** C9: [open] terminates on every file.  With fuel above the largest
    ceiling every loop of the box walk ends by itself: the top-level scan
    within 1000 rounds, and it also stops at a box of size 0 and once the
    position has reached or passed the file size; the loop over the
    metadata box within 500 rounds, the loop over a track within 500, the
    three inner loops within 100 each; and a box size below 8 (at top
    level: other than the end marker 0 and the extended-size marker 1)
    leaves its loop. *)
Theorem open_terminates (fuel : nat) :
  (1000 < fuel)%nat ->
  (forall found isFlash p, exists ok p', open fuel found isFlash p = Some (ok, p')) /\
  (forall fileSize p, exists n l p',
      scan_atoms fuel fileSize p = Some ((n, l), p') /\ (n <= 1000)%nat) /\
  (forall endPos p, exists n l p',
      moov_loop fuel endPos p = Some ((n, l), p') /\ (n <= 500)%nat) /\
  (forall endPos p, exists n l p',
      trak_loop fuel endPos p = Some ((n, l), p') /\ (n <= 500)%nat) /\
  (forall mdiaEnd isAudio p, exists n l p',
      mdia_loop fuel mdiaEnd isAudio p = Some ((n, l), p') /\ (n <= 100)%nat) /\
  (forall minfEnd p, exists n l p',
      minf_loop fuel minfEnd p = Some ((n, l), p') /\ (n <= 100)%nat) /\
  (forall stblEnd p, exists n l p',
      stbl_loop fuel stblEnd p = Some ((n, l), p') /\ (n <= 100)%nat) /\
  (forall fileSize l p, fileSize <= fst (fst l) -> scan_cond fileSize l p = false) /\
  (forall fileSize l p r p',
      scan_body fuel fileSize l p = Some (r, p') ->
      fst r = Next -> fst (fst (snd r)) <= fileSize) /\
  (forall fileSize pos moovFound atomCount p,
      peek32 stale p pos = 0 \/ 2 <= peek32 stale p pos < 8 ->
      exists p', scan_body fuel fileSize (pos, moovFound, atomCount) p =
                 Some ((Stop, (pos, moovFound, wrap32 (atomCount + 1))), p')) /\
  (forall l c p,
      fst (readUI32BE p) < 8 ->
      (exists p', moov_body fuel l p = Some ((Stop, (wrap32 (fst l + 1), false)), p')) /\
      (exists p', trak_body fuel l p = Some ((Stop, (wrap32 (fst l + 1), snd l)), p')) /\
      (exists p', mdia_body fuel l p = Some ((Stop, (wrap32 (fst l + 1), snd l)), p')) /\
      (exists p', minf_body fuel c p = Some ((Stop, wrap32 (c + 1)), p')) /\
      (exists p', stbl_body c p = Some ((Stop, wrap32 (c + 1)), p'))).
Proof.
  intros Hf.
  split. { intros found isFlash p.
           destruct (open_total fuel found isFlash Hf p) as [[ok p'] E]. eauto. }
  split. { intros. apply scan_atoms_bounded, Hf. }
  split. { intros. apply moov_loop_bounded. lia. }
  split. { intros. apply trak_loop_bounded. lia. }
  split. { intros. apply mdia_loop_bounded. lia. }
  split. { intros. apply minf_loop_bounded. lia. }
  split. { intros. apply stbl_loop_bounded. lia. }
  split. { intros. now apply scan_cond_end. }
  split. { intros fileSize l p r p' E. exact (scan_body_next fuel fileSize l p r p' E). }
  split. { intros. now apply scan_body_abort. }
  intros l c p Hs.
  split; [now apply moov_body_abort |].
  split; [now apply trak_body_abort |].
  split; [now apply mdia_body_abort |].
  split; [now apply minf_body_abort | now apply stbl_body_abort].
Qed.

End BoxWalkFacts.

Lemma open_terminates_witness :
  exists ok p', open no_stale 1001 (Some audio_file) false MP4Parser_new = Some (ok, p').
Proof.
  apply (proj1 (open_terminates no_stale 1001 ltac:(lia))).
Defined.
(* ===================================================================== *)
(** * Facts about playing a track                                        *)
(* ===================================================================== *)

Lemma length_generateAdtsHeader header len profile rate chans :
  length (generateAdtsHeader header len profile rate chans) = length header.
Proof. unfold generateAdtsHeader. now rewrite !length_insert. Qed.

Lemma write_at_lookup_lt at_ src dst i :
  (i < at_)%nat -> write_at at_ src dst !! i = dst !! i.
Proof.
  revert at_ dst. induction src as [| x src IH]; intros at_ dst Hi; [reflexivity |].
  cbn [write_at]. rewrite IH by lia. apply list_lookup_insert_ne. lia.
Qed.

(** What was copied in can be read back. *)
Lemma write_at_read at_ src dst :
  (at_ + length src <= length dst)%nat ->
  take (length src) (drop at_ (write_at at_ src dst)) = src.
Proof.
  revert at_ dst. induction src as [| x src IH]; intros at_ dst Hlen.
  - reflexivity.
  - cbn [write_at length] in *.
    assert (Hx : write_at (S at_) src (<[at_ := x]> dst) !! at_ = Some x).
    { rewrite write_at_lookup_lt by lia. apply list_lookup_insert_eq. lia. }
    rewrite (drop_S _ x at_ Hx). cbn [take]. f_equal.
    apply IH. rewrite length_insert. lia.
Qed.

Lemma div_mod_eq (i c r K : Z) :
  i = c * K + r -> 0 <= r < K -> i / K = c /\ i mod K = r.
Proof.
  intros Hi Hr. split; symmetry.
  - apply Z.div_unique with r; lia.
  - apply Z.mod_unique with c; lia.
Qed.

(** A frame that starts inside the file: its payload is what the file has
    from the frame's offset on. *)
Lemma read_frame_payload buffer fs q :
  wrap32 (currentOffset q) <= Z.of_nat (length (fdata q)) ->
  snd (fst (read_frame buffer fs q)) =
  write_at 7 (take (Z.to_nat fs) (drop (Z.to_nat (wrap32 (currentOffset q))) (fdata q)))
    (generateAdtsHeader buffer (to_int (fs + 7)) 2 (to_int (sampleRate q)) (channels q)).
Proof. intros Hin. unfold read_frame. rewrite seek_in by exact Hin. reflexivity. Qed.

Lemma read_frame_tables buffer fs q :
  let q' := snd (read_frame buffer fs q) in
  fdata q' = fdata q /\ stszOffset q' = stszOffset q /\
  stcoOffset q' = stcoOffset q /\ stscOffset q' = stscOffset q.
Proof. unfold read_frame, seek. destruct (_ <=? _); repeat split. Qed.

Lemma next_chunk_fields stale q :
  let q' := next_chunk stale q in
  let chunk := wrap32 (currentChunk q + 1) in
  let entry := stcoOffset q + 16 + wrap32 ((chunk - 1) * 4) in
  let fetched := snd (readUI32BE stale (seek entry q)) in
  fdata q' = fdata q /\ stszOffset q' = stszOffset q /\
  stcoOffset q' = stcoOffset q /\ stscOffset q' = stscOffset q /\
  currentSample q' = currentSample q /\
  currentChunk q' = chunk /\
  samplesReadInChunk q' = 0 /\
  currentOffset q' = peek32 stale q entry /\
  samplesInCurrentChunk q' =
    default (samplesInCurrentChunk q)
      (last (map snd (runs_before_break (stsc_table stale fetched) chunk))) /\
  fetched = set_fpos (fpos fetched) q.
Proof.
  intros q' chunk entry fetched. pose proof (next_chunk_spec stale q) as H. cbv zeta in H.
  fold q' chunk entry fetched in H.
  assert (Hf : fetched = set_fpos (fpos fetched) q).
  { apply (moves_trans q (seek entry q) fetched (seek_moves _ _)).
    apply readUI32BE_moves. }
  repeat split; try exact Hf; rewrite H; reflexivity.
Qed.

Section UniformTrack.

Variable stale : Z -> Z.
Local Abbreviation readUI32BE := (readUI32BE stale).
Local Abbreviation readNextFrame := (readNextFrame stale).
Local Abbreviation next_chunk := (next_chunk stale).
Local Abbreviation peek32 := (peek32 stale).
Local Abbreviation stsz_defaultSize := (stsz_defaultSize stale).
Local Abbreviation stsz_count := (stsz_count stale).
Local Abbreviation next_frameSize := (next_frameSize stale).
Local Abbreviation guards_pass := (guards_pass stale).
Local Abbreviation stsc_table := (stsc_table stale).
Local Abbreviation stsc_entries := (stsc_entries stale).
Local Abbreviation after_frames := (after_frames stale).

Variables (d : list Z) (p : MP4Parser) (S N K : Z) (offsets : list Z).
Local Abbreviation on_track := (on_track d p).
Local Abbreviation at_sample := (at_sample d p S K offsets).
Hypothesis Htrack : uniform_track d p S N K offsets.

Lemma readUI32BE_at q off v :
  fdata q = d -> fpos q = off -> file_u32 d off = Some v ->
  readUI32BE q = (v, set_fpos (off + 4) q).
Proof using Type.
  intros Hq Hp Hv. rewrite <- Hp. apply readUI32BE_file. now rewrite Hq, Hp.
Qed.

Lemma file_small : Z.of_nat (length d) < 2 ^ 32.
Proof using Htrack. apply Htrack. Qed.

Lemma track_sizes : 1 <= S < 2 ^ 32 /\ 0 <= N < 2 ^ 32 /\ 1 <= K < 2 ^ 32.
Proof using Htrack.
  destruct Htrack as (_ & HS & HN & _ & _ & HK & _ & ? & ? & _).
  apply file_u32_bound in HS, HN, HK. lia.
Qed.

Lemma track_defaultSize q : on_track q -> stsz_defaultSize q = S.
Proof using Htrack.
  intros (Hqd & Hq1 & _). pose proof file_small as Hlen.
  destruct Htrack as (_ & HS & _).
  change (stsz_defaultSize q) with (peek32 q (stszOffset q + 12)).
  apply peek32_file; rewrite Hqd; [exact Hlen | now rewrite Hq1].
Qed.

Lemma track_count q : on_track q -> stsz_count q = N.
Proof using Htrack.
  intros (Hqd & Hq1 & _). pose proof file_small as Hlen.
  destruct Htrack as (_ & HS & HN & _).
  destruct (file_u32_bound _ _ _ HS) as (? & ? & _).
  unfold stsz_count. rewrite Hq1.
  rewrite (seek_read stale q (stszOffset p + 12) S)
    by (rewrite wrap32_small by lia; now rewrite Hqd).
  cbn [snd].
  rewrite (readUI32BE_at _ (stszOffset p + 16) N);
    [reflexivity | exact Hqd | cbn; rewrite wrap32_small; lia | exact HN].
Qed.

Lemma track_frameSize q : on_track q -> next_frameSize q = S.
Proof using Htrack.
  intros Hq. unfold next_frameSize, size_stage. fold (stsz_defaultSize q).
  rewrite (track_defaultSize q Hq).
  pose proof track_sizes. destruct (Z.eqb_spec S 0); [lia | reflexivity].
Qed.

Lemma track_table q : on_track q -> stsc_table q = [(1, K)].
Proof using Htrack.
  intros (Hqd & _ & _ & Hq3). pose proof file_small as Hlen.
  destruct Htrack as (_ & _ & _ & Hcnt & Hfirst & Hper & _).
  destruct (file_u32_bound _ _ _ Hcnt) as (? & ? & _).
  rewrite stsc_table_eq, Hq3.
  rewrite (seek_read stale q (stscOffset p + 12) 1)
    by (rewrite wrap32_small by lia; now rewrite Hqd).
  cbn [fst snd]. change (Z.to_nat 1) with 1%nat. cbn [stsc_entries].
  rewrite (readUI32BE_at _ (stscOffset p + 16) 1);
    [| exact Hqd | cbn; rewrite wrap32_small; lia | exact Hfirst].
  rewrite (readUI32BE_at _ (stscOffset p + 20) K);
    [| exact Hqd | cbn; lia | exact Hper].
  rewrite (readUI32BE_split stale (set_fpos _ _)). reflexivity.
Qed.

Lemma track_offset q j O :
  on_track q -> offsets !! j = Some O ->
  peek32 q (stcoOffset q + 16 + 4 * Z.of_nat j) = O /\
  0 <= O < 2 ^ 32 /\
  stcoOffset p + 16 + 4 * Z.of_nat j + 4 <= Z.of_nat (length d).
Proof using Htrack.
  intros (Hqd & _ & Hq2 & _) Hj. pose proof file_small as Hlen.
  destruct Htrack as (_ & _ & _ & _ & _ & _ & Hoff & _).
  specialize (Hoff j O Hj). destruct (file_u32_bound _ _ _ Hoff) as (? & ? & ?).
  split; [| split; [assumption | lia]].
  rewrite Hq2. apply peek32_file; rewrite Hqd; assumption.
Qed.

Lemma track_chunks_bound : 4 * Z.of_nat (length offsets) <= 2 ^ 32.
Proof using Htrack.
  pose proof file_small as Hlen.
  destruct Htrack as (_ & _ & _ & _ & _ & _ & Hoff & _).
  destruct offsets as [| O0 rest] eqn:E; [simpl; lia |].
  rewrite <- E in *.
  assert (H0 : offsets !! 0%nat = Some O0) by (rewrite E; reflexivity).
  assert (Hl : (length offsets - 1 < length offsets)%nat) by (rewrite E; simpl; lia).
  destruct (lookup_lt_is_Some_2 offsets _ Hl) as [Ol HOl].
  apply Hoff, file_u32_bound in H0. apply Hoff, file_u32_bound in HOl.
  assert (Z.of_nat (length offsets - 1) = Z.of_nat (length offsets) - 1)
    by (rewrite E; simpl; lia).
  lia.
Qed.

Lemma chunk_in_table i c r :
  0 <= i < N -> i = c * K + r -> 0 <= c -> 0 <= r ->
  (Z.to_nat c < length offsets)%nat.
Proof using Htrack.
  intros Hi Hic Hc Hr. pose proof track_sizes as (_ & _ & HK).
  destruct Htrack as (_ & _ & _ & _ & _ & _ & _ & _ & _ & HN & _).
  assert (c < Z.of_nat (length offsets)); [nia | lia].
Qed.

(** After the boundary block, if it runs, the cursor stands on sample [i]. *)
Lemma chunk_ready i q :
  at_sample i q -> 0 <= i < N ->
  let q' := if samplesInCurrentChunk q <=? samplesReadInChunk q
            then next_chunk q else q in
  on_track q' /\ currentSample q' = i /\ samplesInCurrentChunk q' = K /\
  currentChunk q' = i / K + 1 /\ samplesReadInChunk q' = i mod K /\
  i mod K < K /\
  exists O, offsets !! Z.to_nat (i / K) = Some O /\
            currentOffset q' = O + (i mod K) * S.
Proof using Htrack.
  intros (Hq & Hcs & Hsi & c & r & Hi & Hc & Hr & Hr0 & Hcc & Hsr & Hoff) HiN.
  pose proof track_sizes as (HS & HN & HK). pose proof file_small as Hlen.
  pose proof track_chunks_bound as Hchunks.
  rewrite Hsi, Hsr. cbv zeta.
  destruct (Z.leb_spec K r) as [HKr | HKr].
  - assert (r = K) by lia. subst r.
    assert (Hin : (Z.to_nat (c + 1) < length offsets)%nat)
      by (apply (chunk_in_table i (c + 1) 0); lia).
    destruct (lookup_lt_is_Some_2 offsets _ Hin) as [O HO].
    destruct (div_mod_eq i (c + 1) 0 K) as [Hdiv Hmod]; [lia | lia |].
    destruct (next_chunk_fields stale q)
      as (F1 & F2 & F3 & F4 & F5 & F6 & F7 & F8 & F9 & Ff).
    cbv zeta in F9, Ff.
    set (fetched := snd (readUI32BE (seek _ q))) in F9, Ff.
    destruct Hq as (Hq1 & Hq2 & Hq3 & Hq4).
    assert (Hfetched : on_track fetched) by (rewrite Ff; repeat split; assumption).
    destruct (track_offset q (Z.to_nat (c + 1)) O) as (Hpeek & HOr & Hend);
      [repeat split; assumption | exact HO |].
    assert (Hchunk : wrap32 (currentChunk q + 1) = c + 2).
    { rewrite Hcc. replace (c + 1 + 1) with (c + 2) by lia.
      apply wrap32_small. lia. }
    rewrite Hchunk in *.
    split; [repeat split; congruence |].
    split; [congruence |].
    split.
    { rewrite F9, (track_table fetched Hfetched).
      cbn [runs_before_break fst]. destruct (Z.ltb_spec (c + 2) 1); [lia | reflexivity]. }
    split; [rewrite F6, Hdiv; lia |].
    split; [rewrite F7, Hmod; reflexivity |].
    split; [lia |].
    exists O. rewrite Hdiv. split; [exact HO |].
    rewrite F8, Hmod.
    replace (wrap32 ((c + 2 - 1) * 4)) with (4 * Z.of_nat (Z.to_nat (c + 1)))
      by (rewrite wrap32_small; lia).
    rewrite Hpeek. lia.
  - destruct (div_mod_eq i c r K) as [Hdiv Hmod]; [lia | lia |].
    assert (Hin : (Z.to_nat c < length offsets)%nat)
      by (apply (chunk_in_table i c r); lia).
    destruct (lookup_lt_is_Some_2 offsets _ Hin) as [O HO].
    rewrite Hdiv, Hmod.
    split; [exact Hq |]. split; [exact Hcs |]. split; [exact Hsi |].
    split; [exact Hcc |]. split; [exact Hsr |]. split; [lia |].
    exists O. split; [exact HO | now apply Hoff].
Qed.

Hypothesis Hstsz : stszOffset p <> 0.

Lemma track_guards_sample bufferSize q :
  on_track q -> guards_pass bufferSize q = true -> currentSample q < N.
Proof using Htrack.
  intros Hq Hg.
  unfold guards_pass in Hg. rewrite !andb_true_iff in Hg.
  destruct Hg as ((_ & Hlt) & _).
  apply Z.ltb_lt in Hlt. fold (stsz_count q) in Hlt.
  now rewrite (track_count q Hq) in Hlt.
Qed.

(** Call number [i] of a track with more than [i] samples. *)
Lemma frame_step buffer bufferSize i q :
  at_sample i q -> 0 <= i < N ->
  S + 7 <= bufferSize < 2 ^ 32 -> (7 + Z.to_nat S <= length buffer)%nat ->
  let r := readNextFrame buffer bufferSize q in
  fst (fst r) = S + 7 /\
  take (Z.to_nat S) (drop 7 (snd (fst r))) =
    take (Z.to_nat S) (drop (Z.to_nat (frame_offset offsets S K i)) d) /\
  currentOffset (snd r) = frame_offset offsets S K i + S /\
  at_sample (i + 1) (snd r).
Proof using Htrack Hstsz.
  intros Hat Hi Hb Hbuf. pose proof Hat as (Hq & Hcs & _).
  pose proof track_sizes as (HS & HN & HK). pose proof file_small as Hlen.
  assert (Hat0 : at_sample i (after_size stale q))
    by (rewrite (after_size_moves stale q); exact Hat).
  destruct (chunk_ready i (after_size stale q) Hat0 Hi)
    as (Hq' & Hcs' & Hsi' & Hcc' & Hsr' & Hmodlt & O & HO & Hoff').
  set (q' := if samplesInCurrentChunk (after_size stale q) <=?
                samplesReadInChunk (after_size stale q)
             then next_chunk (after_size stale q) else after_size stale q) in *.
  assert (Hcall : readNextFrame buffer bufferSize q = read_frame buffer S q').
  { destruct (after_size_fields stale q) as (_ & _ & _ & _ & _ & _ & _ & _ & Ai & Ar & _).
    subst q'. rewrite Ai, Ar.
    destruct (readNextFrame_cases stale buffer bufferSize q)
      as [(Hz & _) | [(_ & Hcnt & _) | [(_ & _ & Hbs & _) | (_ & ->)]]].
    - destruct Hq as (_ & Hq1 & _). congruence.
    - rewrite (track_count q Hq) in Hcnt. lia.
    - rewrite (track_frameSize q Hq) in Hbs.
      rewrite wrap32_small in Hbs by lia. lia.
    - now rewrite (track_frameSize q Hq). }
  assert (Hfo : frame_offset offsets S K i = O + (i mod K) * S).
  { unfold frame_offset. now rewrite HO. }
  assert (Hin : frame_offset offsets S K i + S <= Z.of_nat (length d)).
  { destruct Htrack as (_ & _ & _ & _ & _ & _ & _ & _ & _ & _ & Hfr). now apply Hfr. }
  destruct (track_offset q' _ O Hq' HO) as (_ & HOr & _).
  assert (Hmod0 : 0 <= i mod K) by (apply Z.mod_pos_bound; lia).
  assert (Hoffr : 0 <= currentOffset q' < 2 ^ 32) by nia.
  cbv zeta. rewrite Hcall.
  destruct (read_frame_fields buffer S q') as (R1 & R2 & R3 & R4 & R5 & R6).
  destruct (read_frame_tables buffer S q') as (T1 & T2 & T3 & T4).
  destruct Hq' as (Hq1' & Hq2' & Hq3' & Hq4').
  split; [rewrite R1; apply wrap32_small; lia |].
  split.
  { rewrite read_frame_payload
      by (rewrite (wrap32_small (currentOffset q')), Hq1' by exact Hoffr; lia).
    rewrite (wrap32_small (currentOffset q')) by exact Hoffr.
    rewrite Hq1', Hoff', <- Hfo.
    set (got := take (Z.to_nat S) (drop (Z.to_nat (frame_offset offsets S K i)) d)).
    assert (Hgot : length got = Z.to_nat S).
    { subst got. rewrite length_take, length_drop. lia. }
    rewrite <- Hgot at 1. apply write_at_read.
    rewrite length_generateAdtsHeader. lia. }
  split; [rewrite R5, Hoff', Hfo; apply wrap32_small; lia |].
  split; [repeat split; congruence |].
  split; [rewrite R6, Hcs'; apply wrap32_small; lia |].
  split; [congruence |].
  exists (i / K), (i mod K + 1).
  pose proof (Z.div_mod i K ltac:(lia)) as Hdm.
  assert (0 <= i / K) by (apply Z.div_pos; lia).
  split; [lia |]. split; [assumption |]. split; [lia |]. split; [lia |].
  split; [congruence |].
  split; [rewrite R4, Hsr'; apply wrap32_small; lia |].
  intros O' HO'. rewrite HO in HO'. injection HO' as <-.
  rewrite R5, Hoff'. rewrite wrap32_small by lia. lia.
Qed.

(** A call once the sample count is reached. *)
Lemma frame_end buffer bufferSize i q :
  at_sample i q -> N <= i ->
  let r := readNextFrame buffer bufferSize q in
  fst (fst r) = 0 /\ at_sample i (snd r).
Proof using Htrack Hstsz.
  intros Hat Hi. pose proof Hat as (Hq & Hcs & _). cbv zeta.
  destruct (readNextFrame_cases stale buffer bufferSize q)
    as [(Hz & ->) | [(_ & _ & x & ->) | [(_ & _ & _ & x & ->) | (Hg & _)]]].
  - split; [reflexivity | exact Hat].
  - split; [reflexivity | exact Hat].
  - split; [reflexivity | exact Hat].
  - pose proof (track_guards_sample bufferSize q Hq Hg). lia.
Qed.

Lemma after_frames_at buffer bufferSize (j : nat) :
  at_sample 0 p ->
  S + 7 <= bufferSize < 2 ^ 32 -> (7 + Z.to_nat S <= length buffer)%nat ->
  at_sample (Z.min (Z.of_nat j) N) (after_frames j buffer bufferSize p).
Proof using Htrack Hstsz.
  intros H0 Hb Hbuf. pose proof track_sizes as (HS & HN & HK).
  induction j as [| j IH].
  - simpl. rewrite Z.min_l by lia. exact H0.
  - cbn [after_frames].
    destruct (Z.lt_ge_cases (Z.of_nat j) N) as [Hlt | Hge].
    + rewrite Z.min_l in IH by lia.
      replace (Z.min (Z.of_nat (Datatypes.S j)) N) with (Z.of_nat j + 1) by lia.
      apply (frame_step buffer bufferSize (Z.of_nat j) _ IH); [lia | exact Hb | exact Hbuf].
    + rewrite Z.min_r in IH by lia. rewrite Z.min_r by lia.
      apply (frame_end buffer bufferSize N _ IH). lia.
Qed.

End UniformTrack.

Lemma Some_pair_snd {A B} (a b : A) (x y : B) : Some (a, x) = Some (b, y) -> x = y.
Proof. congruence. Qed.

Section Preservation.

Variable I : MP4Parser -> Prop.

Lemma preserves_ret {A} (a : A) : preserves I (ret a).
Proof. intros p b p' H E. injection E as _ <-. exact H. Qed.

Lemma preserves_gets {A} (f : MP4Parser -> A) : preserves I (gets f).
Proof. intros p b p' H E. injection E as _ <-. exact H. Qed.

Lemma preserves_lift {A} (f : MP4Parser -> A * MP4Parser) :
  (forall p, I p -> I (snd (f p))) -> preserves I (lift f).
Proof.
  intros Hf p b p' H E. unfold lift in E. injection E as E.
  specialize (Hf p H). now rewrite E in Hf.
Qed.

Lemma preserves_exec (f : MP4Parser -> MP4Parser) :
  (forall p, I p -> I (f p)) -> preserves I (exec f).
Proof. intros Hf p b p' H E. injection E as _ <-. now apply Hf. Qed.

Lemma preserves_bind {A B} (m : M A) (k : A -> M B) :
  preserves I m -> (forall a, preserves I (k a)) -> preserves I (bind m k).
Proof.
  intros Hm Hk p b p' H E. unfold bind in E.
  destruct (m p) as [[a q] |] eqn:Em; [| discriminate].
  eapply Hk; [| exact E]. eapply Hm; [exact H | exact Em].
Qed.

Lemma preserves_while {L} (cond : L -> MP4Parser -> bool) (body : L -> M (flow * L)) :
  (forall l, preserves I (body l)) ->
  forall fuel l, preserves I (while fuel cond body l).
Proof.
  intros Hb fuel. induction fuel as [| fuel IH]; intros l p r p' H E; [discriminate |].
  cbn [while] in E. destruct (cond l p).
  - destruct (body l p) as [[[[] l'] q] |] eqn:Eb; [| | discriminate].
    + destruct (while fuel cond body l' q) as [[[n lf] pf] |] eqn:Ew; [| discriminate].
      injection E as _ <-. eapply IH; [| exact Ew]. eapply Hb; [exact H | exact Eb].
    + injection E as _ <-. eapply Hb; [exact H | exact Eb].
  - injection E as _ <-. exact H.
Qed.

End Preservation.

Ltac keeps_step :=
  first [ apply preserves_ret | apply preserves_gets
        | apply preserves_bind; [| intros ?]
        | apply preserves_while; intros ?
        | apply preserves_lift; let q := fresh in let H := fresh in intros q H; exact H
        | apply preserves_exec; let q := fresh in let H := fresh in intros q H; exact H
        | match goal with |- preserves _ (if ?b then _ else _) => destruct b end ].

Section OpenFacts.

Variable stale : Z -> Z.
Local Abbreviation readUI32BE := (readUI32BE stale).
Local Abbreviation peek32 := (peek32 stale).
Local Abbreviation parseStsd := (parseStsd stale).
Local Abbreviation open := (open stale).
Local Abbreviation scan_atoms := (scan_atoms stale).

Variable d : list Z.
Local Abbreviation walk_keeps := (walk_keeps d).

Lemma seek_keeps off q : walk_keeps q -> walk_keeps (seek off q).
Proof. intros H. unfold seek. now destruct (_ <=? _). Qed.

Lemma parseStsd_keeps atomSize q :
  walk_keeps q -> walk_keeps (snd (parseStsd atomSize q)).
Proof.
  intros H. unfold parseStsd. cbv zeta.
  set (q1 := seek (getPos q + 8) q).
  assert (K1 : walk_keeps q1) by (apply seek_keeps; exact H). clearbody q1.
  rewrite (readUI32BE_split stale q1).
  rewrite (readUI32BE_split stale (snd (readUI32BE q1))).
  set (q3 := snd (readUI32BE (snd (readUI32BE q1)))).
  assert (K3 : walk_keeps q3) by exact K1.
  destruct (_ =? _); [| exact K3]. clearbody q3.
  set (q4 := seek (getPos q3 + 8) q3).
  assert (K4 : walk_keeps q4) by (apply seek_keeps; exact K3). clearbody q4.
  set (q5 := seek (getPos q4 + 8) q4).
  assert (K5 : walk_keeps q5) by (apply seek_keeps; exact K4). clearbody q5.
  rewrite (readUI32BE_split stale q5).
  set (q6 := set_channels _ (snd (readUI32BE q5))).
  assert (K6 : walk_keeps q6) by exact K5. clearbody q6.
  set (q7 := seek (getPos q6 + 4) q6).
  assert (K7 : walk_keeps q7) by (apply seek_keeps; exact K6). clearbody q7.
  rewrite (readUI32BE_split stale q7).
  exact K7.
Qed.

Lemma scan_atoms_keeps fuel fileSize : preserves walk_keeps (scan_atoms fuel fileSize).
Proof.
  unfold scan_atoms. apply preserves_while. intros [[pos mf] ac].
  unfold scan_body, parseMoov, moov_loop, moov_body, parseTrak, trak_loop, trak_body,
    mdia_loop, mdia_body, minf_loop, minf_body, stbl_loop, stbl_body.
  cbv zeta.
  repeat first [ keeps_step
               | apply preserves_exec; intros ? ?; now apply seek_keeps
               | apply preserves_exec; intros ? ?; now apply parseStsd_keeps ].
Qed.


(** What a successful [open] leaves: the file, the three table offsets,
    and the cursor seeded from the first run and the first chunk offset
    when those words lie inside the file. *)
Lemma open_success fuel isFlash p0 p :
  open fuel (Some d) isFlash p0 = Some (true, p) ->
  fdata p = d /\
  stszOffset p <> 0 /\ stcoOffset p <> 0 /\ stscOffset p <> 0 /\
  currentSample p = 0 /\ currentChunk p = 1 /\ samplesReadInChunk p = 0 /\
  (forall K, file_u32 d (wrap32 (stscOffset p + 16) + 4) = Some K ->
             samplesInCurrentChunk p = K) /\
  (forall O, file_u32 d (wrap32 (stcoOffset p + 16)) = Some O -> currentOffset p = O).
Proof.
  unfold open. cbv zeta. do 4 rewrite bind_exec. intros H.
  unfold bind at 1 in H.
  match type of H with
  | match ?scan with _ => _ end = _ => destruct scan as [[r q] |] eqn:Escan
  end; [| discriminate].
  assert (Hinit : walk_keeps
            (set_samplesReadInChunk 0
               (set_currentChunk 1
                  (set_currentSample 0
                     (set_mdatOffset 0
                        (set_stscOffset 0
                           (set_stcoOffset 0
                              (set_stszOffset 0
                                 (set_fpos 0
                                    (set_fdata d (set_usingFlash isFlash p0)))))))))))
    by (split; [| split]; reflexivity).
  destruct (scan_atoms_keeps fuel _ _ _ _ Hinit Escan) as (Kd & Ks & Kr).
  rewrite bind_gets in H.
  destruct (snd (fst (snd r)) && negb (stszOffset q =? 0) && negb (stcoOffset q =? 0)
            && negb (stscOffset q =? 0)) eqn:Eok; [| discriminate].
  rewrite !andb_true_iff, !negb_true_iff, !Z.eqb_neq in Eok.
  destruct Eok as (((_ & E1) & E2) & E3).
  rewrite bind_exec, bind_exec, bind_exec, bind_lift, bind_lift, bind_exec,
    bind_exec, bind_lift, bind_exec in H.
  apply Some_pair_snd in H.
  set (a1 := seek (stscOffset q + 12) q) in H.
  assert (M1 : a1 = set_fpos (fpos a1) q) by apply seek_moves.
  assert (D1 : fdata a1 = d) by (rewrite M1; exact Kd).
  assert (O1 : stscOffset a1 = stscOffset q) by (rewrite M1; reflexivity).
  rewrite O1 in H.
  set (first := readUI32BE (set_currentChunk 1 (seek (stscOffset q + 16) a1))) in H.
  set (a5 := snd (readUI32BE (snd first))) in H.
  assert (M5 : a5 = set_currentChunk 1 (set_fpos (fpos a5) q)).
  { subst a5 first. rewrite (seek_moves (stscOffset q + 16) a1).
    generalize (fpos (seek (stscOffset q + 16) a1)). intros x. rewrite M1. reflexivity. }
  set (K' := fst (readUI32BE (snd first))) in H.
  set (a6 := set_samplesInCurrentChunk K' a5) in H.
  assert (O6 : stcoOffset a6 = stcoOffset q) by (subst a6; rewrite M5; reflexivity).
  assert (D6 : fdata a6 = d) by (subst a6; rewrite M5; exact Kd).
  rewrite O6 in H.
  set (last := readUI32BE (seek (stcoOffset q + 16) a6)) in H.
  assert (M8 : snd last = set_samplesInCurrentChunk K'
                            (set_currentChunk 1 (set_fpos (fpos (snd last)) q))).
  { subst last. rewrite (seek_moves (stcoOffset q + 16) a6).
    generalize (fpos (seek (stcoOffset q + 16) a6)). intros x.
    subst a6. rewrite M5. reflexivity. }
  assert (Hp : p = set_currentOffset (fst last)
                     (set_samplesInCurrentChunk K'
                        (set_currentChunk 1 (set_fpos (fpos (snd last)) q)))).
  { rewrite <- M8. symmetry. exact H. }
  assert (P1 : stscOffset p = stscOffset q) by (rewrite Hp; reflexivity).
  assert (P2 : stcoOffset p = stcoOffset q) by (rewrite Hp; reflexivity).
  split; [rewrite Hp; exact Kd |].
  split; [rewrite Hp; exact E1 |].
  split; [rewrite Hp; exact E2 |].
  split; [rewrite Hp; exact E3 |].
  split; [rewrite Hp; exact Ks |].
  split; [rewrite Hp; reflexivity |].
  split; [rewrite Hp; exact Kr |].
  split.
  - intros K HK. rewrite P1 in HK.
    destruct (file_u32_bound _ _ _ HK) as (B0 & B1 & _).
    pose proof (wrap32_range (stscOffset q + 16)) as Hw.
    destruct (file_u32_some d (wrap32 (stscOffset q + 16)) ltac:(lia) ltac:(lia))
      as (F & HF).
    assert (Hfirst : first = (F, set_currentChunk 1
                                  (set_fpos (wrap32 (stscOffset q + 16) + 4) a1))).
    { subst first.
      change (readUI32BE (set_currentChunk 1 (seek (stscOffset q + 16) a1)))
        with (fst (readUI32BE (seek (stscOffset q + 16) a1)),
              set_currentChunk 1 (snd (readUI32BE (seek (stscOffset q + 16) a1)))).
      rewrite (seek_read stale a1 (stscOffset q + 16) F) by (now rewrite D1).
      reflexivity. }
    assert (HK' : K' = K).
    { subst K'. rewrite Hfirst. cbn [snd].
      rewrite (readUI32BE_file stale _ K); [reflexivity |].
      cbn [fdata fpos set_currentChunk set_fpos]. now rewrite D1. }
    rewrite Hp. cbn [samplesInCurrentChunk set_currentOffset set_samplesInCurrentChunk].
    exact HK'.
  - intros O HO. rewrite P2 in HO.
    rewrite Hp. cbn [currentOffset set_currentOffset].
    subst last. rewrite (seek_read stale a6 (stcoOffset q + 16) O) by (now rewrite D6).
    reflexivity.
Qed.

End OpenFacts.

(** The cursor a successful [open] leaves stands on sample 0 of the track. *)
Lemma open_at_sample_0 (stale : Z -> Z) (fuel : nat) (isFlash : bool)
    (d : list Z) (p0 p : MP4Parser) (S N K : Z) (offsets : list Z) :
  open stale fuel (Some d) isFlash p0 = Some (true, p) ->
  uniform_track d p S N K offsets ->
  stszOffset p <> 0 /\ at_sample d p S K offsets 0 p.
Proof.
  intros Hopen Htrack.
  destruct (open_success stale d fuel isFlash p0 p Hopen)
    as (Hd & Hz & _ & _ & Hcs & Hcc & Hsr & Hsi & Hco).
  split; [exact Hz |].
  assert (Hon : on_track d p p) by (repeat split; exact Hd).
  pose proof (file_small d p S N K offsets Htrack) as Hlen.
  split; [exact Hon |]. split; [exact Hcs |].
  split.
  { apply Hsi.
    destruct Htrack as (_ & _ & _ & _ & Hfirst & Hper & _).
    destruct (file_u32_bound _ _ _ Hfirst) as (? & ? & _).
    rewrite wrap32_small by lia.
    replace (stscOffset p + 16 + 4) with (stscOffset p + 20) by lia. exact Hper. }
  pose proof (track_sizes d p S N K offsets Htrack) as (_ & _ & HK).
  exists 0, 0.
  split; [lia |]. split; [lia |]. split; [lia |]. split; [lia |].
  split; [rewrite Hcc; lia |]. split; [exact Hsr |].
  intros O HO. change (Z.to_nat 0) with 0%nat in HO.
  destruct Htrack as (_ & _ & _ & _ & _ & _ & Hoff & _).
  specialize (Hoff 0%nat O HO).
  replace (stcoOffset p + 16 + 4 * Z.of_nat 0) with (stcoOffset p + 16) in Hoff by lia.
  destruct (file_u32_bound _ _ _ Hoff) as (? & ? & _).
  rewrite (Hco O) by (rewrite wrap32_small by lia; exact Hoff). lia.
Qed.

(** C1: a file that [open] accepts, whose sample-size table stores the
    shared size [S] for [N] samples, whose sample-to-chunk table is the
    single run "from chunk 1 on, [K] samples per chunk", whose chunk-offset
    table holds [offsets], and whose frames lie inside the file: with an
    array of at least [S + 7] bytes, call number [i] (from 0) of
    [readNextFrame] returns [S + 7] for every [i < N], its payload behind
    the 7 header bytes is the [S] file bytes from offset
    [offsets[i / K] + (i mod K) * S] on (the cursor ends right behind them),
    and every call from number [N] on returns 0.  ([N] is the sample count
    the table stores, the track's total number of samples.) *)
Theorem uniform_track_frames (stale : Z -> Z) (fuel : nat) (isFlash : bool)
    (d : list Z) (p0 p : MP4Parser) (S N K : Z) (offsets : list Z)
    (buffer : list Z) (bufferSize : Z) :
  open stale fuel (Some d) isFlash p0 = Some (true, p) ->
  uniform_track d p S N K offsets ->
  S + 7 <= bufferSize < 2 ^ 32 ->
  (7 + Z.to_nat S <= length buffer)%nat ->
  forall i : nat,
    let r := readNextFrame stale buffer bufferSize
               (after_frames stale i buffer bufferSize p) in
    (Z.of_nat i < N ->
       fst (fst r) = S + 7 /\
       take (Z.to_nat S) (drop 7 (snd (fst r))) =
         take (Z.to_nat S) (drop (Z.to_nat (frame_offset offsets S K (Z.of_nat i))) d) /\
       currentOffset (snd r) = frame_offset offsets S K (Z.of_nat i) + S) /\
    (N <= Z.of_nat i -> fst (fst r) = 0).
Proof.
  intros Hopen Htrack Hb Hbuf i.
  destruct (open_at_sample_0 stale fuel isFlash d p0 p S N K offsets Hopen Htrack)
    as (Hz & H0).
  pose proof (after_frames_at stale d p S N K offsets Htrack Hz buffer bufferSize i
                H0 Hb Hbuf) as Hat.
  cbv zeta. split.
  - intros Hi. rewrite Z.min_l in Hat by lia.
    destruct (frame_step stale d p S N K offsets Htrack Hz buffer bufferSize
                (Z.of_nat i) _ Hat ltac:(lia) Hb Hbuf) as (R1 & R2 & R3 & _).
    split; [exact R1 |]. split; [exact R2 | exact R3].
  - intros Hi. rewrite Z.min_r in Hat by lia.
    apply (frame_end stale d p S N K offsets Htrack Hz buffer bufferSize N _ Hat).
    lia.
Qed.

Lemma audio_file_opens :
  open no_stale 1001 (Some audio_file) false MP4Parser_new =
  Some (true, opened audio_file).
Proof. vm_compute. reflexivity. Qed.

Lemma audio_file_track :
  uniform_track audio_file (opened audio_file) 10 6 2 [24; 44; 64].
Proof.
  split; [vm_compute; reflexivity |].
  do 5 (split; [vm_compute; reflexivity |]).
  split.
  { intros j O Hj.
    destruct j as [| [| [| j]]]; simpl in Hj; try discriminate;
      injection Hj as <-; vm_compute; reflexivity. }
  split; [lia |]. split; [lia |]. split; [simpl; lia |].
  intros i Hi.
  assert (Hc : i = 0 \/ i = 1 \/ i = 2 \/ i = 3 \/ i = 4 \/ i = 5) by lia.
  repeat (destruct Hc as [-> | Hc]; [vm_compute; discriminate |]).
  subst i. vm_compute. discriminate.
Qed.

Lemma uniform_track_frames_witness :
  fst (fst (readNextFrame no_stale (replicate 17 0) 17
              (after_frames no_stale 3 (replicate 17 0) 17 (opened audio_file)))) = 10 + 7 /\
  fst (fst (readNextFrame no_stale (replicate 17 0) 17
              (after_frames no_stale 6 (replicate 17 0) 17 (opened audio_file)))) = 0.
Proof.
  assert (Hb : 10 + 7 <= 17 < 2 ^ 32) by lia.
  assert (Hbuf : (7 + Z.to_nat 10 <= length (replicate 17 0))%nat) by (simpl; lia).
  split.
  - apply (uniform_track_frames no_stale 1001 false audio_file MP4Parser_new
             (opened audio_file) 10 6 2 [24; 44; 64] (replicate 17 0) 17
             audio_file_opens audio_file_track Hb Hbuf 3). lia.
  - apply (uniform_track_frames no_stale 1001 false audio_file MP4Parser_new
             (opened audio_file) 10 6 2 [24; 44; 64] (replicate 17 0) 17
             audio_file_opens audio_file_track Hb Hbuf 6). lia.
Defined.

(** The end-to-end scenario: six calls return 17 bytes each, the seventh
    returns 0, and the payloads are the 60 bytes of the media box in order. *)
Lemma audio_file_scenario :
  map (fun i => fst (fst (readNextFrame no_stale (replicate 17 0) 17
                            (after_frames no_stale i (replicate 17 0) 17
                               (opened audio_file)))))
      (seq 0 7) = [17; 17; 17; 17; 17; 17; 0] /\
  concat (map (fun i => drop 7 (snd (fst (readNextFrame no_stale (replicate 17 0) 17
                                            (after_frames no_stale i (replicate 17 0) 17
                                               (opened audio_file))))))
              (seq 0 6)) = map Z.of_nat (seq 100 60).
Proof. vm_compute. split; reflexivity. Qed.

(** C2 fails on [video_file]: its only track has the handler 'vide', and
    [open] still reports success, with the tables of that track. *)
Theorem open_accepts_video_only :
  exists p, open no_stale 1001 (Some video_file) false MP4Parser_new = Some (true, p) /\
            stszOffset p <> 0 /\ stcoOffset p <> 0 /\ stscOffset p <> 0 /\
            fst (fst (readNextFrame no_stale (replicate 17 0) 17 p)) = 17.
Proof.
  exists (opened video_file). vm_compute. repeat split; discriminate.
Qed.

(* ===================================================================== *)
(** * More about the ring buffer                                          *)
(* ===================================================================== *)

Section RingMore.

Import RingBuffer.

Variables (N mask : Z).
Hypothesis Hcap : capacity_ok N mask.

Local Abbreviation availableForRead := (availableForRead N mask).
Local Abbreviation availableForWrite := (availableForWrite N mask).
Local Abbreviation push := (push mask).
Local Abbreviation pop := (pop mask).
Local Abbreviation run := (run mask).
Local Abbreviation push_all := (push_all mask).
Local Abbreviation wf := (wf N).
Local Abbreviation full := (full mask).
Local Abbreviation contents := (contents N mask).

Lemma level_range (rb : t) : wf rb -> 0 <= availableForRead rb <= N - 1.
Proof using Hcap.
  intros ((b & Hb & _) & Hr & Hw). unfold RingBuffer.availableForRead.
  rewrite Hb, (level_cases N mask Hcap rb Hr Hw).
  destruct (Z.leb_spec (readPos rb) (writePos rb)); lia.
Qed.

Lemma room_level (rb : t) :
  wf rb -> availableForWrite rb = N - 1 - availableForRead rb.
Proof using Type.
  intros ((b & Hb & _) & _). unfold RingBuffer.availableForRead,
    RingBuffer.availableForWrite. rewrite Hb. lia.
Qed.

Lemma length_contents (rb : t) :
  wf rb -> Z.of_nat (length (contents rb)) = availableForRead rb.
Proof using Hcap.
  intros Hwf. pose proof (level_range rb Hwf). destruct Hwf as ((b & Hb & _) & _).
  unfold RingBuffer.contents. rewrite Hb, length_map, length_seq. lia.
Qed.

(** X1: after any sequence of [push] and [pop] calls on an allocated ring
    the array is still there with its [N] cells, and [readPos] and
    [writePos] are valid indices into it: no call reads or writes outside
    the array. *)
Theorem ring_indices_in_bounds (ops : list op) (rb : t) :
  wf rb ->
  exists b, buffer (run ops rb) = Some b /\
    Z.of_nat (length b) = N /\
    (Z.to_nat (readPos (run ops rb)) < length b)%nat /\
    (Z.to_nat (writePos (run ops rb)) < length b)%nat /\
    0 <= readPos (run ops rb) /\ 0 <= writePos (run ops rb).
Proof using Hcap.
  intros Hwf. destruct (wf_run N mask Hcap ops rb Hwf) as ((b & Hb & Hlen) & Hr & Hw).
  exists b. repeat split; try assumption; lia.
Qed.

(** A refused sample: the ring was full, and stays as it was. *)
Lemma push_refused (v : Z) (rb : t) :
  wf rb -> fst (push v rb) = false ->
  availableForRead rb = N - 1 /\ snd (push v rb) = rb.
Proof using Hcap.
  intros Hwf Hno.
  assert (Hfull : availableForRead rb = N - 1).
  { pose proof (level_range rb Hwf) as Hl.
    destruct (Z.lt_ge_cases (availableForRead rb) (N - 1)) as [H | H]; [| lia].
    destruct (push_accepted N mask Hcap v rb Hwf H) as (rb2 & Hp2 & _).
    rewrite Hp2 in Hno. discriminate. }
  split; [exact Hfull |].
  apply (full_iff_level N mask Hcap rb Hwf) in Hfull.
  destruct Hwf as ((b & Hb & _) & _).
  unfold RingBuffer.push, RingBuffer.full in *.
  now rewrite Hb, Hfull, Z.eqb_refl.
Qed.

(** An accepted sample: one more to read, queued last. *)
Lemma push_taken (v : Z) (rb : t) :
  wf rb -> fst (push v rb) = true ->
  availableForRead rb < N - 1 /\
  availableForRead (snd (push v rb)) = availableForRead rb + 1 /\
  contents (snd (push v rb)) = contents rb ++ [v].
Proof using Hcap.
  intros Hwf Hyes. destruct (push v rb) as [ok rb'] eqn:Hpush. cbn [fst snd] in *.
  subst ok.
  destruct (push_true_inv N mask Hcap v rb rb' Hwf Hpush) as (b & Hb & _ & Hlt & Hl').
  split; [exact Hlt |]. split; [exact Hl' |].
  now apply (contents_push N mask Hcap).
Qed.

(** X2: [push] accepts a sample exactly when [availableForWrite] is
    positive.  An accepted sample becomes the newest queued one, the read
    count goes up by one and the write count down by one; a rejected
    sample leaves the ring as it was. *)
Theorem ring_push_iff_room (v : Z) (rb : t) :
  wf rb ->
  (fst (push v rb) = true <-> 0 < availableForWrite rb) /\
  (fst (push v rb) = true ->
     availableForRead (snd (push v rb)) = availableForRead rb + 1 /\
     availableForWrite (snd (push v rb)) = availableForWrite rb - 1 /\
     contents (snd (push v rb)) = contents rb ++ [v]) /\
  (fst (push v rb) = false -> snd (push v rb) = rb).
Proof using Hcap.
  intros Hwf. pose proof (room_level rb Hwf) as Hroom.
  pose proof (room_level _ (wf_push N mask Hcap v rb Hwf)) as Hroom'.
  split; [| split].
  - destruct (fst (push v rb)) eqn:Hok.
    + destruct (push_taken v rb Hwf Hok) as (Hlt & _). split; [lia | reflexivity].
    + destruct (push_refused v rb Hwf Hok) as (Hfull & _). split; [discriminate | lia].
  - intros Hok. destruct (push_taken v rb Hwf Hok) as (_ & Hl & Hc).
    split; [exact Hl |]. split; [lia | exact Hc].
  - intros Hok. apply (push_refused v rb Hwf Hok).
Qed.

(** A pop from a ring that holds samples, spelled out. *)
Lemma pop_some (rb : t) :
  wf rb -> 0 < availableForRead rb ->
  wf (snd (pop rb)) /\
  availableForRead (snd (pop rb)) = availableForRead rb - 1 /\
  contents rb = fst (pop rb) :: contents (snd (pop rb)).
Proof using Hcap.
  intros Hwf Hl. pose proof (wf_pop N mask Hcap rb Hwf) as Hwf'.
  pose proof (contents_pop N mask Hcap rb Hwf Hl) as Hc.
  split; [exact Hwf' |]. split; [| exact Hc].
  apply (f_equal length) in Hc. cbn [length] in Hc.
  pose proof (length_contents rb Hwf). pose proof (length_contents _ Hwf'). lia.
Qed.

Lemma pop_n_contents (n : nat) (rb : t) :
  wf rb -> Z.of_nat n <= availableForRead rb ->
  fst (pop_n mask n rb) = take n (contents rb) /\
  contents (snd (pop_n mask n rb)) = drop n (contents rb) /\
  wf (snd (pop_n mask n rb)) /\
  writePos (snd (pop_n mask n rb)) = writePos rb.
Proof using Hcap.
  revert rb. induction n as [| n IH]; intros rb Hwf Hn.
  - cbn [pop_n fst snd take drop]. refine (conj _ (conj _ (conj _ _))); try reflexivity; assumption.
  - cbn [pop_n].
    destruct (pop_some rb Hwf ltac:(lia)) as (Hwf1 & Hl1 & Hc1).
    destruct (pop rb) as [x rb1] eqn:Hpop. cbn [fst snd] in *.
    destruct (IH rb1 Hwf1 ltac:(lia)) as (I1 & I2 & I3 & I4).
    destruct (pop_n mask n rb1) as [xs rb2] eqn:Hrest. cbn [fst snd] in *.
    rewrite Hc1. cbn [take drop]. refine (conj _ (conj _ (conj _ _))); try congruence.
    rewrite I4. unfold RingBuffer.pop in Hpop.
    destruct (buffer rb); injection Hpop as _ <-; reflexivity.
Qed.

Lemma push_all_contents (l : list Z) (rb : t) :
  wf rb ->
  let room := Z.to_nat (availableForWrite rb) in
  fst (push_all l rb) =
    replicate (min (length l) room) true ++ replicate (length l - room) false /\
  contents (snd (push_all l rb)) = contents rb ++ take room l /\
  wf (snd (push_all l rb)) /\
  readPos (snd (push_all l rb)) = readPos rb.
Proof using Hcap.
  revert rb. induction l as [| v l IH]; intros rb Hwf room.
  - cbn. rewrite take_nil, app_nil_r. refine (conj _ (conj _ (conj _ _))); try reflexivity; assumption.
  - cbn [RingBuffer.push_all].
    pose proof (push_taken v rb Hwf) as Hacc.
    pose proof (push_refused v rb Hwf) as Hrej.
    pose proof (wf_push N mask Hcap v rb Hwf) as Hwf1.
    pose proof (level_range rb Hwf) as Hl. pose proof (room_level rb Hwf) as Hroom.
    assert (Hrp : readPos (snd (push v rb)) = readPos rb).
    { unfold RingBuffer.push. destruct (buffer rb); [| reflexivity].
      destruct (_ =? _); reflexivity. }
    destruct (push v rb) as [ok rb1] eqn:Hpush. cbn [fst snd] in *.
    specialize (IH rb1 Hwf1). cbv zeta in IH. destruct IH as (I1 & I2 & I3 & I4).
    destruct (RingBuffer.push_all mask l rb1) as [oks rb2] eqn:Hrest.
    cbn [fst snd length] in *.
    destruct ok.
    + destruct (Hacc eq_refl) as (Hlt & A1 & A3).
      assert (Hpos : 0 < availableForWrite rb) by lia.
      assert (A2 : availableForWrite rb1 = availableForWrite rb - 1)
        by (rewrite (room_level rb1 Hwf1); lia).
      assert (Hr0 : exists r, room = S r /\ Z.to_nat (availableForWrite rb1) = r).
      { exists (room - 1)%nat. subst room. lia. }
      destruct Hr0 as (r & Hr0 & Hr1). clearbody room. subst room.
      rewrite Hr1 in *. rewrite I1, I2, A3, I4, Hrp.
      refine (conj _ (conj _ (conj _ _))); [| | assumption | reflexivity].
      * reflexivity.
      * cbn [take]. now rewrite <- app_assoc.
    + destruct (Hrej eq_refl) as (Hfull & Hsame). rewrite Hsame in *.
      assert (Hz : room = 0%nat) by (subst room; lia).
      fold room in I1, I2. rewrite Hz in *. rewrite I1, I2, I4.
      rewrite Nat.min_0_r, !Nat.sub_0_r, !take_0. cbn [replicate app].
      refine (conj _ (conj _ (conj _ _))); try reflexivity; assumption.
Qed.

(** X3: a producer that pushes a block of samples without looking at
    [availableForWrite] gets the first [availableForWrite] of them queued,
    in order behind what was queued before, and [false] for every later
    one; nothing queued is overwritten. *)
Theorem ring_push_all_overflow (l : list Z) (rb : t) :
  wf rb ->
  let room := Z.to_nat (availableForWrite rb) in
  fst (push_all l rb) =
    replicate (min (length l) room) true ++ replicate (length l - room) false /\
  contents (snd (push_all l rb)) = contents rb ++ take room l.
Proof using Hcap.
  intros Hwf room. destruct (push_all_contents l rb Hwf) as (H1 & H2 & _).
  split; assumption.
Qed.

(** X4: round trip.  Up to [N - 1] samples pushed into an empty ring and
    popped again come out unchanged and in order, and the ring is empty
    afterwards. *)
Theorem ring_fifo_round_trip (l : list Z) (rb : t) :
  wf rb -> availableForRead rb = 0 -> Z.of_nat (length l) <= N - 1 ->
  fst (pop_n mask (length l) (snd (push_all l rb))) = l /\
  availableForRead (snd (pop_n mask (length l) (snd (push_all l rb)))) = 0.
Proof using Hcap.
  intros Hwf Hempty Hlen.
  destruct (push_all_contents l rb Hwf) as (_ & Hc & Hwf1 & _). cbv zeta in Hc.
  assert (Hc0 : contents rb = []).
  { pose proof (length_contents rb Hwf) as H. rewrite Hempty in H.
    destruct (contents rb); [reflexivity | cbn in H; lia]. }
  rewrite (room_level rb Hwf), Hempty, Hc0 in Hc. cbn [app] in Hc.
  rewrite take_ge in Hc by lia.
  pose proof (length_contents _ Hwf1) as Hl1. rewrite Hc in Hl1.
  destruct (pop_n_contents (length l) _ Hwf1 ltac:(lia)) as (P1 & P2 & P3 & _).
  rewrite Hc in P1, P2. rewrite firstn_all in P1. split; [exact P1 |].
  rewrite <- (length_contents _ P3), P2, length_drop. lia.
Qed.

(** X5: on a ring that is neither empty nor full a [push] and a [pop]
    give the same results and the same final state in either order (the
    producer writes [writePos] and the cell under it, the consumer
    [readPos]; the cells differ). *)
Theorem ring_push_pop_commute (v : Z) (rb : t) :
  wf rb -> 0 < availableForRead rb -> 0 < availableForWrite rb ->
  fst (push v rb) = true /\
  fst (push v (snd (pop rb))) = true /\
  fst (pop (snd (push v rb))) = fst (pop rb) /\
  snd (pop (snd (push v rb))) = snd (push v (snd (pop rb))).
Proof using Hcap.
  intros Hwf Hr Hw. pose proof Hwf as ((b & Hb & Hlen) & Hrp & Hwp).
  pose proof (room_level rb Hwf) as Hroom.
  pose proof (next_cases N mask Hcap (writePos rb) Hwp) as Hnw.
  pose proof (next_cases N mask Hcap (readPos rb) Hrp) as Hnr.
  assert (Hne : readPos rb <> writePos rb).
  { intros E. apply (empty_iff_level N mask Hcap rb Hwf) in E. lia. }
  assert (Hnf : Z.land (writePos rb + 1) mask <> readPos rb).
  { intros E. apply (full_iff_level N mask Hcap rb Hwf) in E. lia. }
  assert (Hnf' : Z.land (writePos rb + 1) mask <> Z.land (readPos rb + 1) mask).
  { rewrite Hnw, Hnr.
    destruct (Z.ltb_spec (writePos rb + 1) N), (Z.ltb_spec (readPos rb + 1) N); lia. }
  unfold RingBuffer.push, RingBuffer.pop. rewrite Hb. cbn [fst snd buffer readPos writePos].
  destruct (Z.eqb_spec (Z.land (writePos rb + 1) mask) (readPos rb)); [contradiction |].
  cbn [fst snd buffer readPos writePos].
  destruct (Z.eqb_spec (Z.land (writePos rb + 1) mask) (Z.land (readPos rb + 1) mask));
    [contradiction |].
  cbn [fst snd].
  split; [reflexivity |]. split; [reflexivity |].
  split; [| reflexivity].
  rewrite list_lookup_insert_ne by lia. reflexivity.
Qed.

(** X6: a ring whose array was never allocated ([buffer == nullptr])
    ignores every call: [push] reports failure, [pop] returns 0, both
    counts are 0 and no sequence of calls changes the state. *)
Theorem ring_null_buffer (ops : list op) (v : Z) (rb : t) :
  buffer rb = None ->
  run ops rb = rb /\ push v rb = (false, rb) /\ pop rb = (0, rb) /\
  availableForRead rb = 0 /\ availableForWrite rb = 0.
Proof using Type.
  intros Hb. split.
  - induction ops as [| o ops IH]; [reflexivity |].
    cbn [RingBuffer.run fold_left]. 
    assert (Hs : step mask o rb = rb).
    { destruct o; unfold step, RingBuffer.push, RingBuffer.pop; now rewrite Hb. }
    rewrite Hs. exact IH.
  - unfold RingBuffer.push, RingBuffer.pop, RingBuffer.availableForRead,
      RingBuffer.availableForWrite. rewrite Hb. repeat split.
Qed.

End RingMore.

Lemma ring_indices_in_bounds_witness :
  exists b, RingBuffer.buffer (RingBuffer.run 3 [RingBuffer.Push 5; RingBuffer.Pop; RingBuffer.Pop] ring4) = Some b /\
    Z.of_nat (length b) = 4 /\
    (Z.to_nat (RingBuffer.readPos
       (RingBuffer.run 3 [RingBuffer.Push 5; RingBuffer.Pop; RingBuffer.Pop] ring4)) < length b)%nat /\
    (Z.to_nat (RingBuffer.writePos
       (RingBuffer.run 3 [RingBuffer.Push 5; RingBuffer.Pop; RingBuffer.Pop] ring4)) < length b)%nat /\
    0 <= RingBuffer.readPos
           (RingBuffer.run 3 [RingBuffer.Push 5; RingBuffer.Pop; RingBuffer.Pop] ring4) /\
    0 <= RingBuffer.writePos
           (RingBuffer.run 3 [RingBuffer.Push 5; RingBuffer.Pop; RingBuffer.Pop] ring4).
Proof.
  exact (ring_indices_in_bounds 4 3 ring4_capacity
           [RingBuffer.Push 5; RingBuffer.Pop; RingBuffer.Pop] ring4 ring4_wf).
Defined.

Lemma ring_push_iff_room_witness :
  RingBuffer.contents 4 3 (snd (RingBuffer.push 3 9 ring4)) =
  RingBuffer.contents 4 3 ring4 ++ [9].
Proof.
  apply (proj1 (proj2 (ring_push_iff_room 4 3 ring4_capacity 9 ring4 ring4_wf))).
  reflexivity.
Defined.

Lemma ring_push_all_overflow_witness :
  fst (RingBuffer.push_all 3 [1; 2; 3; 4; 5] ring4) = [true; true; true; false; false] /\
  RingBuffer.contents 4 3 (snd (RingBuffer.push_all 3 [1; 2; 3; 4; 5] ring4)) = [1; 2; 3].
Proof.
  exact (ring_push_all_overflow 4 3 ring4_capacity [1; 2; 3; 4; 5] ring4 ring4_wf).
Defined.

Lemma ring_fifo_round_trip_witness :
  fst (pop_n 3 3 (snd (RingBuffer.push_all 3 [7; 8; 9] ring4))) = [7; 8; 9] /\
  RingBuffer.availableForRead 4 3
    (snd (pop_n 3 3 (snd (RingBuffer.push_all 3 [7; 8; 9] ring4)))) = 0.
Proof.
  apply (ring_fifo_round_trip 4 3 ring4_capacity [7; 8; 9] ring4 ring4_wf).
  - reflexivity.
  - simpl. lia.
Defined.

Lemma ring_push_pop_commute_witness :
  snd (RingBuffer.pop 3 (snd (RingBuffer.push 3 6 (snd (RingBuffer.push 3 5 ring4))))) =
  snd (RingBuffer.push 3 6 (snd (RingBuffer.pop 3 (snd (RingBuffer.push 3 5 ring4))))).
Proof.
  apply (ring_push_pop_commute 4 3 ring4_capacity 6 (snd (RingBuffer.push 3 5 ring4))).
  - apply (wf_push 4 3 ring4_capacity 5 ring4 ring4_wf).
  - reflexivity.
  - reflexivity.
Defined.

Lemma ring_null_buffer_witness :
  RingBuffer.run 3 [RingBuffer.Push 1; RingBuffer.Pop] (RingBuffer.mk None 0 0) =
  RingBuffer.mk None 0 0.
Proof.
  apply (ring_null_buffer 4 3 [RingBuffer.Push 1; RingBuffer.Pop] 0 (RingBuffer.mk None 0 0)).
  reflexivity.
Defined.

(* ===================================================================== *)
(** * More about the parser                                               *)
(* ===================================================================== *)

(** Bits that do not overlap add up. *)
Lemma lor_shiftl_add (hi lo n : Z) :
  0 <= n -> 0 <= lo < 2 ^ n -> Z.lor (Z.shiftl hi n) lo = hi * 2 ^ n + lo.
Proof.
  intros Hn Hlo. rewrite Z.shiftl_mul_pow2 by lia.
  assert (Hdis : Z.land (hi * 2 ^ n) lo = 0).
  { apply Z.bits_inj'. intros k Hk. rewrite Z.land_spec, Z.bits_0.
    destruct (Z.lt_ge_cases k n) as [Hlt | Hge].
    - rewrite Z.mul_pow2_bits_low by lia. reflexivity.
    - rewrite <- (Z.mod_small lo (2 ^ n)) by lia.
      rewrite Z.mod_pow2_bits_high by lia. apply andb_false_r. }
  rewrite <- Z.lxor_lor by exact Hdis. now rewrite <- Z.add_nocarry_lxor.
Qed.

Lemma be_word_value (b0 b1 b2 b3 : Z) :
  0 <= b0 < 256 -> 0 <= b1 < 256 -> 0 <= b2 < 256 -> 0 <= b3 < 256 ->
  be_word b0 b1 b2 b3 = b0 * 2 ^ 24 + b1 * 2 ^ 16 + b2 * 2 ^ 8 + b3.
Proof.
  intros H0 H1 H2 H3. unfold be_word.
  assert (E1 : Z.lor (Z.shiftl b0 24) (Z.shiftl b1 16) = Z.shiftl (b0 * 2 ^ 8 + b1) 16).
  { rewrite !Z.shiftl_mul_pow2 by lia.
    replace (b0 * 2 ^ 24) with (Z.shiftl b0 24) by (rewrite Z.shiftl_mul_pow2; lia).
    rewrite lor_shiftl_add by lia. lia. }
  rewrite E1.
  assert (E2 : Z.lor (Z.shiftl (b0 * 2 ^ 8 + b1) 16) (Z.shiftl b2 8)
               = Z.shiftl (b0 * 2 ^ 16 + b1 * 2 ^ 8 + b2) 8).
  { rewrite (Z.shiftl_mul_pow2 b2), (Z.shiftl_mul_pow2 (b0 * 2 ^ 16 + b1 * 2 ^ 8 + b2)) by lia.
    rewrite lor_shiftl_add by lia. lia. }
  rewrite E2, lor_shiftl_add by lia.
  rewrite wrap32_small by lia. lia.
Qed.

(** X7: [readUI32BE] is a big-endian read.  With four bytes left in the
    file it returns [b0 * 2^24 + b1 * 2^16 + b2 * 2^8 + b3] for the bytes
    [b0 b1 b2 b3] under the handle and moves the handle on by four. *)
Theorem readUI32BE_big_endian (stale : Z -> Z) (p : MP4Parser) (b0 b1 b2 b3 : Z) :
  0 <= fpos p ->
  take 4 (drop (Z.to_nat (fpos p)) (fdata p)) = [b0; b1; b2; b3] ->
  0 <= b0 < 256 -> 0 <= b1 < 256 -> 0 <= b2 < 256 -> 0 <= b3 < 256 ->
  readUI32BE stale p =
    (b0 * 2 ^ 24 + b1 * 2 ^ 16 + b2 * 2 ^ 8 + b3, set_fpos (fpos p + 4) p).
Proof.
  intros Hpos Hbytes H0 H1 H2 H3.
  rewrite (readUI32BE_file stale p (be_word (u8 b0) (u8 b1) (u8 b2) (u8 b3))).
  - unfold u8. rewrite !Z.mod_small by lia. now rewrite be_word_value.
  - unfold file_u32. rewrite Hbytes.
    destruct (Z.leb_spec 0 (fpos p)); [reflexivity | lia].
Qed.

Lemma readUI32BE_big_endian_witness :
  readUI32BE no_stale (set_fpos 4 (opened audio_file)) =
    (102 * 2 ^ 24 + 116 * 2 ^ 16 + 121 * 2 ^ 8 + 112,
     set_fpos (4 + 4) (set_fpos 4 (opened audio_file))).
Proof.
  apply (readUI32BE_big_endian no_stale (set_fpos 4 (opened audio_file)) 102 116 121 112);
    first [reflexivity | simpl; lia | lia].
Defined.
(** Case analysis on a small number. *)
Ltac small_cases x :=
  match goal with
  | H : 0 <= x < 4 |- _ =>
      assert (x = 0 \/ x = 1 \/ x = 2 \/ x = 3) as [-> | [-> | [-> | ->]]] by lia
  | H : 0 <= x < 8 |- _ =>
      assert (x = 0 \/ x = 1 \/ x = 2 \/ x = 3 \/ x = 4 \/ x = 5 \/ x = 6 \/ x = 7)
        as [-> | [-> | [-> | [-> | [-> | [-> | [-> | ->]]]]]]] by lia
  end.

Lemma generateAdtsHeader_bytes (header : list Z) (len profile rate chans : Z) :
  (7 <= length header)%nat ->
  let h := generateAdtsHeader header len profile rate chans in
  header_byte h 0 = 0xFF /\ header_byte h 1 = 0xF1 /\
  header_byte h 2 = u8 (Z.lor (Z.lor (Z.shiftl 1 6) (Z.shiftl (freqIdx_of rate) 2))
                              (Z.land (Z.shiftr chans 2) 0x01)) /\
  header_byte h 3 = u8 (Z.lor (Z.shiftl (Z.land chans 0x03) 6) (Z.shiftr len 11)) /\
  header_byte h 4 = u8 (Z.land (Z.shiftr len 3) 0xFF) /\
  header_byte h 5 = u8 (Z.lor (Z.shiftl (Z.land len 0x07) 5) 0x1F) /\
  header_byte h 6 = 0xFC /\
  drop 7 h = drop 7 header.
Proof.
  intros Hlen h. subst h. unfold header_byte, generateAdtsHeader.
  repeat split;
    try (rewrite ?list_lookup_insert_ne by lia;
         rewrite list_lookup_insert_eq by (rewrite ?length_insert; lia); reflexivity).
  rewrite !drop_insert_lt by lia. reflexivity.
Qed.

(** Profile, channel count and frame length can be read back. *)
Lemma header_profile_generate (header : list Z) (len profile rate chans : Z) :
  (7 <= length header)%nat -> 0 <= chans < 8 ->
  header_profile (generateAdtsHeader header len profile rate chans) = 1.
Proof.
  intros Hlen Hc.
  destruct (generateAdtsHeader_bytes header len profile rate chans Hlen)
    as (_ & _ & B2 & _).
  unfold header_profile. rewrite B2.
  pose proof (freqIdx_of_range rate) as Hf.
  assert (Hfi : freqIdx_of rate = 0 \/ freqIdx_of rate = 1 \/ freqIdx_of rate = 2 \/
                freqIdx_of rate = 3 \/ freqIdx_of rate = 4 \/ freqIdx_of rate = 5 \/
                freqIdx_of rate = 6 \/ freqIdx_of rate = 7 \/ freqIdx_of rate = 8 \/
                freqIdx_of rate = 9) by lia.
  clear -Hc Hfi.
  small_cases chans;
    repeat (destruct Hfi as [-> | Hfi]; [reflexivity |]); rewrite Hfi; reflexivity.
Qed.

Lemma header_channels_generate (header : list Z) (len profile rate chans : Z) :
  (7 <= length header)%nat -> 0 <= len < 8192 -> 0 <= chans < 8 ->
  header_channels (generateAdtsHeader header len profile rate chans) = chans.
Proof.
  intros Hlen Hl Hc.
  destruct (generateAdtsHeader_bytes header len profile rate chans Hlen)
    as (_ & _ & B2 & B3 & _).
  unfold header_channels. rewrite B2, B3.
  pose proof (freqIdx_of_range rate) as Hf.
  assert (Hfi : freqIdx_of rate = 0 \/ freqIdx_of rate = 1 \/ freqIdx_of rate = 2 \/
                freqIdx_of rate = 3 \/ freqIdx_of rate = 4 \/ freqIdx_of rate = 5 \/
                freqIdx_of rate = 6 \/ freqIdx_of rate = 7 \/ freqIdx_of rate = 8 \/
                freqIdx_of rate = 9) by lia.
  set (a := Z.shiftr len 11) in *.
  assert (Ha : 0 <= a < 4).
  { subst a. rewrite Z.shiftr_div_pow2 by lia. change (2 ^ 11) with 2048.
    split; [apply Z.div_pos; lia | apply Z.div_lt_upper_bound; lia]. }
  clearbody a. clear -Hc Ha Hfi.
  small_cases chans; small_cases a;
    repeat (destruct Hfi as [-> | Hfi]; [reflexivity |]); rewrite Hfi; reflexivity.
Qed.

Lemma header_frameLength_generate (header : list Z) (len profile rate chans : Z) :
  (7 <= length header)%nat -> 0 <= len < 8192 -> 0 <= chans < 8 ->
  header_frameLength (generateAdtsHeader header len profile rate chans) = len.
Proof.
  intros Hlen Hl Hc.
  destruct (generateAdtsHeader_bytes header len profile rate chans Hlen)
    as (_ & _ & _ & B3 & B4 & B5 & _).
  unfold header_frameLength. rewrite B3, B4, B5.
  set (a := Z.shiftr len 11).
  assert (Hav : a = len / 2048)
    by (subst a; rewrite Z.shiftr_div_pow2 by lia; reflexivity).
  assert (Ha : 0 <= a < 4).
  { rewrite Hav. split; [apply Z.div_pos; lia | apply Z.div_lt_upper_bound; lia]. }
  set (c := Z.land len 7).
  assert (Hcv : c = len mod 8).
  { subst c. change 7 with (Z.ones 3). now rewrite Z.land_ones by lia. }
  assert (Hcr : 0 <= c < 8) by (rewrite Hcv; apply Z.mod_pos_bound; lia).
  assert (Hb : Z.land (Z.shiftr len 3) 255 = (len / 8) mod 256).
  { change 255 with (Z.ones 8). rewrite Z.land_ones, Z.shiftr_div_pow2 by lia. reflexivity. }
  assert (Hbr : 0 <= (len / 8) mod 256 < 256) by (apply Z.mod_pos_bound; lia).
  rewrite Hb.
  assert (E3 : Z.land (u8 (Z.lor (Z.shiftl (Z.land chans 3) 6) a)) 3 = a).
  { clearbody a. clear -Hc Ha. small_cases chans; small_cases a; reflexivity. }
  assert (E5 : Z.shiftr (u8 (Z.lor (Z.shiftl c 5) 31)) 5 = c).
  { clearbody c. clear -Hcr. small_cases c; reflexivity. }
  rewrite E3, E5. unfold u8. rewrite (Z.mod_small ((len / 8) mod 256)) by lia.
  rewrite (Z.shiftl_mul_pow2 ((len / 8) mod 256)) by lia.
  rewrite lor_shiftl_add by lia.
  replace (a * 2 ^ 11 + (len / 8) mod 256 * 2 ^ 3)
    with (Z.shiftl (a * 256 + (len / 8) mod 256) 3)
    by (rewrite Z.shiftl_mul_pow2; lia).
  rewrite lor_shiftl_add by lia.
  rewrite Hav, Hcv. change (2 ^ 3) with 8.
  clear. replace (len / 2048) with (len / 8 / 256) by (rewrite Z.div_div by lia; reflexivity).
  pose proof (Z_div_mod_eq_full len 8). pose proof (Z_div_mod_eq_full (len / 8) 256).
  lia.
Qed.

(** X8: the header [generateAdtsHeader] writes decodes to what it was
    given.  For a frame length below 2^13 and a channel count below 8 the
    seven bytes start with the sync pattern FF F1, carry profile bits 01,
    the channel count and the frame length in their fields and end in
    FC; the array behind the seven bytes is left alone. *)
Theorem adts_header_fields (header : list Z) (len profile rate chans : Z) :
  (7 <= length header)%nat -> 0 <= len < 8192 -> 0 <= chans < 8 ->
  let h := generateAdtsHeader header len profile rate chans in
  header_byte h 0 = 0xFF /\ header_byte h 1 = 0xF1 /\ header_byte h 6 = 0xFC /\
  header_profile h = 1 /\
  header_channels h = chans /\
  header_frameLength h = len /\
  drop 7 h = drop 7 header.
Proof.
  intros Hlen Hl Hc h. subst h.
  destruct (generateAdtsHeader_bytes header len profile rate chans Hlen)
    as (B0 & B1 & _ & _ & _ & _ & B6 & Htail).
  split; [exact B0 |]. split; [exact B1 |]. split; [exact B6 |].
  split; [now apply header_profile_generate |].
  split; [now apply header_channels_generate |].
  split; [now apply header_frameLength_generate | exact Htail].
Qed.

Lemma adts_header_fields_witness :
  header_frameLength (generateAdtsHeader [0; 0; 0; 0; 0; 0; 0; 9] 17 2 44100 2) = 17 /\
  header_channels (generateAdtsHeader [0; 0; 0; 0; 0; 0; 0; 9] 17 2 44100 2) = 2.
Proof.
  pose proof (adts_header_fields [0; 0; 0; 0; 0; 0; 0; 9] 17 2 44100 2) as H.
  cbv zeta in H.
  destruct H as (_ & _ & _ & _ & Hc & Hl & _); [simpl; lia | lia | lia |].
  split; assumption.
Defined.

Section StsdFacts.

Variable stale : Z -> Z.

(** A relative seek and a read, from a handle at [k]. *)
Lemma seek_at (k j : Z) (p : MP4Parser) :
  0 <= k -> 0 <= j -> k + j < 2 ^ 32 -> k + j <= Z.of_nat (length (fdata p)) ->
  seek (getPos (set_fpos k p) + j) (set_fpos k p) = set_fpos (k + j) p.
Proof.
  intros Hk Hj Hlt Hin. unfold getPos. cbn [fpos set_fpos].
  rewrite (wrap32_small k) by lia.
  rewrite seek_in by (cbn [fdata set_fpos]; rewrite wrap32_small; lia).
  rewrite wrap32_small by lia. apply set_fpos_set_fpos.
Qed.

Lemma read_at (k : Z) (p : MP4Parser) (v : Z) :
  file_u32 (fdata p) k = Some v ->
  readUI32BE stale (set_fpos k p) = (v, set_fpos (k + 4) p).
Proof.
  intros H. rewrite (readUI32BE_file stale (set_fpos k p) v) by exact H.
  now destruct p.
Qed.

Lemma set_channels_fpos (c k : Z) (p : MP4Parser) :
  set_channels c (set_fpos k p) = set_fpos k (set_channels c p).
Proof. now destruct p. Qed.

Lemma set_fpos_same (p : MP4Parser) : set_fpos (fpos p) p = p.
Proof. now destruct p. Qed.

(** X9: what [parseStsd] takes from the sample description.  With the
    handle at the payload of the box and the 44 bytes it looks at inside
    the file, the call answers whether the format word at offset 12 is
    'mp4a'; if so it stores the low byte of the 16-bit channel count at
    offset 32 and the integer part of the 16.16 sample rate at offset 40
    and leaves the handle at offset 44; otherwise both fields stay as
    they were and the handle is at offset 16. *)
Theorem parseStsd_decode (atomSize : Z) (p : MP4Parser) (format w r : Z) :
  0 <= fpos p ->
  fpos p + 44 <= Z.of_nat (length (fdata p)) ->
  Z.of_nat (length (fdata p)) < 2 ^ 32 ->
  file_u32 (fdata p) (fpos p + 12) = Some format ->
  file_u32 (fdata p) (fpos p + 32) = Some w ->
  file_u32 (fdata p) (fpos p + 40) = Some r ->
  let res := parseStsd stale atomSize p in
  fst res = (format =? 0x6D703461) /\
  fdata (snd res) = fdata p /\
  (format = 0x6D703461 ->
     channels (snd res) = (w / 2 ^ 16) mod 256 /\
     sampleRate (snd res) = r / 2 ^ 16 /\
     fpos (snd res) = fpos p + 44) /\
  (format <> 0x6D703461 ->
     channels (snd res) = channels p /\
     sampleRate (snd res) = sampleRate p /\
     fpos (snd res) = fpos p + 16).
Proof.
  intros H0 Hlen H32 Hfmt Hw Hr res. subst res.
  destruct (file_u32_some (fdata p) (fpos p + 8) ltac:(lia) ltac:(lia)) as (size & Hsize).
  assert (Hres : parseStsd stale atomSize (set_fpos (fpos p) p) =
            if format =? 0x6D703461
            then (true, set_sampleRate (Z.shiftr r 16)
                          (set_fpos (fpos p + 44)
                             (set_channels (u8 (Z.shiftr w 16 mod 2 ^ 16)) p)))
            else (false, set_fpos (fpos p + 16) p)).
  { unfold parseStsd.
    rewrite (seek_at (fpos p) 8) by lia.
    rewrite (read_at _ p size) by exact Hsize.
    rewrite (read_at _ p format)
      by (replace (fpos p + 8 + 4) with (fpos p + 12) by lia; exact Hfmt).
    destruct (format =? 1836069985).
    - rewrite (seek_at _ 8) by lia. rewrite (seek_at _ 8) by lia.
      rewrite (read_at _ p w)
        by (replace (fpos p + 8 + 4 + 4 + 8 + 8) with (fpos p + 32) by lia; exact Hw).
      rewrite set_channels_fpos.
      rewrite (seek_at _ 4) by (cbn [fdata set_channels]; lia).
      rewrite (read_at _ _ r)
        by (replace (fpos p + 8 + 4 + 4 + 8 + 8 + 4 + 4) with (fpos p + 40) by lia;
            exact Hr).
      do 3 f_equal. lia.
    - do 2 f_equal. lia. }
  rewrite set_fpos_same in Hres. rewrite Hres. clear Hres.
  destruct (Z.eqb_spec format 1836069985) as [E | E];
    cbn [fst snd fpos fdata channels sampleRate set_fpos set_sampleRate set_channels].
  - split; [reflexivity |]. split; [reflexivity |].
    split; [| intros Hne; contradiction]. intros _.
    destruct (file_u32_bound _ _ _ Hw) as (_ & _ & Hwr).
    rewrite !Z.shiftr_div_pow2 by lia. unfold u8.
    split; [| split; reflexivity].
    rewrite (Z.mod_small (w / 2 ^ 16) (2 ^ 16)); [reflexivity |].
    split; [apply Z.div_pos; lia | apply Z.div_lt_upper_bound; lia].
  - split; [reflexivity |]. split; [reflexivity |].
    split; [intros Heq; contradiction |]. intros _.
    split; [reflexivity |]. split; reflexivity.
Qed.

(** X10: whatever the file holds, a sample description that [parseStsd]
    accepts leaves a sample rate below 2^16 and a channel count below
    2^8 in the parser, so the ladder of [generateAdtsHeader] never gives
    such a track the indices 0 and 1 (96000 and 88200 Hz); a sample
    description it refuses leaves both fields as they were. *)
Theorem parseStsd_rate_16bit (atomSize : Z) (p : MP4Parser) :
  let res := parseStsd stale atomSize p in
  (fst res = true ->
     0 <= sampleRate (snd res) < 2 ^ 16 /\ 0 <= channels (snd res) < 2 ^ 8 /\
     2 <= freqIdx_of (to_int (sampleRate (snd res)))) /\
  (fst res = false ->
     sampleRate (snd res) = sampleRate p /\ channels (snd res) = channels p).
Proof.
  intros res. subst res. unfold parseStsd.
  rewrite (readUI32BE_split stale (seek (getPos p + 8) p)).
  set (p1 := snd (readUI32BE stale (seek (getPos p + 8) p))).
  rewrite (readUI32BE_split stale p1).
  set (p2 := snd (readUI32BE stale p1)).
  destruct (fst (readUI32BE stale p1) =? 1836069985).
  - set (p3 := seek (getPos (seek (getPos p2 + 8) p2) + 8) (seek (getPos p2 + 8) p2)).
    rewrite (readUI32BE_split stale p3).
    set (w := fst (readUI32BE stale p3)).
    set (p4 := snd (readUI32BE stale p3)).
    set (p5 := seek _ (set_channels (u8 (Z.shiftr w 16 mod 2 ^ 16)) p4)).
    rewrite (readUI32BE_split stale p5).
    set (r := fst (readUI32BE stale p5)).
    cbn [fst snd].
    assert (Hr : 0 <= r < 2 ^ 32) by apply be_word_range.
    assert (Hrate : 0 <= Z.shiftr r 16 < 2 ^ 16).
    { rewrite Z.shiftr_div_pow2 by lia.
      split; [apply Z.div_pos; lia | apply Z.div_lt_upper_bound; lia]. }
    split; [| discriminate]. intros _.
    change (sampleRate (set_sampleRate (Z.shiftr r 16) (snd (readUI32BE stale p5))))
      with (Z.shiftr r 16).
    change (channels (set_sampleRate (Z.shiftr r 16) (snd (readUI32BE stale p5))))
      with (channels p5).
    assert (Hch : channels p5 = u8 (Z.shiftr w 16 mod 2 ^ 16))
      by (subst p5; now rewrite channels_seek).
    rewrite Hch.
    split; [exact Hrate |].
    split; [unfold u8; apply Z.mod_pos_bound; lia |].
    unfold to_int. rewrite wrap32_small by lia.
    destruct (Z.ltb_spec (Z.shiftr r 16) (2 ^ 31)); [| lia].
    unfold freqIdx_of.
    repeat match goal with
           | |- context [?t <=? ?x] => destruct (Z.leb_spec t x); try lia
           end.
  - cbn [fst snd]. split; [discriminate |]. intros _.
    change (sampleRate p2) with (sampleRate (seek (getPos p + 8) p)).
    change (channels p2) with (channels (seek (getPos p + 8) p)).
    now rewrite sampleRate_seek, channels_seek.
Qed.

End StsdFacts.

Lemma parseStsd_decode_witness :
  channels (snd (parseStsd no_stale 0
                   (set_fpos 8 (set_fdata (sample_stsd ++ [0; 0; 0; 0]) MP4Parser_new))))
    = (0x00020010 / 2 ^ 16) mod 256 /\
  sampleRate (snd (parseStsd no_stale 0
                     (set_fpos 8 (set_fdata (sample_stsd ++ [0; 0; 0; 0]) MP4Parser_new))))
    = 0xAC440000 / 2 ^ 16.
Proof.
  pose proof (parseStsd_decode no_stale 0
                (set_fpos 8 (set_fdata (sample_stsd ++ [0; 0; 0; 0]) MP4Parser_new))
                0x6D703461 0x00020010 0xAC440000) as H.
  cbv zeta in H.
  destruct H as (_ & _ & H & _);
    first [reflexivity | simpl; lia | vm_compute; congruence | idtac].
  destruct (H eq_refl) as (Hc & Hs & _). split; assumption.
Defined.

Lemma parseStsd_rate_16bit_witness :
  0 <= sampleRate (snd (parseStsd no_stale 0
                          (set_fpos 8 (set_fdata sample_stsd MP4Parser_new)))) < 2 ^ 16.
Proof.
  apply (proj1 (parseStsd_rate_16bit no_stale 0
                  (set_fpos 8 (set_fdata sample_stsd MP4Parser_new)))).
  reflexivity.
Defined.

Section FrameMore.

Variable stale : Z -> Z.

(** X11: [open] always comes back, and when it answers [true] the file
    was found, the three table offsets are set and the cursor stands at
    sample 0 of chunk 1; the samples-per-chunk is the second word of the
    first run of the sample-to-chunk table (the word 4 bytes behind
    [stscOffset + 16]) whenever the file holds that word, and the chunk
    offset is the first entry of the chunk-offset table (the word at
    [stcoOffset + 16]) whenever the file holds that one.  The positions are
    computed in 32 bits. *)
Theorem open_establishes (fuel : nat) (found : option (list Z)) (isFlash : bool)
    (p0 : MP4Parser) :
  (1000 < fuel)%nat ->
  exists ok p, open stale fuel found isFlash p0 = Some (ok, p) /\
    (ok = true ->
     found = Some (fdata p) /\
     stszOffset p <> 0 /\ stcoOffset p <> 0 /\ stscOffset p <> 0 /\
     currentSample p = 0 /\ currentChunk p = 1 /\ samplesReadInChunk p = 0 /\
     (forall K, file_u32 (fdata p) (wrap32 (stscOffset p + 16) + 4) = Some K ->
                samplesInCurrentChunk p = K) /\
     (forall O, file_u32 (fdata p) (wrap32 (stcoOffset p + 16)) = Some O ->
                currentOffset p = O)).
Proof.
  intros Hfuel.
  destruct (open_total stale fuel found isFlash Hfuel p0) as ([ok p] & Hopen).
  exists ok, p. split; [exact Hopen |]. intros ->.
  destruct found as [d |].
  - destruct (open_success stale d fuel isFlash p0 p Hopen) as (Hd & Hrest).
    split; [now rewrite Hd | rewrite Hd; exact Hrest].
  - unfold open in Hopen. rewrite bind_exec, bind_exec in Hopen.
    unfold ret in Hopen. discriminate.
Qed.






(** The array a frame is read into: the header, and behind it the bytes
    the read delivers from where the handle stands after the seek. *)
Lemma read_frame_out (buffer : list Z) (fs : Z) (q : MP4Parser) :
  snd (fst (read_frame buffer fs q)) =
  write_at 7 (fst (read fs (seek (currentOffset q) q)))
    (generateAdtsHeader buffer (to_int (fs + 7)) 2 (to_int (sampleRate q)) (channels q)).
Proof.
  unfold read_frame. cbv zeta. cbn [fst snd read].
  now rewrite sampleRate_seek, channels_seek.
Qed.

(** X13: a frame inside a chunk.  A call that passes the guards while the
    chunk still has samples left, with [currentOffset] not behind the end
    of the file, returns [frameSize + 7], which fits the buffer size; the
    payload is the file bytes from [currentOffset] on, [frameSize] of them
    when the file has that many, copied behind the header; and the cursor
    moves on by one sample and by [frameSize] bytes, so that the next frame
    of the chunk is read from where this one ended. *)
Theorem readNextFrame_within_chunk (buffer : list Z) (bufferSize : Z) (p : MP4Parser) :
  guards_pass stale bufferSize p = true ->
  samplesReadInChunk p < samplesInCurrentChunk p ->
  next_frameSize stale p + 7 < 2 ^ 32 ->
  wrap32 (currentOffset p) <= Z.of_nat (length (fdata p)) ->
  let fs := next_frameSize stale p in
  let r := readNextFrame stale buffer bufferSize p in
  let payload := take (Z.to_nat fs) (drop (Z.to_nat (wrap32 (currentOffset p))) (fdata p)) in
  fst (fst r) = fs + 7 /\ fs + 7 <= bufferSize /\
  (wrap32 (currentOffset p) + fs <= Z.of_nat (length (fdata p)) ->
   length payload = Z.to_nat fs) /\
  ((7 + length payload <= length buffer)%nat ->
   take (length payload) (drop 7 (snd (fst r))) = payload) /\
  currentOffset (snd r) = wrap32 (currentOffset p + fs) /\
  currentSample (snd r) = wrap32 (currentSample p + 1) /\
  samplesReadInChunk (snd r) = wrap32 (samplesReadInChunk p + 1) /\
  currentChunk (snd r) = currentChunk p /\
  samplesInCurrentChunk (snd r) = samplesInCurrentChunk p /\
  fdata (snd r) = fdata p.
Proof.
  intros Hg Hin Hfs Hoff fs r payload.
  assert (Hnn : 0 <= fs) by apply next_frameSize_range.
  set (q := after_size stale p).
  destruct (after_size_fields stale p)
    as (Ad & _ & _ & _ & _ & _ & As & Ac & Ai & Ar & Ao).
  fold q in Ad, As, Ac, Ai, Ar, Ao.
  assert (Hr : r = read_frame buffer fs q).
  { subst r. rewrite (readNextFrame_passed stale buffer bufferSize p Hg).
    destruct (Z.leb_spec (samplesInCurrentChunk p) (samplesReadInChunk p)); [lia |].
    reflexivity. }
  unfold guards_pass in Hg. rewrite !andb_true_iff in Hg. destruct Hg as (_ & Hb).
  apply Z.leb_le in Hb. fold fs in Hb. rewrite wrap32_small in Hb by lia.
  rewrite Hr.
  destruct (read_frame_fields buffer fs q) as (F1 & F2 & F3 & F4 & F5 & F6).
  rewrite F1, wrap32_small by lia.
  split; [reflexivity |]. split; [exact Hb |].
  split.
  { intros Hfit. subst payload. rewrite length_take, length_drop.
    pose proof (wrap32_range (currentOffset p)). lia. }
  split.
  { intros Hlen. rewrite read_frame_payload by (now rewrite Ao, Ad).
    rewrite Ao, Ad. fold payload.
    apply write_at_read. rewrite length_generateAdtsHeader. exact Hlen. }
  split; [now rewrite F5, Ao |]. split; [now rewrite F6, As |].
  split; [now rewrite F4, Ar |].
  split; [now rewrite F2, Ac |]. split; [now rewrite F3, Ai |].
  rewrite <- Ad. apply (read_frame_tables buffer fs q).
Qed.

Lemma next_chunk_track (p : MP4Parser) :
  sampleRate (next_chunk stale p) = sampleRate p /\
  channels (next_chunk stale p) = channels p.
Proof.
  pose proof (next_chunk_spec stale p) as H. cbv zeta in H. rewrite H.
  split; reflexivity.
Qed.

(** X14: the header of an emitted frame.  For a call that passes the
    guards with a frame shorter than 2^13 - 7 bytes and a channel count
    below 8, the seven bytes in front of the payload start with FF F1,
    and their frame length field is the byte count the call returns;
    the channel field and the frequency index are those of the track. *)
Theorem readNextFrame_header (buffer : list Z) (bufferSize : Z) (p : MP4Parser) :
  guards_pass stale bufferSize p = true ->
  (7 <= length buffer)%nat ->
  next_frameSize stale p + 7 < 8192 ->
  0 <= channels p < 8 ->
  let r := readNextFrame stale buffer bufferSize p in
  let out := snd (fst r) in
  header_byte out 0 = 0xFF /\ header_byte out 1 = 0xF1 /\
  header_frameLength out = fst (fst r) /\
  header_channels out = channels p /\
  header_freqIdx out = freqIdx_of (to_int (sampleRate p)) /\
  length out = length buffer.
Proof.
  intros Hg Hlen Hfs Hch r out.
  set (fs := next_frameSize stale p) in *.
  assert (Hnn : 0 <= fs) by apply next_frameSize_range.
  set (q := if samplesInCurrentChunk p <=? samplesReadInChunk p
            then next_chunk stale (after_size stale p) else after_size stale p).
  assert (Hq : sampleRate q = sampleRate p /\ channels q = channels p).
  { destruct (after_size_fields stale p) as (_ & _ & _ & _ & As & Ac & _).
    subst q. destruct (_ <=? _).
    - destruct (next_chunk_track (after_size stale p)) as (-> & ->). now split.
    - now split. }
  destruct Hq as (Hsr & Hcq).
  assert (Hr : r = read_frame buffer fs q).
  { subst r q. apply (readNextFrame_passed stale buffer bufferSize p Hg). }
  set (got := fst (read fs (seek (currentOffset q) q))).
  assert (Hout : out = write_at 7 got
                         (generateAdtsHeader buffer (fs + 7) 2 (to_int (sampleRate p))
                            (channels p))).
  { subst out. rewrite Hr, read_frame_out, Hsr, Hcq. fold got.
    unfold to_int at 1. rewrite (wrap32_small (fs + 7)) by lia.
    destruct (Z.ltb_spec (fs + 7) (2 ^ 31)); [reflexivity | lia]. }
  assert (Hret : fst (fst r) = fs + 7).
  { rewrite Hr. destruct (read_frame_fields buffer fs q) as (F1 & _).
    rewrite F1. apply wrap32_small. lia. }
  set (hdr := generateAdtsHeader buffer (fs + 7) 2 (to_int (sampleRate p)) (channels p))
    in *.
  assert (Hb : forall i, (i < 7)%nat -> header_byte out i = header_byte hdr i).
  { intros i Hi. unfold header_byte. rewrite Hout. now rewrite write_at_lookup_lt by lia. }
  destruct (generateAdtsHeader_bytes buffer (fs + 7) 2 (to_int (sampleRate p)) (channels p)
              Hlen) as (B0 & B1 & _).
  pose proof (header_channels_generate buffer (fs + 7) 2 (to_int (sampleRate p))
                (channels p) Hlen ltac:(lia) Hch) as Bc.
  pose proof (header_frameLength_generate buffer (fs + 7) 2 (to_int (sampleRate p))
                (channels p) Hlen ltac:(lia) Hch) as Bl.
  fold hdr in B0, B1, Bc, Bl.
  split; [rewrite Hb by lia; exact B0 |].
  split; [rewrite Hb by lia; exact B1 |].
  split; [unfold header_frameLength; rewrite !Hb by lia; rewrite Hret; exact Bl |].
  split; [unfold header_channels; rewrite !Hb by lia; exact Bc |].
  split.
  - unfold header_freqIdx. fold (header_byte out 2). rewrite Hb by lia.
    apply (header_freqIdx_generate buffer (fs + 7) 2 (to_int (sampleRate p)) (channels p) Hlen).
  - rewrite Hout. subst hdr.
    rewrite <- (length_generateAdtsHeader buffer (fs + 7) 2 (to_int (sampleRate p))
                  (channels p)).
    generalize (generateAdtsHeader buffer (fs + 7) 2 (to_int (sampleRate p)) (channels p)).
    generalize 7%nat.
    generalize got.
    intros src. induction src as [| x src IH]; intros at_ dst; [reflexivity |].
    cbn [write_at]. rewrite IH. apply length_insert.
Qed.

End FrameMore.

Lemma open_establishes_witness :
  exists ok p, open no_stale 1001 (Some audio_file) false MP4Parser_new = Some (ok, p) /\
    (ok = true ->
     Some audio_file = Some (fdata p) /\
     stszOffset p <> 0 /\ stcoOffset p <> 0 /\ stscOffset p <> 0 /\
     currentSample p = 0 /\ currentChunk p = 1 /\ samplesReadInChunk p = 0 /\
     (forall K, file_u32 (fdata p) (wrap32 (stscOffset p + 16) + 4) = Some K ->
                samplesInCurrentChunk p = K) /\
     (forall O, file_u32 (fdata p) (wrap32 (stcoOffset p + 16)) = Some O ->
                currentOffset p = O)).
Proof.
  apply (open_establishes no_stale 1001 (Some audio_file) false MP4Parser_new). lia.
Defined.


Lemma readNextFrame_within_chunk_witness :
  fst (fst (readNextFrame no_stale (replicate 17 0) 17 (opened audio_file)))
    = next_frameSize no_stale (opened audio_file) + 7 /\
  currentOffset (snd (readNextFrame no_stale (replicate 17 0) 17 (opened audio_file)))
    = wrap32 (currentOffset (opened audio_file)
              + next_frameSize no_stale (opened audio_file)).
Proof.
  pose proof (readNextFrame_within_chunk no_stale (replicate 17 0) 17 (opened audio_file))
    as H.
  cbv zeta in H.
  destruct H as (H1 & _ & _ & _ & H2 & _);
    [vm_compute; reflexivity | vm_compute; reflexivity | vm_compute; reflexivity
    | apply Z.leb_le; vm_compute; reflexivity |].
  split; assumption.
Defined.

Lemma readNextFrame_header_witness :
  header_frameLength
    (snd (fst (readNextFrame no_stale (replicate 17 0) 17 (opened audio_file))))
  = fst (fst (readNextFrame no_stale (replicate 17 0) 17 (opened audio_file))).
Proof.
  pose proof (readNextFrame_header no_stale (replicate 17 0) 17 (opened audio_file)) as H.
  cbv zeta in H.
  destruct H as (_ & _ & H & _);
    [vm_compute; reflexivity | simpl; lia | vm_compute; reflexivity
    | vm_compute; split; [discriminate | reflexivity] |].
  exact H.
Defined.

Section FrameWrap.

Variable stale : Z -> Z.

(** X27: the size check wraps.  [frameSize + 7 > bufferSize] is computed
    in 32 bits, so a stored frame size of 2^32 - 7 or more passes it for
    every buffer size from 6 on: the call returns [frameSize + 7 - 2^32],
    a count below 7, and the read behind the header asks for [frameSize]
    bytes, which on a file shorter than that, with [currentOffset] not
    behind its end, is everything from [currentOffset] to the end of the
    file, whatever the buffer size. *)
Theorem readNextFrame_size_wrap (buffer : list Z) (bufferSize : Z) (p : MP4Parser) :
  stszOffset p <> 0 -> currentSample p < stsz_count stale p ->
  2 ^ 32 - 7 <= next_frameSize stale p -> 6 <= bufferSize ->
  samplesReadInChunk p < samplesInCurrentChunk p ->
  Z.of_nat (length (fdata p)) < 2 ^ 32 - 7 ->
  wrap32 (currentOffset p) <= Z.of_nat (length (fdata p)) ->
  let fs := next_frameSize stale p in
  let r := readNextFrame stale buffer bufferSize p in
  guards_pass stale bufferSize p = true /\
  fst (fst r) = fs + 7 - 2 ^ 32 /\ 0 <= fst (fst r) < 7 /\
  snd (fst r) =
    write_at 7 (drop (Z.to_nat (wrap32 (currentOffset p))) (fdata p))
      (generateAdtsHeader buffer (fs + 7 - 2 ^ 32) 2 (to_int (sampleRate p)) (channels p)) /\
  currentSample (snd r) = wrap32 (currentSample p + 1).
Proof.
  intros Hz Hc Hbig Hbuf Hin Hlen Hoff fs r.
  assert (Hfs : 2 ^ 32 - 7 <= fs < 2 ^ 32).
  { split; [exact Hbig | apply next_frameSize_range]. }
  assert (Hw : wrap32 (fs + 7) = fs + 7 - 2 ^ 32).
  { unfold wrap32. symmetry. apply (Z.mod_unique (fs + 7) (2 ^ 32) 1); lia. }
  assert (Hg : guards_pass stale bufferSize p = true).
  { unfold guards_pass. fold fs. rewrite Hw, !andb_true_iff.
    split; [split; [now apply negb_true_iff, Z.eqb_neq | now apply Z.ltb_lt] |].
    apply Z.leb_le. lia. }
  split; [exact Hg |].
  set (q := after_size stale p).
  destruct (after_size_fields stale p)
    as (Ad & _ & _ & _ & Ar & Ach & As & _ & _ & _ & Ao).
  fold q in Ad, Ar, Ach, As, Ao.
  assert (Hr : r = read_frame buffer fs q).
  { subst r. rewrite (readNextFrame_passed stale buffer bufferSize p Hg).
    destruct (Z.leb_spec (samplesInCurrentChunk p) (samplesReadInChunk p)); [lia |].
    reflexivity. }
  rewrite Hr.
  destruct (read_frame_fields buffer fs q) as (F1 & _ & _ & _ & _ & F6).
  rewrite F1, Hw. split; [reflexivity |]. split; [lia |].
  split; [| now rewrite F6, As].
  rewrite read_frame_payload by (now rewrite Ao, Ad).
  rewrite Ao, Ad, Ar, Ach.
  assert (Hint : to_int (fs + 7) = fs + 7 - 2 ^ 32).
  { unfold to_int. rewrite Hw. destruct (Z.ltb_spec (fs + 7 - 2 ^ 32) (2 ^ 31)); lia. }
  rewrite Hint. f_equal. apply take_ge. rewrite length_drop. lia.
Qed.

End FrameWrap.

Lemma readNextFrame_size_wrap_witness :
  fst (fst (readNextFrame no_stale (replicate 20 0) 20 oversized_track)) = 6 /\
  length (drop (Z.to_nat (wrap32 (currentOffset oversized_track)))
            (fdata oversized_track)) = 40%nat.
Proof.
  pose proof (readNextFrame_size_wrap no_stale (replicate 20 0) 20 oversized_track) as H.
  cbv zeta in H.
  destruct H as (_ & H & _);
    [discriminate | vm_compute; reflexivity | vm_compute; discriminate | lia
    | vm_compute; reflexivity | vm_compute; reflexivity
    | apply Z.leb_le; vm_compute; reflexivity |].
  split; [rewrite H; vm_compute; reflexivity | reflexivity].
Defined.

(* ===================================================================== *)
(** * Facts about the command parsers                                     *)
(* ===================================================================== *)

Lemma strchr_field (f rest : list Z) :
  Forall (fun c => c <> 44) f ->
  strchr (f ++ 44 :: rest) 44 = Some (44 :: rest) /\ strchr f 44 = None.
Proof.
  induction 1 as [| c f Hc _ IH]; [split; reflexivity |].
  cbn [strchr app]. destruct (Z.eqb_spec c 44); [contradiction | exact IH].
Qed.

Lemma skipToNextArg_field (f rest : list Z) :
  Forall (fun c => c <> 44) f ->
  skipToNextArg (f ++ 44 :: rest) = (true, rest) /\ skipToNextArg f = (false, []).
Proof.
  intros Hf. destruct (strchr_field f rest Hf) as (H1 & H2).
  unfold skipToNextArg. rewrite H1, H2. split; [reflexivity |].
  now rewrite drop_all.
Qed.

Lemma at_end_app (f rest : list Z) : f <> [] -> at_end (f ++ rest) = at_end f.
Proof. destruct f; [contradiction | reflexivity]. Qed.

Lemma deref_field (f rest : list Z) :
  is_field f -> at_end (f ++ rest) = false /\ (deref (f ++ rest) =? 44) = false.
Proof.
  intros (Hne & Hc & He). split; [now rewrite at_end_app |].
  destruct f as [| c f]; [contradiction |]. apply Forall_cons in Hc as (Hc & _).
  cbn. now apply Z.eqb_neq.
Qed.

Section CommandFacts.

Variable atoi : list Z -> Z.

(** An argument followed by a comma: its number, and the pointer behind
    the comma. *)
Lemma parseArgInt_field (f rest : list Z) (d : Z) :
  is_field f ->
  parseArgInt atoi (f ++ 44 :: rest) d = (atoi (f ++ 44 :: rest), rest).
Proof.
  intros Hf. destruct (deref_field f (44 :: rest) Hf) as (He & Hd).
  unfold parseArgInt. rewrite He, Hd.
  destruct Hf as (_ & Hc & _).
  now rewrite (proj1 (skipToNextArg_field f rest Hc)).
Qed.

(** The last argument of the line. *)
Lemma parseArgInt_last (f : list Z) (d : Z) :
  is_field f -> parseArgInt atoi f d = (atoi f, []).
Proof.
  intros Hf. destruct (deref_field f [] Hf) as (He & Hd). rewrite app_nil_r in He, Hd.
  unfold parseArgInt. rewrite He, Hd.
  destruct Hf as (_ & Hc & _).
  now rewrite (proj2 (skipToNextArg_field f [] Hc)).
Qed.

(** An empty argument: the default, and the pointer stays on the comma. *)
Lemma parseArgInt_comma (rest : list Z) (d : Z) :
  parseArgInt atoi (44 :: rest) d = (d, 44 :: rest).
Proof. reflexivity. Qed.

Lemma parseArgInt_nil (d : Z) : parseArgInt atoi [] d = (d, []).
Proof. reflexivity. Qed.

(** X15: CHRP with its arguments in place.  Four arguments separated by
    commas are converted one by one, each by [atoi] at the start of its
    argument, the volume cut to eight bits; with three arguments the
    volume is 128; with none at all the call is [playChirp(0, 0, 0, 128)]. *)
Theorem handleChirp_fields (f1 f2 f3 f4 : list Z) :
  is_field f1 -> is_field f2 -> is_field f3 -> is_field f4 ->
  handleChirp atoi (f1 ++ 44 :: f2 ++ 44 :: f3 ++ 44 :: f4) =
    (atoi (f1 ++ 44 :: f2 ++ 44 :: f3 ++ 44 :: f4),
     atoi (f2 ++ 44 :: f3 ++ 44 :: f4), atoi (f3 ++ 44 :: f4), u8 (atoi f4)) /\
  handleChirp atoi (f1 ++ 44 :: f2 ++ 44 :: f3) =
    (atoi (f1 ++ 44 :: f2 ++ 44 :: f3), atoi (f2 ++ 44 :: f3), atoi f3, 128) /\
  handleChirp atoi [] = (0, 0, 0, 128).
Proof.
  intros H1 H2 H3 H4. unfold handleChirp.
  split; [| split].
  - rewrite (parseArgInt_field f1) by assumption.
    rewrite (parseArgInt_field f2) by assumption.
    rewrite (parseArgInt_field f3) by assumption.
    now rewrite (parseArgInt_last f4) by assumption.
  - rewrite (parseArgInt_field f1) by assumption.
    rewrite (parseArgInt_field f2) by assumption.
    rewrite (parseArgInt_last f3) by assumption.
    now rewrite parseArgInt_nil.
  - reflexivity.
Qed.

(** X16: an empty argument stops the parse.  [parseArgInt] answers an
    empty argument with the default and leaves the pointer on its comma,
    so every later [parseArgInt] finds the same comma: when the second
    argument of CHRP is empty, the call is [playChirp(start, 0, 0, 128)]
    whatever follows on the line. *)
Theorem handleChirp_empty_field (f1 rest : list Z) :
  is_field f1 ->
  handleChirp atoi (f1 ++ 44 :: 44 :: rest) =
    (atoi (f1 ++ 44 :: 44 :: rest), 0, 0, 128).
Proof.
  intros H1. unfold handleChirp.
  rewrite (parseArgInt_field f1) by assumption.
  now rewrite !parseArgInt_comma.
Qed.

(** X17: the page [handlePlay] looks up is always one of 'A'..'Z' or
    '0', whatever the line holds; a page argument 'a'..'z' or 'A'..'Z'
    behind index and bank selects that letter in upper case. *)
Theorem handlePlay_page (args : list Z) :
  (forall index bank page volume,
     handlePlay_args atoi args = Some (index, bank, page, volume) ->
     65 <= page <= 90 \/ page = 48) /\
  (forall f1 f2 c rest,
     args = f1 ++ 44 :: f2 ++ 44 :: c :: rest ->
     is_field f1 -> is_field f2 -> 65 <= c <= 90 \/ 97 <= c <= 122 ->
     handlePlay_args atoi args =
       Some (atoi args, atoi (f2 ++ 44 :: c :: rest),
             (if 97 <=? c then c - 32 else c),
             fst (parseArgInt atoi (snd (skipToNextArg (c :: rest))) (-1)))).
Proof.
  split.
  - intros index bank page volume. unfold handlePlay_args.
    destruct (at_end args); [discriminate |].
    destruct (parseArgInt atoi args 0) as [i ptr1].
    destruct (parseArgInt atoi ptr1 1) as [b ptr2].
    set (pg := if negb (at_end ptr2) then _ else _).
    assert (Hpg : 65 <= fst pg <= 90 \/ fst pg = 48).
    { subst pg. destruct (negb (at_end ptr2)); [| cbn; lia].
      destruct (deref ptr2 =? 44); [cbn; lia |].
      cbn [fst].
      set (c := if (97 <=? deref ptr2) && (deref ptr2 <=? 122)
                then deref ptr2 - 32 else deref ptr2).
      destruct (((65 <=? c) && (c <=? 90)) || (c =? 48)) eqn:E; [| lia].
      apply orb_true_iff in E as [E | E]; [left | right; lia].
      apply andb_true_iff in E. lia. }
    destruct pg as [pg ptr3]. cbn [fst] in Hpg.
    destruct (parseArgInt atoi ptr3 (-1)) as [v ptr4].
    intros H. injection H as <- <- <- <-. exact Hpg.
  - intros f1 f2 c rest -> H1 H2 Hc. unfold handlePlay_args.
    destruct (deref_field f1 (44 :: f2 ++ 44 :: c :: rest) H1) as (He & _).
    rewrite He.
    rewrite (parseArgInt_field f1) by assumption.
    rewrite (parseArgInt_field f2) by assumption.
    assert (Hend : at_end (c :: rest) = false).
    { unfold at_end. cbn [deref hd].
      destruct (Z.eqb_spec c 0), (Z.eqb_spec c 13), (Z.eqb_spec c 10);
        first [lia | reflexivity]. }
    rewrite Hend. cbn [negb deref hd].
    destruct (Z.eqb_spec c 44); [lia |].
    destruct (parseArgInt atoi (snd (skipToNextArg (c :: rest))) (-1)) as [v ptr] eqn:Ev.
    assert (Hpage : (if ((65 <=? (if (97 <=? c) && (c <=? 122) then c - 32 else c))
                         && ((if (97 <=? c) && (c <=? 122) then c - 32 else c) <=? 90))
                        || ((if (97 <=? c) && (c <=? 122) then c - 32 else c) =? 48)
                     then (if (97 <=? c) && (c <=? 122) then c - 32 else c) else 65)
                    = (if 97 <=? c then c - 32 else c)).
    { destruct (Z.leb_spec 97 c), (Z.leb_spec c 122); cbn [andb]; try lia.
      - destruct (Z.leb_spec 65 (c - 32)), (Z.leb_spec (c - 32) 90); cbn; try lia;
          reflexivity.
      - destruct (Z.leb_spec 65 c), (Z.leb_spec c 90); cbn; try lia; reflexivity. }
    rewrite Hpage. reflexivity.
Qed.

(** X18: an empty bank argument swallows the page.  On a line
    "index,,..." the bank is the default 1, the comma of the empty bank
    is taken for an empty page argument, so the page is 'A', and what
    was written as the page is converted as the volume. *)
Theorem handlePlay_empty_bank (f1 rest : list Z) :
  is_field f1 ->
  handlePlay_args atoi (f1 ++ 44 :: 44 :: rest) =
    Some (atoi (f1 ++ 44 :: 44 :: rest), 1, 65, fst (parseArgInt atoi rest (-1))).
Proof.
  intros H1. unfold handlePlay_args.
  destruct (deref_field f1 (44 :: 44 :: rest) H1) as (He & _). rewrite He.
  rewrite (parseArgInt_field f1) by assumption.
  rewrite parseArgInt_comma.
  change (at_end (44 :: rest)) with false. cbn [negb deref hd].
  change (44 =? 44) with true. change (drop 1 (44 :: rest)) with rest.
  cbv beta iota.
  destruct (parseArgInt atoi rest (-1)) as [v ptr]. reflexivity.
Qed.

End CommandFacts.

Ltac field_ok :=
  split; [discriminate | split; [repeat (constructor; [lia |]); constructor | reflexivity]].

(** "100,200,50,9" and "100,200,50". *)
Lemma handleChirp_fields_witness :
  handleChirp sample_atoi [49; 48; 48; 44; 50; 48; 48; 44; 53; 48; 44; 57]
    = (100, 200, 50, 9) /\
  handleChirp sample_atoi [49; 48; 48; 44; 50; 48; 48; 44; 53; 48]
    = (100, 200, 50, 128).
Proof.
  destruct (handleChirp_fields sample_atoi [49; 48; 48] [50; 48; 48] [53; 48] [57])
    as (H4 & H3 & _); [field_ok | field_ok | field_ok | field_ok |].
  split; [exact H4 | exact H3].
Defined.

(** "100,,50,9". *)
Lemma handleChirp_empty_field_witness :
  handleChirp sample_atoi [49; 48; 48; 44; 44; 53; 48; 44; 57] = (100, 0, 0, 128).
Proof.
  apply (handleChirp_empty_field sample_atoi [49; 48; 48] [53; 48; 44; 57]). field_ok.
Defined.

(** "5,2,b,50". *)
Lemma handlePlay_page_witness :
  handlePlay_args sample_atoi [53; 44; 50; 44; 98; 44; 53; 48] = Some (5, 2, 66, 50).
Proof.
  apply (proj2 (handlePlay_page sample_atoi [53; 44; 50; 44; 98; 44; 53; 48])
           [53] [50] 98 [44; 53; 48]);
    first [reflexivity | field_ok | lia].
Defined.

(** "5,,B,50". *)
Lemma handlePlay_empty_bank_witness :
  handlePlay_args sample_atoi [53; 44; 44; 66; 44; 53; 48] = Some (5, 1, 65, 0).
Proof.
  apply (handlePlay_empty_bank sample_atoi [53] [66; 44; 53; 48]). field_ok.
Defined.

(* ===================================================================== *)
(** * Facts about stream and variant selection                            *)
(* ===================================================================== *)

Lemma stream_scan_spec (active : list bool) (todo : nat) (i : nat) :
  (i + todo = length active)%nat ->
  let r := stream_scan active (Z.of_nat i) todo in
  (r = 0 /\ forall j, (i <= j < length active)%nat -> active !! j = Some true) \/
  (Z.of_nat i <= r < Z.of_nat (length active) /\
   active !! Z.to_nat r = Some false /\
   forall j, (i <= j < Z.to_nat r)%nat -> active !! j = Some true).
Proof.
  revert i. induction todo as [| todo IH]; intros i Hlen r; subst r.
  - left. split; [reflexivity |]. intros j Hj. lia.
  - cbn [stream_scan]. rewrite Nat2Z.id.
    destruct (lookup_lt_is_Some_2 active i ltac:(lia)) as (b & Hb).
    rewrite Hb. destruct b; cbn [default from_option id negb].
    + replace (Z.of_nat i + 1) with (Z.of_nat (S i)) by lia.
      destruct (IH (S i) ltac:(lia)) as [(H0 & Hall) | (Hr & Hf & Hall)].
      * left. split; [exact H0 |]. intros j Hj.
        destruct (decide (j = i)) as [-> | Hne]; [exact Hb | apply Hall; lia].
      * right. split; [lia |]. split; [exact Hf |]. intros j Hj.
        destruct (decide (j = i)) as [-> | Hne]; [exact Hb | apply Hall; lia].
    + right. rewrite Nat2Z.id. split; [lia |]. split; [exact Hb |]. intros j Hj. lia.
Qed.

(** X19: [getNextAvailableStream] returns the first stream that is not
    active: its flag is clear and all streams before it are active.  When
    every stream is active it returns 0, the stream to steal.  The result
    is always a valid index of a non-empty stream array. *)
Theorem getNextAvailableStream_first_free (active : list bool) (maxStreams : Z) :
  Z.of_nat (length active) = maxStreams ->
  let r := getNextAvailableStream (Some active) maxStreams in
  0 <= r /\ (0 < maxStreams -> r < maxStreams) /\
  ((exists i, active !! i = Some false) ->
   active !! Z.to_nat r = Some false /\
   forall j, (j < Z.to_nat r)%nat -> active !! j = Some true) /\
  ((forall i, active !! i <> Some false) -> r = 0).
Proof.
  intros Hlen r. subst r. unfold getNextAvailableStream.
  rewrite <- Hlen, Nat2Z.id.
  destruct (stream_scan_spec active (length active) 0 ltac:(lia))
    as [(H0 & Hall) | (Hr & Hf & Hall)];
    cbv zeta in *; change (Z.of_nat 0) with 0 in *.
  - rewrite H0. split; [lia |]. split; [lia |]. split; [| reflexivity].
    intros (i & Hi). pose proof (lookup_lt_Some _ _ _ Hi) as Hlt.
    rewrite Hall in Hi by lia. discriminate.
  - split; [lia |]. split; [lia |]. split.
    + intros _. split; [exact Hf |]. intros j Hj. apply Hall. lia.
    + intros Hnone. exfalso. exact (Hnone _ Hf).
Qed.

Lemma getNextAvailableStream_first_free_witness :
  [true; true; false; true] !! Z.to_nat (getNextAvailableStream (Some [true; true; false; true]) 4)
    = Some false /\
  getNextAvailableStream (Some [true; true; false; true]) 4 < 4.
Proof.
  pose proof (getNextAvailableStream_first_free [true; true; false; true] 4 eq_refl) as H.
  cbv zeta in H. destruct H as (_ & Hlt & Hfree & _).
  split; [apply Hfree; exists 2%nat; reflexivity | apply Hlt; lia].
Defined.

Lemma handlePlay_variant_step (variantCount last rnd : Z) :
  2 <= variantCount -> 0 <= rnd < variantCount ->
  0 <= handlePlay_variant variantCount last rnd < variantCount /\
  handlePlay_variant variantCount last rnd <> last.
Proof.
  intros Hn Hr. unfold handlePlay_variant.
  destruct (Z.eqb_spec variantCount 1); [lia |].
  destruct (Z.eqb_spec rnd last) as [-> | Hne]; [| lia].
  destruct (Z.eq_dec (last + 1) variantCount) as [E | E].
  - rewrite E, Z.rem_same by lia. lia.
  - rewrite Z.rem_small by lia. lia.
Qed.

(** X20: non-repeating random.  For a sound with at least two variants
    and draws inside [0, variantCount), every variant chosen is a valid
    index, it differs from the variant played before it, and the first
    one differs from the one recorded as played last. *)
Theorem handlePlay_variant_no_repeat (variantCount last : Z) (draws : list Z) :
  2 <= variantCount ->
  Forall (fun rnd => 0 <= rnd < variantCount) draws ->
  let played := variants_played variantCount last draws in
  length played = length draws /\
  Forall (fun v => 0 <= v < variantCount) played /\
  (forall a, played !! 0%nat = Some a -> a <> last) /\
  (forall i a b, played !! i = Some a -> played !! S i = Some b -> a <> b).
Proof.
  intros Hn Hd. revert last. induction Hd as [| rnd draws Hr _ IH]; intros last played.
  - subst played. cbn. split; [reflexivity |]. split; [constructor |].
    split; intros; discriminate.
  - subst played. cbn [variants_played].
    destruct (handlePlay_variant_step variantCount last rnd Hn Hr) as (Hv & Hne).
    specialize (IH (handlePlay_variant variantCount last rnd)). cbv zeta in IH.
    destruct IH as (Hl & Hall & Hfirst & Hadj).
    split; [cbn [length]; now rewrite Hl |].
    split; [constructor; assumption |].
    split.
    + intros a Ha. injection Ha as <-. exact Hne.
    + intros [| i] a b Ha Hb.
      * injection Ha as <-. cbn in Hb. intros E. apply (Hfirst b Hb). now symmetry.
      * exact (Hadj i a b Ha Hb).
Qed.

Lemma handlePlay_variant_no_repeat_witness :
  variants_played 3 (-1) [2; 2; 0; 0] !! 1%nat <> variants_played 3 (-1) [2; 2; 0; 0] !! 2%nat.
Proof.
  pose proof (handlePlay_variant_no_repeat 3 (-1) [2; 2; 0; 0]) as H. cbv zeta in H.
  destruct H as (_ & _ & _ & H);
    [lia | repeat (constructor; [lia |]); constructor |].
  intros E. apply (H 1%nat 0 1); [reflexivity | reflexivity |].
  vm_compute in E. congruence.
Defined.

(* ===================================================================== *)
(** * Facts about the command line buffer                                 *)
(* ===================================================================== *)

Lemma cstr_length_le (a : list Z) (k : nat) :
  a !! k = Some 0 -> (length (cstr a) <= k)%nat.
Proof.
  revert k. induction a as [| c a IH]; intros k Hk; [discriminate |].
  cbn [cstr]. destruct (Z.eqb_spec c 0); [cbn; lia |].
  destruct k as [| k]; [cbn in Hk; congruence |].
  cbn [length]. apply IH in Hk. lia.
Qed.

Lemma cstr_prefix (prefix rest : list Z) :
  Forall (fun c => c <> 0) prefix -> cstr (prefix ++ 0 :: rest) = prefix.
Proof.
  induction 1 as [| c prefix Hc _ IH]; [reflexivity |].
  cbn [app cstr]. destruct (Z.eqb_spec c 0); [contradiction | now rewrite IH].
Qed.

Section SerialLoopFacts.

Variable checkAndHandleMp3Command : Z -> list Z -> bool * list Z.

(** X21: the line buffer stays inside its array.  Whatever bytes arrive
    and whatever the compatibility layer does with them (as long as it
    only takes bytes from the port), a call comes back with [cmdPos]
    between 0 and 127 and the 128-byte array intact, it only adds to the
    command lines dispatched, and no line it dispatches is longer than
    127 characters. *)
Theorem processSerialCommands_bounds (fuel : nat) (pending : list Z) (st : CmdLine)
    (lines : list (list Z)) :
  only_consumes checkAndHandleMp3Command ->
  (length pending < fuel)%nat ->
  length (cmdBuffer st) = 128%nat -> 0 <= cmdPos st <= 127 ->
  exists st' new,
    processSerialCommands checkAndHandleMp3Command fuel pending st lines = Some (st', lines ++ new) /\
    length (cmdBuffer st') = 128%nat /\ 0 <= cmdPos st' <= 127 /\
    Forall (fun l => (length l <= 127)%nat) new.
Proof.
  intros Hcons. revert pending st lines.
  induction fuel as [| fuel IH]; intros pending st lines Hfuel Hlen Hpos; [lia |].
  cbn [processSerialCommands].
  destruct pending as [| c pending].
  { exists st, []. rewrite app_nil_r. repeat split; try assumption; try lia. constructor. }
  cbn [length] in Hfuel.
  set (chk := if cmdPos st =? 0 then checkAndHandleMp3Command c pending
              else (false, pending)).
  assert (Hchk : (length (snd chk) <= length pending)%nat).
  { subst chk. destruct (cmdPos st =? 0); [apply Hcons | cbn; lia]. }
  destruct chk as [handled pending']. cbn [snd] in Hchk.
  destruct handled; [apply IH; [lia | assumption | assumption] |].
  destruct ((c =? 10) || (c =? 13)).
  - destruct (Z.ltb_spec 0 (cmdPos st)) as [Hgt | Hle].
    + set (buf := <[Z.to_nat (cmdPos st) := 0]> (cmdBuffer st)).
      destruct (IH pending' (mkCmdLine buf 0) (lines ++ [cstr buf]))
        as (st' & new & Hrun & H1 & H2 & H3).
      * lia.
      * subst buf. cbn [cmdBuffer]. now rewrite length_insert.
      * cbn [cmdPos]. lia.
      * exists st', (cstr buf :: new). rewrite Hrun.
        split; [now rewrite <- app_assoc |]. split; [exact H1 |]. split; [exact H2 |].
        constructor; [| exact H3].
        assert (Hk : buf !! Z.to_nat (cmdPos st) = Some 0).
        { subst buf. apply list_lookup_insert_eq. lia. }
        apply cstr_length_le in Hk. lia.
    + apply IH; [lia | assumption | assumption].
  - destruct (Z.ltb_spec (cmdPos st) (128 - 1)) as [Hlt | Hge].
    + apply IH; [lia | cbn [cmdBuffer]; now rewrite length_insert | cbn [cmdPos]; lia].
    + apply IH; [lia | assumption | assumption].
Qed.

(** Inside a line: [prefix] is what the buffer holds of it so far. *)
Lemma processSerialCommands_rest (l prefix : list Z) :
  forall (fuel : nat) (buf : list Z) (lines : list (list Z)),
  Forall (fun c => c <> 10 /\ c <> 13 /\ c <> 0) prefix ->
  Forall (fun c => c <> 10 /\ c <> 13 /\ c <> 0) l ->
  (1 <= length prefix <= 127)%nat -> length buf = 128%nat ->
  take (length prefix) buf = prefix ->
  (length l + 1 < fuel)%nat ->
  exists buf',
    processSerialCommands checkAndHandleMp3Command fuel (l ++ [10]) (mkCmdLine buf (Z.of_nat (length prefix))) lines
    = Some (mkCmdLine buf' 0, lines ++ [take 127 (prefix ++ l)]).
Proof.
  revert prefix. induction l as [| c l IH];
    intros prefix fuel buf lines Hp Hl Hk Hlen Htake Hfuel.
  - destruct fuel as [| [| fuel]]; [cbn in Hfuel; lia | cbn in Hfuel; lia |].
    cbn [app processSerialCommands cmdPos cmdBuffer].
    destruct (Z.eqb_spec (Z.of_nat (length prefix)) 0); [lia |].
    change ((10 =? 10) || (10 =? 13)) with true. cbv beta iota.
    destruct (Z.ltb_spec 0 (Z.of_nat (length prefix))); [| lia].
    rewrite Nat2Z.id. eexists. f_equal. f_equal. f_equal.
    rewrite app_nil_r, take_ge by lia.
    rewrite insert_take_drop by lia. rewrite Htake.
    rewrite cstr_prefix; [reflexivity |].
    eapply Forall_impl; [exact Hp |]. cbn. tauto.
  - destruct fuel as [| fuel]; [cbn in Hfuel; lia |].
    cbn [length] in Hfuel.
    apply Forall_cons in Hl as ((Hc1 & Hc2 & Hc0) & Hl).
    cbn [app processSerialCommands cmdPos cmdBuffer].
    destruct (Z.eqb_spec (Z.of_nat (length prefix)) 0); [lia |].
    cbv beta iota.
    destruct (Z.eqb_spec c 10); [contradiction |].
    destruct (Z.eqb_spec c 13); [contradiction |]. cbn [orb].
    destruct (Z.ltb_spec (Z.of_nat (length prefix)) (128 - 1)) as [Hlt | Hge].
    + rewrite Nat2Z.id.
      destruct (IH (prefix ++ [c]) fuel (<[length prefix := c]> buf) lines)
        as (buf' & Hrun).
      * apply Forall_app. split; [exact Hp |]. constructor; [tauto | constructor].
      * exact Hl.
      * rewrite length_app. cbn [length]. lia.
      * now rewrite length_insert.
      * rewrite length_app. cbn [length].
        replace (length prefix + 1)%nat with (S (length prefix)) by lia.
        rewrite (take_S_r _ _ c) by (apply list_lookup_insert_eq; lia).
        rewrite take_insert_ge by lia. now rewrite Htake.
      * lia.
      * exists buf'. rewrite length_app in Hrun. cbn [length] in Hrun.
        replace (Z.of_nat (length prefix + 1)) with (Z.of_nat (length prefix) + 1) in Hrun
          by lia.
        rewrite Hrun. now rewrite <- app_assoc.
    + destruct (IH prefix fuel buf lines Hp Hl Hk Hlen Htake ltac:(lia)) as (buf' & Hrun).
      exists buf'. rewrite Hrun. f_equal. f_equal. f_equal.
      rewrite !take_app_le by lia. reflexivity.
Qed.

(** X22: one command line.  When the compatibility layer passes on the
    first byte of a line without taking anything, the characters up to
    the line feed are collected and the line is dispatched once, cut
    to its first 127 characters, and [cmdPos] is back at 0 for the next
    line. *)
Theorem processSerialCommands_line (c0 : Z) (l : list Z) (fuel : nat) (st : CmdLine) :
  checkAndHandleMp3Command c0 (l ++ [10]) = (false, l ++ [10]) ->
  Forall (fun c => c <> 10 /\ c <> 13 /\ c <> 0) (c0 :: l) ->
  length (cmdBuffer st) = 128%nat -> cmdPos st = 0 ->
  (length l + 2 < fuel)%nat ->
  exists buf',
    processSerialCommands checkAndHandleMp3Command fuel (c0 :: l ++ [10]) st [] =
      Some (mkCmdLine buf' 0, [take 127 (c0 :: l)]).
Proof.
  intros Hchk Hok Hlen Hpos Hfuel.
  destruct fuel as [| fuel]; [lia |].
  cbn [processSerialCommands]. rewrite Hpos. change (0 =? 0) with true.
  cbv beta iota. rewrite Hchk.
  pose proof Hok as Hok'. apply Forall_cons in Hok' as ((Hc1 & Hc2 & Hc0) & Hl).
  destruct (Z.eqb_spec c0 10); [contradiction |].
  destruct (Z.eqb_spec c0 13); [contradiction |]. cbn [orb].
  change (0 <? 128 - 1) with true. cbv beta iota.
  change (Z.to_nat 0) with 0%nat. change (0 + 1) with (Z.of_nat (length [c0])).
  destruct (processSerialCommands_rest l [c0] fuel (<[0%nat := c0]> (cmdBuffer st)) [])
    as (buf' & Hrun).
  - constructor; [tauto | constructor].
  - exact Hl.
  - cbn [length]. lia.
  - now rewrite length_insert.
  - cbn [length]. destruct (cmdBuffer st); [discriminate | reflexivity].
  - lia.
  - exists buf'. exact Hrun.
Qed.

End SerialLoopFacts.

(** "STOP", carriage return, line feed, with a compatibility layer that
    never takes a byte. *)
Lemma processSerialCommands_bounds_witness :
  exists st' new,
    processSerialCommands (fun _ pending => (false, pending)) 7 [83; 84; 79; 80; 13; 10]
      (mkCmdLine (replicate 128 0) 0) [] = Some (st', [] ++ new) /\
    length (cmdBuffer st') = 128%nat /\ 0 <= cmdPos st' <= 127 /\
    Forall (fun l => (length l <= 127)%nat) new.
Proof.
  apply (processSerialCommands_bounds (fun _ pending => (false, pending)) 7
           [83; 84; 79; 80; 13; 10] (mkCmdLine (replicate 128 0) 0) []).
  - intros c pending. simpl. lia.
  - simpl. lia.
  - reflexivity.
  - simpl. lia.
Defined.

Lemma processSerialCommands_line_witness :
  exists buf',
    processSerialCommands (fun _ pending => (false, pending)) 7 [83; 84; 79; 80; 10]
      (mkCmdLine (replicate 128 0) 0) [] = Some (mkCmdLine buf' 0, [[83; 84; 79; 80]]).
Proof.
  apply (processSerialCommands_line (fun _ pending => (false, pending)) 83 [84; 79; 80] 7
           (mkCmdLine (replicate 128 0) 0)).
  - reflexivity.
  - repeat (constructor; [lia |]); constructor.
  - reflexivity.
  - reflexivity.
  - simpl. lia.
Defined.

(* ===================================================================== *)
(** * Facts about the pages of bank 1                                     *)
(* ===================================================================== *)

Lemma char_at_middle (pre : list Z) (x : Z) (rest : list Z) :
  char_at (pre ++ x :: rest) (length pre) = x.
Proof. unfold char_at. now rewrite list_lookup_middle. Qed.

Lemma insert_middle (pre : list Z) (x y : Z) (rest : list Z) :
  <[length pre := y]> (pre ++ x :: rest) = pre ++ y :: rest.
Proof.
  rewrite insert_app_r_alt by lia. now rewrite Nat.sub_diag.
Qed.

Lemma bubble_pass_carry (r : list Z) :
  forall (pre : list Z) (x : Z) (rest : list Z),
  bubble_pass (pre ++ x :: r ++ rest) (length pre) (length r) = pre ++ carry x r ++ rest.
Proof.
  induction r as [| y r IH]; intros pre x rest; [reflexivity |].
  cbn [length bubble_pass carry app].
  rewrite char_at_middle.
  assert (Hy : char_at (pre ++ x :: y :: r ++ rest) (S (length pre)) = y).
  { replace (pre ++ x :: y :: r ++ rest) with ((pre ++ [x]) ++ y :: r ++ rest)
      by now rewrite <- app_assoc.
    replace (S (length pre)) with (length (pre ++ [x]))
      by (rewrite length_app; cbn; lia).
    apply char_at_middle. }
  rewrite Hy.
  assert (Hlen : forall z, S (length pre) = length (pre ++ [z]))
    by (intros z; rewrite length_app; cbn; lia).
  destruct (y <? x).
  - rewrite insert_middle.
    replace (pre ++ y :: y :: r ++ rest) with ((pre ++ [y]) ++ y :: r ++ rest)
      by now rewrite <- app_assoc.
    rewrite (Hlen y), insert_middle, IH. now rewrite <- app_assoc.
  - replace (pre ++ x :: y :: r ++ rest) with ((pre ++ [x]) ++ y :: r ++ rest)
      by now rewrite <- app_assoc.
    rewrite (Hlen x), IH. now rewrite <- app_assoc.
Qed.

Lemma carry_perm (r : list Z) : forall x, carry x r ≡ₚ x :: r.
Proof.
  induction r as [| y r IH]; intros x; [reflexivity |].
  cbn [carry]. destruct (y <? x).
  - rewrite IH. apply perm_swap.
  - now rewrite IH.
Qed.

Lemma carry_last (r : list Z) :
  forall x, exists init m,
    carry x r = init ++ [m] /\ length init = length r /\ x <= m /\
    Forall (fun z => z <= m) init.
Proof.
  induction r as [| y r IH]; intros x.
  - exists [], x. repeat split; [lia | constructor].
  - cbn [carry]. destruct (Z.ltb_spec y x).
    + destruct (IH x) as (init & m & E & Hl & Hx & Hall).
      exists (y :: init), m. rewrite E. cbn [length].
      split; [reflexivity |]. split; [lia |]. split; [exact Hx |].
      constructor; [lia | exact Hall].
    + destruct (IH y) as (init & m & E & Hl & Hy & Hall).
      exists (x :: init), m. rewrite E. cbn [length].
      split; [reflexivity |]. split; [lia |]. split; [lia |].
      constructor; [lia | exact Hall].
Qed.

Lemma bubble_sort_from_spec (todo : nat) :
  forall (front back rest : list Z) (i : nat) (n : Z),
  length front = S todo -> length back = i -> n = Z.of_nat (S todo + i) ->
  nondecreasing back -> Forall (fun x => Forall (fun y => x <= y) back) front ->
  exists sorted,
    bubble_sort_from (front ++ back ++ rest) n i todo = sorted ++ rest /\
    sorted ≡ₚ front ++ back /\ nondecreasing sorted.
Proof.
  induction todo as [| todo IH]; intros front back rest i n Hf Hb Hn Hs Hle.
  - destruct front as [| x [| ? ?]]; try discriminate.
    exists (x :: back). cbn [bubble_sort_from app].
    split; [reflexivity |]. split; [reflexivity |].
    cbn [nondecreasing]. split; [| exact Hs]. now apply Forall_cons in Hle as (Hx & _).
  - destruct front as [| x r]; [discriminate |]. cbn [length] in Hf.
    cbn [bubble_sort_from].
    replace (Z.to_nat (n - Z.of_nat i - 1)) with (length r) by lia.
    pose proof (bubble_pass_carry r [] x (back ++ rest)) as Hpass.
    cbn [app length] in Hpass. cbn [app]. rewrite Hpass. clear Hpass.
    destruct (carry_last r x) as (init & m & E & Hl & Hx & Hall).
    pose proof (carry_perm r x) as Hperm. rewrite E in Hperm.
    assert (Hmem : forall z, z ∈ init ++ [m] -> Forall (fun y => z <= y) back).
    { intros z Hz. rewrite Hperm in Hz. rewrite Forall_forall in Hle. now apply Hle. }
    rewrite E, <- app_assoc. cbn [app].
    destruct (IH init (m :: back) rest (S i) n) as (sorted & Hrun & Hp & Hnd).
    + lia.
    + cbn [length]. lia.
    + lia.
    + cbn [nondecreasing]. split; [| exact Hs].
      apply Hmem. apply elem_of_app. right. now left.
    + rewrite Forall_forall. intros z Hz. constructor.
      * rewrite Forall_forall in Hall. now apply Hall.
      * apply Hmem. apply elem_of_app. now left.
    + exists sorted. split; [exact Hrun |]. split; [| exact Hnd].
      rewrite Hp. change (init ++ m :: back) with (init ++ [m] ++ back).
      rewrite app_assoc, Hperm. reflexivity.
Qed.

Lemma bubble_sort_spec (l rest : list Z) :
  exists sorted,
    bubble_sort (l ++ rest) (Z.of_nat (length l)) = sorted ++ rest /\
    sorted ≡ₚ l /\ nondecreasing sorted.
Proof.
  unfold bubble_sort. destruct l as [| x r].
  - exists []. cbn. repeat split; constructor.
  - cbn [length]. replace (Z.to_nat (Z.of_nat (S (length r)) - 1)) with (length r) by lia.
    destruct (bubble_sort_from_spec (length r) (x :: r) [] rest 0
                (Z.of_nat (S (length r)))) as (sorted & Hrun & Hp & Hnd).
    + reflexivity.
    + reflexivity.
    + f_equal. lia.
    + exact I.
    + apply Forall_forall. intros z _. constructor.
    + exists sorted. rewrite app_nil_r in Hp.
      change ((x :: r) ++ [] ++ rest) with ((x :: r) ++ rest) in Hrun.
      now rewrite Hrun.
Qed.

Lemma nondecreasing_lookup (l : list Z) :
  nondecreasing l ->
  forall i j a b, (i < j)%nat -> l !! i = Some a -> l !! j = Some b -> a <= b.
Proof.
  induction l as [| x l IH]; intros Hnd i j a b Hij Ha Hb; [discriminate |].
  destruct Hnd as (Hx & Hnd). destruct j as [| j]; [lia |].
  cbn in Hb. destruct i as [| i].
  - injection Ha as <-. rewrite Forall_forall in Hx. apply Hx.
    eapply list_elem_of_lookup_2, Hb.
  - cbn in Ha. apply (IH Hnd i j); [lia | assumption | assumption].
Qed.

Lemma strchr_elem (s : list Z) (c : Z) :
  (strchr s c = None <-> c ∉ s).
Proof.
  induction s as [| x s IH]; cbn [strchr].
  - split; [intros _ H; inversion H | reflexivity].
  - destruct (Z.eqb_spec x c) as [-> | Hne].
    + split; [discriminate | intros H; exfalso; apply H; now left].
    + rewrite IH. split.
      * intros Hn H. apply elem_of_cons in H as [-> | H]; [congruence | contradiction].
      * intros Hn H. apply Hn. now right.
Qed.

(** Distinct capital letters: at most 26. *)
Lemma letters_bound (l : list Z) :
  NoDup l -> (forall c, c ∈ l -> 65 <= c <= 90) -> (length l <= 26)%nat.
Proof.
  intros Hnd Hl.
  assert (Hsub : l ⊆+ seqZ 65 26).
  { apply NoDup_submseteq; [exact Hnd |]. intros c Hc. apply elem_of_seqZ.
    specialize (Hl c Hc). lia. }
  apply submseteq_length in Hsub. now rewrite length_seqZ in Hsub.
Qed.

Lemma names_page_letter (e : DirEntry) (c : Z) : names_page e c -> 65 <= c <= 90.
Proof.
  intros (_ & Hp & <-). unfold bank1_page_dir in Hp. rewrite !andb_true_iff in Hp. lia.
Qed.

Lemma page_scan_entry_inv (seen : list DirEntry) (st : list Z * Z) (e : DirEntry) :
  page_inv seen st -> page_inv (seen ++ [e]) (page_scan_entry st e).
Proof.
  destruct st as [pages count].
  intros (Hlen & ps & rest & Hpages & Hcount & Hnd & Hmem). cbn [fst snd] in *.
  assert (Hletters : forall c, c ∈ ps -> 65 <= c <= 90).
  { intros c Hc. apply Hmem in Hc as (e' & _ & He'). exact (names_page_letter e' c He'). }
  assert (Hkeep : (forall c, ~ names_page e c) ->
                  page_inv (seen ++ [e]) (pages, count)).
  { intros Hno. split; [exact Hlen |]. exists ps, rest. cbn [fst snd].
    split; [exact Hpages |]. split; [exact Hcount |]. split; [exact Hnd |].
    intros c. rewrite Hmem. split.
    - intros (e' & He' & Hn). exists e'. split; [apply elem_of_app; now left | exact Hn].
    - intros (e' & He' & Hn). apply elem_of_app in He' as [He' | He'].
      + now exists e'.
      + apply list_elem_of_singleton in He'. subst e'. now apply Hno in Hn. }
  unfold page_scan_entry.
  destruct (isDirectory e) eqn:Hdir; cbn [andb];
    [| apply Hkeep; intros c (Hd & _); congruence].
  destruct (bank1_page_dir (entryName e)) eqn:Hpat;
    [| apply Hkeep; intros c (_ & Hp & _); congruence].
  set (c := char_at (entryName e) 1).
  assert (Hname : names_page e c) by (repeat split; assumption).
  assert (Hcstr : cstr pages = ps).
  { rewrite Hpages. apply cstr_prefix. rewrite Forall_forall. intros z Hz.
    specialize (Hletters z Hz). lia. }
  rewrite Hcstr.
  destruct (strchr ps c) as [t |] eqn:Hfind.
  - assert (Hin : c ∈ ps).
    { destruct (decide (c ∈ ps)) as [Hin | Hout]; [exact Hin |].
      apply strchr_elem in Hout. congruence. }
    split; [exact Hlen |]. exists ps, rest. cbn [fst snd].
    split; [exact Hpages |]. split; [exact Hcount |]. split; [exact Hnd |].
    intros z. split.
    + intros Hz. apply Hmem in Hz as (e' & He' & Hn). exists e'.
      split; [apply elem_of_app; now left | exact Hn].
    + intros (e' & He' & Hn). apply elem_of_app in He' as [He' | He'].
      * apply Hmem. now exists e'.
      * apply list_elem_of_singleton in He'. subst e'.
        destruct Hn as (_ & _ & <-). exact Hin.
  - apply strchr_elem in Hfind.
    assert (Hnd' : NoDup (ps ++ [c])).
    { apply NoDup_app. split; [exact Hnd |]. split; [| apply NoDup_singleton].
      intros z Hz Hz'. apply list_elem_of_singleton in Hz'. now subst z. }
    assert (Hbound : (length (ps ++ [c]) <= 26)%nat).
    { apply letters_bound; [exact Hnd' |]. intros z Hz.
      apply elem_of_app in Hz as [Hz | Hz]; [now apply Hletters |].
      apply list_elem_of_singleton in Hz. subst z. exact (names_page_letter e c Hname). }
    rewrite length_app in Hbound. cbn [length] in Hbound.
    assert (Hrest : length rest = (26 - length ps)%nat).
    { apply (f_equal length) in Hpages. rewrite length_app in Hpages.
      cbn [length] in Hpages. lia. }
    destruct rest as [| r0 rest']; [cbn in Hrest; lia |].
    assert (Hnew : <[Z.to_nat (count + 1) := 0]> (<[Z.to_nat count := c]> pages)
                   = (ps ++ [c]) ++ 0 :: rest').
    { rewrite Hpages. replace (Z.to_nat count) with (length ps) by lia.
      rewrite insert_middle.
      replace (ps ++ c :: r0 :: rest') with ((ps ++ [c]) ++ r0 :: rest')
        by now rewrite <- app_assoc.
      replace (Z.to_nat (count + 1)) with (length (ps ++ [c]))
        by (rewrite length_app; cbn [length]; lia).
      apply insert_middle. }
    split; [cbn [fst]; now rewrite !length_insert |].
    exists (ps ++ [c]), rest'. cbn [fst snd].
    split; [exact Hnew |].
    split; [rewrite length_app; cbn [length]; lia |]. split; [exact Hnd' |].
    intros z. rewrite elem_of_app, list_elem_of_singleton, Hmem. split.
    + intros [(e' & He' & Hn) | ->].
      * exists e'. split; [apply elem_of_app; now left | exact Hn].
      * exists e. split; [apply elem_of_app; right; now left | exact Hname].
    + intros (e' & He' & Hn). apply elem_of_app in He' as [He' | He'].
      * left. now exists e'.
      * apply list_elem_of_singleton in He'. subst e'. right.
        destruct Hn as (_ & _ & <-). reflexivity.
Qed.

Lemma page_scan_inv (l : list DirEntry) :
  forall seen st, page_inv seen st ->
  page_inv (seen ++ l) (fold_left page_scan_entry l st).
Proof.
  induction l as [| e l IH]; intros seen st Hinv.
  - now rewrite app_nil_r.
  - cbn [fold_left]. replace (seen ++ e :: l) with ((seen ++ [e]) ++ l)
      by now rewrite <- app_assoc.
    apply IH. now apply page_scan_entry_inv.
Qed.

(** X23: [scanValidBank1Pages] on a root directory that opens.  The call
    leaves between 1 and 26 pages in the 27-byte array, as a string of
    exactly that length, in strictly ascending order; a letter is among
    them exactly when a directory named "1<letter>_..." exists, or, when
    there is no such directory at all, when it is 'A'. *)
Theorem scanValidBank1Pages_sorted (entries : list DirEntry) (pages0 : list Z) :
  length pages0 = 27%nat ->
  let pages := fst (scanValidBank1Pages (Some entries) pages0) in
  let count := snd (scanValidBank1Pages (Some entries) pages0) in
  length pages = 27%nat /\ 1 <= count <= 26 /\
  Z.of_nat (length (cstr pages)) = count /\
  (forall i j a b, (i < j)%nat ->
     cstr pages !! i = Some a -> cstr pages !! j = Some b -> a < b) /\
  (forall c, c ∈ cstr pages <->
     (exists e, e ∈ entries /\ names_page e c) \/
     ((forall e c', e ∈ entries -> ~ names_page e c') /\ c = 65)).
Proof.
  intros Hlen0 pages count. subst pages count. unfold scanValidBank1Pages.
  assert (Hinit : page_inv [] (<[0%nat := 0]> pages0, 0)).
  { split; [cbn [fst]; now rewrite length_insert |].
    destruct pages0 as [| p0 rest0]; [discriminate |].
    exists [], rest0. cbn [fst snd app length].
    split; [reflexivity |]. split; [reflexivity |]. split; [constructor |].
    intros c. split; [intros H; inversion H | intros (e & He & _); inversion He]. }
  pose proof (page_scan_inv entries [] _ Hinit) as Hinv. cbn [app] in Hinv.
  destruct (fold_left page_scan_entry entries (<[0%nat := 0]> pages0, 0))
    as [pages count].
  destruct Hinv as (Hlen & ps & rest & Hpages & Hcount & Hnd & Hmem).
  cbn [fst snd] in *.
  assert (Hletters : forall c, c ∈ ps -> 65 <= c <= 90).
  { intros c Hc. apply Hmem in Hc as (e' & _ & He'). exact (names_page_letter e' c He'). }
  destruct (bubble_sort_spec ps (0 :: rest)) as (sorted & Hsort & Hperm & Hnondec).
  rewrite Hcount, <- Hpages in Hsort. rewrite Hsort.
  assert (Hrest : length rest = (26 - length ps)%nat).
  { apply (f_equal length) in Hpages. rewrite length_app in Hpages.
    cbn [length] in Hpages. lia. }
  assert (Hps : (length ps <= 26)%nat).
  { apply (f_equal length) in Hpages. rewrite length_app in Hpages.
    cbn [length] in Hpages. lia. }
  destruct (Z.eqb_spec count 0) as [Hz | Hnz]; cbn [fst snd].
  - assert (ps = []) by (destruct ps; [reflexivity | cbn in Hcount; lia]). subst ps.
    apply Permutation_nil_r in Hperm. subst sorted. cbn [app].
    destruct rest as [| r0 rest']; [cbn in Hrest; lia |].
    cbn. split; [now rewrite Hpages in Hlen |]. split; [lia |]. split; [reflexivity |].
    split.
    + intros [| i] [| j] a b Hij Ha Hb; try lia; discriminate.
    + intros c. rewrite list_elem_of_singleton. split.
      * intros ->. right. split; [| reflexivity]. intros e c' He Hn.
        assert (Hc' : c' ∈ []) by (apply Hmem; now exists e). inversion Hc'.
      * intros [(e & He & Hn) | (_ & ->)]; [| reflexivity].
        assert (Hc' : c ∈ []) by (apply Hmem; now exists e). inversion Hc'.
  - assert (Hcstr : cstr (sorted ++ 0 :: rest) = sorted).
    { apply cstr_prefix. rewrite Forall_forall. intros z Hz. rewrite Hperm in Hz.
      specialize (Hletters z Hz). lia. }
    rewrite Hcstr.
    assert (Hls : length sorted = length ps) by now rewrite Hperm.
    split; [rewrite length_app; cbn [length]; lia |].
    split; [lia |]. split; [lia |]. split.
    + intros i j a b Hij Ha Hb.
      pose proof (nondecreasing_lookup sorted Hnondec i j a b Hij Ha Hb) as Hle.
      assert (Hne : a <> b).
      { intros ->. assert (Hnd' : NoDup sorted) by now rewrite Hperm.
        pose proof (NoDup_lookup sorted i j b Hnd' Ha Hb). lia. }
      lia.
    + intros c. rewrite Hperm, Hmem. split; [now left |].
      intros [H | (Hno & ->)]; [exact H |]. exfalso.
      destruct ps as [| p ps']; [cbn in Hcount; lia |].
      assert (Hp : p ∈ p :: ps') by now left.
      apply Hmem in Hp as (e & He & Hn). exact (Hno e p He Hn).
Qed.

(** Directories "1C_x", "1A_y", "1C_z" and a file "1B_f". *)
Lemma scanValidBank1Pages_sorted_witness :
  cstr (fst (scanValidBank1Pages
               (Some [mkDirEntry true [49; 67; 95; 120] [];
                      mkDirEntry true [49; 65; 95; 121] [];
                      mkDirEntry true [49; 67; 95; 122] [];
                      mkDirEntry false [49; 66; 95; 102] []])
               (replicate 27 0))) = [65; 67] /\
  1 <= snd (scanValidBank1Pages
              (Some [mkDirEntry true [49; 67; 95; 120] [];
                     mkDirEntry true [49; 65; 95; 121] [];
                     mkDirEntry true [49; 67; 95; 122] [];
                     mkDirEntry false [49; 66; 95; 102] []])
              (replicate 27 0)) <= 26.
Proof.
  split; [reflexivity |].
  pose proof (scanValidBank1Pages_sorted
                [mkDirEntry true [49; 67; 95; 120] [];
                 mkDirEntry true [49; 65; 95; 121] [];
                 mkDirEntry true [49; 67; 95; 122] [];
                 mkDirEntry false [49; 66; 95; 102] []]
                (replicate 27 0) eq_refl) as H.
  cbv zeta in H. destruct H as (_ & H & _). exact H.
Defined.

(* ===================================================================== *)
(** * Facts about the SD banks                                            *)
(* ===================================================================== *)

Lemma bank_file_entry_inv (all l : list (bool * list Z)) (fs : list (list Z)) :
  (forall x, x ∈ l -> x ∈ all) ->
  Z.of_nat (length fs) <= 100 -> Forall (from_listing all) fs ->
  Z.of_nat (length (fold_left bank_file_entry l fs)) <= 100 /\
  Forall (from_listing all) (fold_left bank_file_entry l fs).
Proof.
  revert fs. induction l as [| [isDir filename] l IH]; intros fs Hsub Hlen Hfs;
    [split; assumption |].
  cbn [fold_left]. apply IH.
  - intros x Hx. apply Hsub. now right.
  - unfold bank_file_entry, MAX_FILES_PER_BANK.
    destruct isDir; cbn [negb andb]; [exact Hlen |].
    destruct (Z.ltb_spec (Z.of_nat (length fs)) 100); [| exact Hlen].
    destruct (sd_audio_ext filename); [| exact Hlen].
    rewrite length_app. cbn [length]. lia.
  - unfold bank_file_entry, MAX_FILES_PER_BANK.
    destruct isDir; cbn [negb andb]; [exact Hfs |].
    destruct (Z.of_nat (length fs) <? 100); [| exact Hfs].
    destruct (sd_audio_ext filename) eqn:Hext; [| exact Hfs].
    apply Forall_app. split; [exact Hfs |]. constructor; [| constructor].
    exists filename. split; [apply Hsub; now left |]. split; [exact Hext | reflexivity].
Qed.

Lemma bank_scan_entry_inv (entries l : list DirEntry) (sdBanks : list SDBank) :
  (forall e, e ∈ l -> e ∈ entries) ->
  Z.of_nat (length sdBanks) <= 20 -> Forall (bank_from entries) sdBanks ->
  Z.of_nat (length (fold_left bank_scan_entry l sdBanks)) <= 20 /\
  Forall (bank_from entries) (fold_left bank_scan_entry l sdBanks).
Proof.
  revert sdBanks. induction l as [| e l IH]; intros sdBanks Hsub Hlen Hall;
    [split; assumption |].
  cbn [fold_left].
  assert (He : e ∈ entries) by (apply Hsub; now left).
  assert (Hstep : Z.of_nat (length (bank_scan_entry sdBanks e)) <= 20 /\
                  Forall (bank_from entries) (bank_scan_entry sdBanks e)).
  { unfold bank_scan_entry, MAX_SD_BANKS.
    destruct (isDirectory e) eqn:Hdir; cbn [andb]; [| split; assumption].
    destruct (2 <=? Z.of_nat (length (entryName e))); cbn [andb]; [| split; assumption].
    destruct (Z.leb_spec 50 (char_at (entryName e) 0)); cbn [andb]; [| split; assumption].
    destruct (Z.leb_spec (char_at (entryName e) 0) 54); cbn [andb]; [| split; assumption].
    set (paged := (3 <=? Z.of_nat (length (entryName e)))
                  && (65 <=? char_at (entryName e) 1) && (char_at (entryName e) 1 <=? 90)
                  && (char_at (entryName e) 2 =? 95)).
    destruct (negb paged && negb (char_at (entryName e) 1 =? 95)); [split; assumption |].
    destruct (Z.ltb_spec (Z.of_nat (length sdBanks)) 20); [| split; assumption].
    destruct (bank_file_entry_inv (entryFiles e) (entryFiles e) [])
      as (Hfl & Hff); [auto | cbn; lia | constructor |].
    split; [rewrite length_app; cbn [length]; lia |].
    apply Forall_app. split; [exact Hall |]. constructor; [| constructor].
    unfold bank_from. cbn [bankNum page files fileCount].
    assert (Hnum : u8 (char_at (entryName e) 0 - 48) = char_at (entryName e) 0 - 48)
      by (unfold u8; apply Z.mod_small; lia).
    rewrite Hnum.
    split; [lia |]. split.
    { destruct paged eqn:Hp; [| now left]. right. subst paged.
      rewrite !andb_true_iff in Hp. lia. }
    split; [reflexivity |]. split; [exact Hfl |].
    exists e. split; [exact He |]. split; [exact Hdir |]. split; [lia | exact Hff]. }
  destruct Hstep as (H1 & H2). apply IH; [| exact H1 | exact H2].
  intros x Hx. apply Hsub. now right.
Qed.

Lemma findSDBank_Some (sdBanks : list SDBank) (bank page_ : Z) (b : SDBank) :
  findSDBank sdBanks bank page_ = Some b ->
  b ∈ sdBanks /\ bankNum b = bank /\ page b = page_.
Proof.
  induction sdBanks as [| x rest IH]; [discriminate |]. cbn [findSDBank].
  destruct ((bankNum x =? bank) && (page x =? page_)) eqn:E.
  - intros H. injection H as <-. apply andb_true_iff in E as (E1 & E2).
    split; [now left |]. lia.
  - intros H. destruct (IH H) as (Hin & Hrest). split; [now right | exact Hrest].
Qed.

(** X24: what [getSDFile] can hand to the player after [scanSDBanks].
    The scan fills at most 20 banks, each numbered 2 to 6, with page 0 or
    'A'..'Z' and at most 100 files; and a name that [getSDFile] returns for
    (bank, page, index) has 1 <= index <= 100 and is the name of a plain
    file with extension .wav, .mp3, .aac or .m4a (in any case), listed in
    a directory of the root whose name starts with the digit of the
    bank. *)
Theorem scanSDBanks_getSDFile (entries : list DirEntry) :
  let sdBanks := scanSDBanks (Some entries) in
  (length sdBanks <= 20)%nat /\
  Forall (fun b => 2 <= bankNum b <= 6 /\ (page b = 0 \/ 65 <= page b <= 90) /\
                   fileCount b = Z.of_nat (length (files b)) /\ fileCount b <= 100)
         sdBanks /\
  forall bank page_ index f,
    getSDFile sdBanks bank page_ index = Some f ->
    2 <= bank <= 6 /\ 1 <= index <= 100 /\
    exists e filename,
      e ∈ entries /\ isDirectory e = true /\
      char_at (entryName e) 0 = bank + 48 /\
      (false, filename) ∈ entryFiles e /\ sd_audio_ext filename = true /\
      f = take 63 filename.
Proof.
  intros sdBanks. subst sdBanks. unfold scanSDBanks.
  destruct (bank_scan_entry_inv entries entries []) as (Hlen & Hall);
    [auto | cbn; lia | constructor |].
  split; [lia |]. split.
  { eapply Forall_impl; [exact Hall |]. intros b (H1 & H2 & H3 & H4 & _). tauto. }
  intros bank page_ index f. unfold getSDFile.
  destruct (findSDBank _ bank page_) as [b |] eqn:Hfind; [| discriminate].
  apply findSDBank_Some in Hfind as (Hin & Hnum & Hpage).
  rewrite Forall_forall in Hall.
  destruct (Hall b Hin) as (Hb1 & _ & Hcount & Hmax & e & He & Hdir & Hch & Hfiles).
  destruct (Z.ltb_spec index 1); cbn [orb]; [discriminate |].
  destruct (Z.ltb_spec (fileCount b) index); [discriminate |].
  intros Hf. split; [lia |]. split; [lia |].
  apply list_elem_of_lookup_2 in Hf.
  rewrite Forall_forall in Hfiles.
  destruct (Hfiles f Hf) as (filename & Hfn & Hext & Hcut).
  exists e, filename. rewrite <- Hnum. tauto.
Qed.

(** A card with the directories "2_fx", holding "a.WAV" and "b.txt",
    and "7_no". *)
Lemma scanSDBanks_getSDFile_witness :
  getSDFile
    (scanSDBanks (Some [mkDirEntry true [50; 95; 102; 120]
                          [(false, [97; 46; 87; 65; 86]); (false, [98; 46; 116; 120; 116])];
                        mkDirEntry true [55; 95; 110; 111] []]))
    2 0 1 = Some [97; 46; 87; 65; 86] /\
  1 <= 1 <= 100.
Proof.
  split; [reflexivity |].
  pose proof (scanSDBanks_getSDFile
                [mkDirEntry true [50; 95; 102; 120]
                   [(false, [97; 46; 87; 65; 86]); (false, [98; 46; 116; 120; 116])];
                 mkDirEntry true [55; 95; 110; 111] []]) as H.
  cbv zeta in H. destruct H as (_ & _ & H).
  destruct (H 2 0 1 [97; 46; 87; 65; 86] eq_refl) as (_ & Hidx & _). exact Hidx.
Defined.

(* ===================================================================== *)
(** * Facts about the flash copy and the voice prompts                    *)
(* ===================================================================== *)

Section CopyFacts.

Variables sd_limit flash_limit : nat -> Z.

Local Abbreviation copy := (copy_loop sd_limit flash_limit).

(** The loop at any point of a copy: the flash file holds the bytes in
    front of the card's handle, [remaining] bytes are still to come. *)
Lemma copy_loop_spec (data : list Z) (fuel : nat) :
  Z.of_nat (length data) < 2 ^ 32 ->
  forall (k : nat) (pos remaining : Z) (flash : list Z),
  0 <= pos -> 0 <= remaining -> pos + remaining = Z.of_nat (length data) ->
  flash = take (Z.to_nat pos) data ->
  (Z.to_nat remaining < fuel)%nat ->
  exists ok flash', copy fuel k data pos remaining flash = Some (ok, flash') /\
    (exists n, flash' = take n data) /\
    (ok = true <-> flash' = data) /\
    ((forall j, 512 <= sd_limit j /\ 512 <= flash_limit j) -> ok = true).
Proof.
  intros H32. induction fuel as [| fuel IH];
    intros k pos remaining flash Hpos Hrem Hsum Hflash Hfuel; [lia |].
  cbn [copy_loop].
  destruct (Z.ltb_spec 0 remaining) as [Hgt | Hle].
  2: { exists true, flash. split; [reflexivity |].
       assert (Hall : flash = data) by (subst flash; apply take_ge; lia).
       split; [exists (Z.to_nat pos); exact Hflash |]. split; [tauto | reflexivity]. }
  set (toRead := if 512 <? remaining then 512 else remaining).
  assert (HtoRead : 0 < toRead <= remaining /\ toRead <= 512).
  { subst toRead. destruct (Z.ltb_spec 512 remaining); lia. }
  destruct (Z.ltb_spec (sd_limit k) 0) as [Hneg | Hnn].
  { change (-1 <=? 0) with true. cbv beta iota.
    exists false, flash. split; [reflexivity |].
    split; [exists (Z.to_nat pos); exact Hflash |].
    split; [| intros Hok; destruct (Hok k); lia].
    split; [discriminate |]. intros E. exfalso.
    apply (f_equal length) in E. rewrite Hflash, length_take in E. lia. }
  set (chunk := take (Z.to_nat (Z.min toRead (sd_limit k))) (drop (Z.to_nat pos) data)).
  assert (Hchunk : Z.of_nat (length chunk) = Z.min toRead (sd_limit k)).
  { subst chunk. rewrite length_take, length_drop. lia. }
  destruct (Z.leb_spec (Z.of_nat (length chunk)) 0) as [Hz | Hp].
  { exists false, flash. split; [reflexivity |].
    split; [exists (Z.to_nat pos); exact Hflash |].
    split; [| intros Hok; destruct (Hok k); lia].
    split; [discriminate |]. intros E. exfalso.
    apply (f_equal length) in E. rewrite Hflash, length_take in E. lia. }
  set (bytesWritten := Z.max 0 (Z.min (Z.of_nat (length chunk)) (flash_limit k))).
  assert (Hflash' : flash ++ take (Z.to_nat bytesWritten) chunk
                    = take (Z.to_nat pos + Z.to_nat bytesWritten) data).
  { rewrite Hflash. subst chunk. rewrite take_take, take_take_drop.
    f_equal. subst bytesWritten. rewrite length_take, length_drop in *. lia. }
  destruct (Z.eqb_spec bytesWritten (Z.of_nat (length chunk))) as [Hw | Hw];
    cbn [negb].
  - rewrite Hw in Hflash'. rewrite Hw.
    destruct (IH (S k) (pos + Z.of_nat (length chunk))
                (wrap32 (remaining - Z.of_nat (length chunk)))
                (flash ++ take (Z.to_nat (Z.of_nat (length chunk))) chunk))
      as (ok & flash' & Hrun & Hpre & Hiff & Hgood).
    + lia.
    + apply wrap32_range.
    + rewrite wrap32_small by lia. lia.
    + rewrite Hflash'. f_equal. lia.
    + rewrite wrap32_small by lia. lia.
    + exists ok, flash'. split; [exact Hrun |]. split; [exact Hpre |].
      split; [exact Hiff | exact Hgood].
  - exists false, (flash ++ take (Z.to_nat bytesWritten) chunk).
    split; [reflexivity |].
    split; [eexists; exact Hflash' |].
    split; [| intros Hok; destruct (Hok k); subst bytesWritten; lia].
    split; [discriminate |]. intros E. exfalso.
    apply (f_equal length) in E. rewrite Hflash', length_take in E.
    subst bytesWritten. lia.
Qed.

(** X25: the copy loop of [syncBank1ToFlash].  For a file shorter than
    2^32 bytes the loop ends, what it leaves in flash is always a prefix
    of the file, and it reports success exactly when that is the whole
    file, however the card splits its reads; when card and flash both
    take full 512-byte chunks, it succeeds. *)
Theorem copy_file_exact (data : list Z) (fuel : nat) :
  Z.of_nat (length data) < 2 ^ 32 ->
  (length data < fuel)%nat ->
  exists ok flash, copy_file sd_limit flash_limit fuel data = Some (ok, flash) /\
    (exists n, flash = take n data) /\
    (ok = true <-> flash = data) /\
    ((forall j, 512 <= sd_limit j /\ 512 <= flash_limit j) -> ok = true).
Proof.
  intros H32 Hfuel. unfold copy_file.
  apply copy_loop_spec; try assumption; try rewrite wrap32_small; try lia.
  reflexivity.
Qed.

End CopyFacts.

(** A card that delivers 300 bytes at a time. *)
Lemma copy_file_exact_witness :
  exists ok flash,
    copy_file (fun _ => 300) (fun _ => 512) 1001 (replicate 1000 7) = Some (ok, flash) /\
    (exists n, flash = take n (replicate 1000 7)) /\
    (ok = true <-> flash = replicate 1000 7) /\
    ((forall j : nat, 512 <= 300 /\ 512 <= 512) -> ok = true).
Proof.
  apply (copy_file_exact (fun _ => 300) (fun _ => 512) (replicate 1000 7) 1001).
  - rewrite length_replicate. lia.
  - rewrite length_replicate. lia.
Defined.

Lemma playVoiceNumber_range (number : Z) :
  Forall (fun n => 0 <= n <= 100) (playVoiceNumber number).
Proof.
  unfold playVoiceNumber. destruct (Z.ltb_spec number 0); [constructor |].
  constructor; [| constructor]. destruct (Z.ltb_spec 100 number); lia.
Qed.

(** X26: the numbers spoken for a baud rate.  Every number requested has
    a voice file (0 to 100); for a rate below 1 010 000 the numbers, read
    as base-100 digits, give back the rate in hundreds: one number up to
    10 099 baud, two above. *)
Theorem playBaudFeedback_numbers (rate : Z) :
  0 <= rate < 1010000 ->
  Forall (fun n => 0 <= n <= 100) (playBaudFeedback rate) /\
  fold_left (fun acc n => acc * 100 + n) (playBaudFeedback rate) 0 = rate / 100 /\
  length (playBaudFeedback rate) = (if rate <? 10100 then 1%nat else 2%nat).
Proof.
  intros Hr. split.
  { unfold playBaudFeedback. destruct (_ <? _);
      [apply Forall_app; split |]; apply playVoiceNumber_range. }
  unfold playBaudFeedback.
  rewrite Z.quot_div_nonneg by lia.
  pose proof (Z_div_mod_eq_full rate 100) as E1.
  pose proof (Z.mod_pos_bound rate 100 ltac:(lia)) as B1.
  set (h := rate / 100) in *.
  assert (Hh : 0 <= h < 10100) by lia.
  destruct (Z.ltb_spec 100 h) as [Hbig | Hsmall].
  - rewrite Z.quot_div_nonneg, Z.rem_mod_nonneg by lia.
    pose proof (Z_div_mod_eq_full h 100) as E2.
    pose proof (Z.mod_pos_bound h 100 ltac:(lia)) as B2.
    unfold playVoiceNumber.
    destruct (Z.ltb_spec (h / 100) 0); [lia |].
    destruct (Z.ltb_spec (h mod 100) 0); [lia |].
    destruct (Z.ltb_spec 100 (h / 100)); [lia |].
    destruct (Z.ltb_spec 100 (h mod 100)); [lia |].
    cbn. destruct (Z.ltb_spec rate 10100); [lia |]. split; [lia | reflexivity].
  - unfold playVoiceNumber.
    destruct (Z.ltb_spec h 0); [lia |].
    destruct (Z.ltb_spec 100 h); [lia |].
    cbn. destruct (Z.ltb_spec rate 10100); [| lia]. split; [lia | reflexivity].
Qed.

Lemma playBaudFeedback_numbers_witness :
  fold_left (fun acc n => acc * 100 + n) (playBaudFeedback 115200) 0 = 115200 / 100.
Proof.
  apply (proj1 (proj2 (playBaudFeedback_numbers 115200 ltac:(lia)))).
Defined.
